(** * Modbus RTU protocol decoder (decoders/modbus/pd.py)

    A shallow embedding of the sigrok Modbus decoder.  Python integers are
    [Z], Python lists are [list], strings are [string] (UTF-8 bytes), and the
    methods of [Modbus_ADU], which mutate the ADU object and write
    annotations through the parent decoder, are computations in a small
    state-and-exception monad over the pair (ADU object, annotation output).
    The [No_more_data] exception used as flow control is one of the
    exceptions of that monad. *)

From Stdlib Require Import ZArith List String Ascii Bool Lia.
Import ListNotations.

Local Open Scope Z_scope.

(** ** Python built-ins used by the decoder *)

Module Py.

(** Exceptions that can leave a method. *)
Inductive exn : Type :=
| No_more_data
| IndexError
| KeyError
| ValueError
| UnboundLocalError
| RecursionError
| Exception (msg : string).

Inductive outcome (A : Type) : Type :=
| Ret (a : A)
| Raise (e : exn).
Arguments Ret {A} a.
Arguments Raise {A} e.

Definition len {A} (l : list A) : Z := Z.of_nat (List.length l).

(** [l[i]], with Python's negative indices. *)
Definition index {A} (l : list A) (i : Z) : option A :=
  if i <? 0
  then (if i + len l <? 0 then None else nth_error l (Z.to_nat (i + len l)))
  else nth_error l (Z.to_nat i).

(** [l[:k]], with Python's negative stop. *)
Definition slice_to {A} (l : list A) (k : Z) : list A :=
  if k <? 0 then firstn (Z.to_nat (len l + k)) l else firstn (Z.to_nat k) l.

(** [d.get(k, default)] on a dictionary literal. *)
Fixpoint dict_get (d : list (Z * string)) (k : Z) (default : string) : string :=
  match d with
  | [] => default
  | (k', v) :: d' => if k =? k' then v else dict_get d' k default
  end.

(** [d[k]] on a dictionary literal. *)
Fixpoint dict_item (d : list (Z * string)) (k : Z) : option string :=
  match d with
  | [] => None
  | (k', v) :: d' => if k =? k' then Some v else dict_item d' k
  end.

(** [x in {...}] on a set literal. *)
Definition set_in (x : Z) (s : list Z) : bool := existsb (Z.eqb x) s.

(** [names.index(x)] *)
Fixpoint list_index (names : list string) (x : string) (pos : Z) : option Z :=
  match names with
  | [] => None
  | n :: names' => if String.eqb n x then Some pos else list_index names' x (pos + 1)
  end.

(** *** Integer formatting *)

Definition digit_char (d : Z) : ascii :=
  if d <? 10 then ascii_of_nat (Z.to_nat (48 + d))
  else ascii_of_nat (Z.to_nat (55 + d)).

Fixpoint digits_of (fuel : nat) (base n : Z) (acc : string) : string :=
  let acc' := String (digit_char (n mod base)) acc in
  match fuel with
  | O => acc'
  | S fuel' => if n / base =? 0 then acc' else digits_of fuel' base (n / base) acc'
  end.

Definition digits (base n : Z) : string :=
  digits_of (Z.to_nat (Z.log2 n)) base n EmptyString.

Fixpoint zeros (k : nat) : string :=
  match k with O => EmptyString | S k' => String "0" (zeros k') end.

(** [format(n, "0<width><type>")] for the integer presentation types with
    [base] 10 ([d]), 16 ([X]) and 2 ([b]); zero padding goes between the
    sign and the digits. *)
Definition fmt_int (base : Z) (width : nat) (n : Z) : string :=
  let sign := if n <? 0 then "-"%string else EmptyString in
  let ds := digits base (Z.abs n) in
  let pad := (width - String.length sign - String.length ds)%nat in
  (sign ++ zeros pad ++ ds)%string.

Definition fmt_d (n : Z) : string := fmt_int 10 0 n.
Definition fmt_X (n : Z) : string := fmt_int 16 0 n.
Definition fmt_02X (n : Z) : string := fmt_int 16 2 n.
Definition fmt_04X (n : Z) : string := fmt_int 16 4 n.
Definition fmt_08b (n : Z) : string := fmt_int 2 8 n.

(** [chr(n)], as UTF-8. *)
Definition chr (n : Z) : option string :=
  let byte (x : Z) := ascii_of_nat (Z.to_nat x) in
  let cont (x : Z) := byte (Z.lor 128 (Z.land x 63)) in
  if n <? 0 then None
  else if n <? 128 then Some (String (byte n) EmptyString)
  else if n <? 2048 then
    Some (String (byte (Z.lor 192 (Z.shiftr n 6))) (String (cont n) EmptyString))
  else if n <? 65536 then
    Some (String (byte (Z.lor 224 (Z.shiftr n 12)))
           (String (cont (Z.shiftr n 6)) (String (cont n) EmptyString)))
  else if n <? 1114112 then
    Some (String (byte (Z.lor 240 (Z.shiftr n 18)))
           (String (cont (Z.shiftr n 12))
             (String (cont (Z.shiftr n 6)) (String (cont n) EmptyString))))
  else None.

(** *** [template.format(arg)] with one positional integer argument

    Literal text is copied, [{{] and [}}] are escapes, a replacement field
    is [{}] or [{0}] with an optional [:spec] where spec is empty, [d],
    [X], [b] or one of these behind [0<width>].  A lone brace is a
    [ValueError], as in Python. *)

Fixpoint split_at_brace (s acc : string) : option (string * string) :=
  match s with
  | EmptyString => None
  | String c s' =>
      if Ascii.eqb c "}" then Some (acc, s')
      else split_at_brace s' (acc ++ String c EmptyString)%string
  end.

Fixpoint split_at_colon (s acc : string) : string * option string :=
  match s with
  | EmptyString => (acc, None)
  | String c s' =>
      if Ascii.eqb c ":" then (acc, Some s')
      else split_at_colon s' (acc ++ String c EmptyString)%string
  end.

Definition is_digit (c : ascii) : bool :=
  let n := Z.of_nat (nat_of_ascii c) in (48 <=? n) && (n <=? 57).

Fixpoint read_width (s : string) (acc : nat) : nat * string :=
  match s with
  | String c s' =>
      if is_digit c then read_width s' (10 * acc + (nat_of_ascii c - 48))%nat
      else (acc, s)
  | EmptyString => (acc, s)
  end.

Definition apply_spec (spec : string) (arg : Z) : outcome string :=
  let '(width, ty) := read_width spec 0%nat in
  if String.eqb ty EmptyString then Ret (fmt_int 10 width arg)
  else if String.eqb ty "d" then Ret (fmt_int 10 width arg)
  else if String.eqb ty "X" then Ret (fmt_int 16 width arg)
  else if String.eqb ty "b" then Ret (fmt_int 2 width arg)
  else Raise ValueError.

Definition apply_field (field : string) (auto : Z) (arg : Z) : outcome string :=
  let '(name, spec) := split_at_colon field EmptyString in
  let spec := match spec with Some s => s | None => EmptyString end in
  if String.eqb name EmptyString then
    (if auto =? 0 then apply_spec spec arg else Raise IndexError)
  else if String.eqb name "0" then
    (if auto =? 0 then apply_spec spec arg else Raise ValueError)
  else Raise KeyError.

Fixpoint format_go (fuel : nat) (s : string) (auto : Z) (arg : Z) : outcome string :=
  match fuel with
  | O => Ret EmptyString
  | S fuel' =>
      match s with
      | EmptyString => Ret EmptyString
      | String c s' =>
          if Ascii.eqb c "{" then
            match s' with
            | String "{" s'' =>
                match format_go fuel' s'' auto arg with
                | Ret r => Ret (String "{" r)
                | Raise e => Raise e
                end
            | _ =>
                match split_at_brace s' EmptyString with
                | None => Raise ValueError
                | Some (field, rest) =>
                    match apply_field field auto arg with
                    | Raise e => Raise e
                    | Ret txt =>
                        let auto' := if String.eqb (fst (split_at_colon field EmptyString)) EmptyString
                                     then auto + 1 else auto in
                        match format_go fuel' rest auto' arg with
                        | Ret r => Ret (txt ++ r)%string
                        | Raise e => Raise e
                        end
                    end
                end
            end
          else if Ascii.eqb c "}" then
            match s' with
            | String "}" s'' =>
                match format_go fuel' s'' auto arg with
                | Ret r => Ret (String "}" r)
                | Raise e => Raise e
                end
            | _ => Raise ValueError
            end
          else
            match format_go fuel' s' auto arg with
            | Ret r => Ret (String c r)
            | Raise e => Raise e
            end
      end
  end.

Definition format (template : string) (arg : Z) : outcome string :=
  format_go (String.length template) template 0 arg.

End Py.

Export Py.

(** ** The data model *)

Definition RX : Z := 0.
Definition TX : Z := 1.

(** [class Data]: one byte from the serial decoder with its sample span. *)
Record Data : Type := mkData { d_start : Z; d_end : Z; d_data : Z }.

(** The packet handed over by the uart decoder, [(ptype, rxtx, pdata)];
    [pdata0] is [pdata[0]], the byte value of a ['DATA'] packet. *)
Record Packet : Type := mkPacket { ptype : string; rxtx : Z; pdata0 : Z }.

(** The two subclasses of [Modbus_ADU]. *)
Inductive Direction : Type := Sc | Cs.

(** The attributes of a [Modbus_ADU] object.  [mimumum_length] is the
    attribute that the misspelled assignments of the parse methods create;
    it does not exist ([None]) until one of them has run. *)
Record ADU : Type := mkADU {
  cls : Direction;
  data : list Data;
  start : Z;
  last_read : Z;
  write_channel : Z;
  last_byte_put : Z;
  annotation_prefix : string;
  minimum_length : Z;
  mimumum_length : option Z;
  startNewFrame : bool;
  hasError : bool
}.

(** [Modbus_ADU.__init__] *)
Definition ADU_init (c : Direction) (start : Z) (write_channel : Z)
    (annotation_prefix : string) : ADU :=
  {| cls := c;
     data := [];
     start := start;
     last_read := start;
     write_channel := write_channel;
     last_byte_put := -1;
     annotation_prefix := annotation_prefix;
     minimum_length := 4;
     mimumum_length := None;
     startNewFrame := false;
     hasError := false |}.

Definition set_data (v : list Data) (a : ADU) : ADU :=
  mkADU (cls a) v (start a) (last_read a) (write_channel a) (last_byte_put a)
        (annotation_prefix a) (minimum_length a) (mimumum_length a)
        (startNewFrame a) (hasError a).
Definition set_last_read (v : Z) (a : ADU) : ADU :=
  mkADU (cls a) (data a) (start a) v (write_channel a) (last_byte_put a)
        (annotation_prefix a) (minimum_length a) (mimumum_length a)
        (startNewFrame a) (hasError a).
Definition set_last_byte_put (v : Z) (a : ADU) : ADU :=
  mkADU (cls a) (data a) (start a) (last_read a) (write_channel a) v
        (annotation_prefix a) (minimum_length a) (mimumum_length a)
        (startNewFrame a) (hasError a).
Definition set_minimum_length (v : Z) (a : ADU) : ADU :=
  mkADU (cls a) (data a) (start a) (last_read a) (write_channel a) (last_byte_put a)
        (annotation_prefix a) v (mimumum_length a)
        (startNewFrame a) (hasError a).
Definition set_mimumum_length (v : Z) (a : ADU) : ADU :=
  mkADU (cls a) (data a) (start a) (last_read a) (write_channel a) (last_byte_put a)
        (annotation_prefix a) (minimum_length a) (Some v)
        (startNewFrame a) (hasError a).
Definition set_startNewFrame (v : bool) (a : ADU) : ADU :=
  mkADU (cls a) (data a) (start a) (last_read a) (write_channel a) (last_byte_put a)
        (annotation_prefix a) (minimum_length a) (mimumum_length a)
        v (hasError a).
Definition set_hasError (v : bool) (a : ADU) : ADU :=
  mkADU (cls a) (data a) (start a) (last_read a) (write_channel a) (last_byte_put a)
        (annotation_prefix a) (minimum_length a) (mimumum_length a)
        (startNewFrame a) v.

(** What [Decoder.put] hands to the backend: the sample span, the number of
    the annotation class and the message. *)
Record Ann : Type := mkAnn { a_start : Z; a_end : Z; a_class : Z; a_text : string }.

(** [Decoder.annotations], first components. *)
Definition annotations : list string :=
  [ "Sc-server-id"; "Sc-function"; "Sc-crc"; "Sc-address"; "Sc-data";
    "Sc-length"; "Sc-error";
    "Cs-server-id"; "Cs-function"; "Cs-crc"; "Cs-address"; "Cs-data";
    "Cs-length"; "Cs-error";
    "error-indication" ]%string.

(** ** The method monad

    A method of an ADU runs on the ADU object ([self]) and on the output of
    the parent decoder; it returns a value or raises, and what it changed
    before raising stays changed. *)

Record World : Type := mkWorld { self : ADU; output : list Ann }.

Definition M (A : Type) : Type := World -> outcome A * World.

Definition ret {A} (a : A) : M A := fun w => (Ret a, w).
Definition raise {A} (e : exn) : M A := fun w => (Raise e, w).
Definition bind {A B} (m : M A) (k : A -> M B) : M B :=
  fun w => match m w with
           | (Ret a, w') => k a w'
           | (Raise e, w') => (Raise e, w')
           end.

Notation "x <- m ;; k" := (bind m (fun x => k))
  (at level 61, m at next level, right associativity).
Notation "m ;; k" := (bind m (fun _ => k))
  (at level 61, right associativity).
Notation "' pat <- m ;; k" := (bind m (fun x => match x with pat => k end))
  (at level 61, pat pattern, m at next level, right associativity).

Definition get_self : M ADU := fun w => (Ret (self w), w).
Definition modify_self (f : ADU -> ADU) : M unit :=
  fun w => (Ret tt, mkWorld (f (self w)) (output w)).

(** An option turned into a value or the given exception. *)
Definition orelse {A} (o : option A) (e : exn) : M A :=
  match o with Some a => ret a | None => raise e end.
Definition lift {A} (o : outcome A) : M A :=
  match o with Ret a => ret a | Raise e => raise e end.

(** [self.data[i]] *)
Definition data_at (i : Z) : M Data :=
  a <- get_self ;; orelse (Py.index (data a) i) IndexError.

(** [try: body except No_more_data: pass] *)
Definition try_except_No_more_data (body : M unit) : M unit :=
  fun w => match body w with
           | (Raise No_more_data, w') => (Ret tt, w')
           | r => r
           end.

(** [Decoder.puta] *)
Definition puta (start end_ : Z) (annotation_channel_text message : string) : M unit :=
  annotation_channel <- orelse (list_index annotations annotation_channel_text 0) ValueError ;;
  fun w => (Ret tt, mkWorld (self w)
                     (output w ++ [mkAnn start end_ annotation_channel message])).

Local Open Scope string_scope.
Local Open Scope Z_scope.

(** ** [class Modbus_ADU]: the common infrastructure *)

(** [Modbus_ADU.put_if_needed] *)
Definition put_if_needed (byte_to_put : Z) (annotation message : string) : M unit :=
  a <- get_self ;;
  if byte_to_put >? len (data a) - 1 then raise No_more_data
  else
    (if String.eqb annotation "error" then modify_self (set_hasError true) else ret tt) ;;
    a <- get_self ;;
    if byte_to_put >? last_byte_put a then
      first <- data_at (last_byte_put a + 1) ;;
      last <- data_at byte_to_put ;;
      puta (d_start first) (d_end last) (annotation_prefix a ++ annotation) message ;;
      modify_self (set_last_byte_put byte_to_put) ;;
      raise No_more_data
    else ret tt.

(** [Modbus_ADU.put_last_byte] *)
Definition put_last_byte (annotation message : string) (maximum : option Z) : M unit :=
  a <- get_self ;;
  let last_byte_address := len (data a) - 1 in
  if match maximum with Some m => last_byte_address >? m | None => false end
  then ret tt
  else
    last <- data_at (-1) ;;
    text <- lift (Py.format message (d_data last)) ;;
    put_if_needed last_byte_address annotation text.

(** The second half of [Modbus_ADU.close], behind the test of the length:
    the frame marker and the check of the frame size.  [ScChannel] is
    [self.parent.options["ScChannel"]]. *)
Definition close_tail (ScChannel : string) : M unit :=
  a <- get_self ;;
  (if hasError a && String.eqb ScChannel "RX" then
     first <- data_at 0 ;;
     last <- data_at (-1) ;;
     puta (d_start first) (d_end last) "error-indication" "Frame contains error"
   else ret tt) ;;
  a <- get_self ;;
  if len (data a) >? 256 then
    try_except_No_more_data
      (put_if_needed (len (data a) - 1) (annotation_prefix a ++ "error")
         "Modbus data frames are limited to 256 bytes")
  else ret tt.

(** [Modbus_ADU.close] *)
Definition close (ScChannel : string) (message_overflow : Z) : M unit :=
  a <- get_self ;;
  if len (data a) <? minimum_length a then
    if len (data a) =? 0 then ret tt
    else
      d <- data_at (last_byte_put a) ;;
      puta (d_end d) message_overflow (annotation_prefix a ++ "error")
           "Message too short or not finished" ;;
      modify_self (set_hasError true) ;;
      close_tail ScChannel
  else close_tail ScChannel.

(** [Modbus_ADU.half_word] *)
Definition half_word (start : Z) : M Z :=
  a <- get_self ;;
  if start + 1 >? len (data a) - 1 then raise No_more_data
  else
    hi <- data_at start ;;
    lo <- data_at (start + 1) ;;
    ret (d_data hi * 256 + d_data lo).

(** *** The checksum *)

Definition magic_number : Z := 0xA001.

(** One round of the inner loop of [calc_crc]. *)
Definition crc_shift (result : Z) : Z :=
  let LSB := Z.land result 1 in
  let result := Z.shiftr result 1 in
  if LSB =? 0 then result else Z.lxor result magic_number.

(** One round of the outer loop: the byte is mixed in and eight shifts follow. *)
Definition crc_byte (result : Z) (byte : Z) : Z :=
  Nat.iter 8 crc_shift (Z.lxor result byte).

Definition crc_of (bytes : list Z) : Z := fold_left crc_byte bytes 0xFFFF.

Definition crc_pair (result : Z) : Z * Z :=
  (Z.land result 0xFF, Z.shiftr (Z.land result 0xFF00) 8).

(** [Modbus_ADU.calc_crc] *)
Definition calc_crc (last_byte : Z) : M (Z * Z) :=
  if last_byte <? 3 then raise (Exception "Could not calculate CRC: message too short")
  else
    a <- get_self ;;
    ret (crc_pair (crc_of (map d_data (Py.slice_to (data a) (last_byte - 1))))).

(** [Modbus_ADU.check_CRC] *)
Definition check_CRC (byte_to_put : Z) : M unit :=
  crc <- calc_crc byte_to_put ;;
  let '(crc_byte1, crc_byte2) := crc in
  d2 <- data_at (-2) ;;
  matches <- (if d_data d2 =? crc_byte1
              then (d1 <- data_at (-1) ;; ret (d_data d1 =? crc_byte2))
              else ret false) ;;
  if matches : bool then put_if_needed byte_to_put "crc" "CRC correct"
  else put_if_needed byte_to_put "error"
         ("CRC should be " ++ fmt_d crc_byte1 ++ " " ++ fmt_d crc_byte2).

(** *** Field decoders shared by both directions *)

(** [Modbus_ADU.parse_write_single_coil] *)
Definition parse_write_single_coil : M unit :=
  modify_self (set_minimum_length 8) ;;
  put_if_needed 1 "function" "Function 5: Write Single Coil" ;;
  address <- half_word 2 ;;
  put_if_needed 3 "address"
    ("Address 0x" ++ fmt_X address ++ " / " ++ fmt_d (address + 10000)) ;;
  raw_value <- half_word 4 ;;
  let value :=
    if raw_value =? 0x0000 then "Coil Value OFF"
    else if raw_value =? 0xFF00 then "Coil Value ON"
    else "Invalid Coil Value" in
  put_if_needed 5 "data" value ;;
  check_CRC 7.

(** [Modbus_ADU.parse_write_single_register] *)
Definition parse_write_single_register : M unit :=
  modify_self (set_minimum_length 8) ;;
  put_if_needed 1 "function" "Function 6: Write Single Register" ;;
  address <- half_word 2 ;;
  put_if_needed 3 "address"
    ("Address 0x" ++ fmt_X address ++ " / " ++ fmt_d (address + 30000)) ;;
  value <- half_word 4 ;;
  let value_formatted := "Register Value 0x" ++ fmt_X value ++ " / " ++ fmt_d value in
  put_if_needed 5 "data" value_formatted ;;
  check_CRC 7.

Definition diag_subfunction : list (Z * string) :=
  [ (0, "Return Query data");
    (1, "Restart Communications Option");
    (2, "Return Diagnostics Register");
    (3, "Change ASCII Input Delimiter");
    (4, "Force Listen Only Mode");
    (10, "Clear Counters and Diagnostic Register");
    (11, "Return Bus Message Count");
    (12, "Return Bus Communication Error Count");
    (13, "Return Bus Exception Error Count");
    (14, "Return Slave Message Count");
    (15, "Return Slave No Response Count");
    (16, "Return Slave NAK Count");
    (17, "Return Slave Busy Count");
    (18, "Return Bus Character Overrun Count");
    (20, "Return Overrun Counter and Flag") ].

(** [Modbus_ADU.parse_diagnostics] *)
Definition parse_diagnostics : M unit :=
  modify_self (set_minimum_length 8) ;;
  put_if_needed 1 "function" "Function 8: Diagnostics" ;;
  subfunction <- half_word 2 ;;
  let subfunction_name := dict_get diag_subfunction subfunction "Reserved subfunction" in
  put_if_needed 3 "data"
    ("Subfunction " ++ fmt_d subfunction ++ ": " ++ subfunction_name) ;;
  diagnostic_data <- half_word 4 ;;
  put_if_needed 5 "data"
    ("Data Field: " ++ fmt_d diagnostic_data ++ " / 0x" ++ fmt_04X diagnostic_data) ;;
  check_CRC 7.

(** [Modbus_ADU.parse_mask_write_register] *)
Definition parse_mask_write_register : M unit :=
  modify_self (set_minimum_length 10) ;;
  put_if_needed 1 "function" "Function 22: Mask Write Register" ;;
  address <- half_word 2 ;;
  put_if_needed 3 "address"
    ("Address 0x" ++ fmt_X address ++ " / " ++ fmt_d (address + 30001)) ;;
  half_word 4 ;;
  and_mask_1 <- data_at 4 ;;
  and_mask_2 <- data_at 5 ;;
  put_if_needed 5 "data"
    ("AND mask: " ++ fmt_08b (d_data and_mask_1) ++ " " ++ fmt_08b (d_data and_mask_2)) ;;
  half_word 6 ;;
  or_mask_1 <- data_at 6 ;;
  or_mask_2 <- data_at 7 ;;
  put_if_needed 7 "data"
    ("OR mask: " ++ fmt_08b (d_data or_mask_1) ++ " " ++ fmt_08b (d_data or_mask_2)) ;;
  check_CRC 9.

Definition not_implemented_names : list (Z * string) :=
  [ (20, "Read File Record");
    (21, "Write File Record");
    (24, "Read FIFO Queue");
    (43, "Read Device Identification/Encapsulated Interface Transport") ].

(** [Modbus_ADU.parse_not_implemented] *)
Definition parse_not_implemented : M unit :=
  d1 <- data_at 1 ;;
  let function := d_data d1 in
  functionname <- orelse (dict_item not_implemented_names function) KeyError ;;
  put_if_needed 1 "function"
    ("Function " ++ fmt_d function ++ ": " ++ functionname ++ " (not supported)") ;;
  put_last_byte "data"
    "This function is not currently supported by the sigrok modbus module" None.

(** ** [class Modbus_ADU_SC]: server -> client *)

Module SC.

(** [Modbus_ADU_SC.parse_read_bits] *)
Definition parse_read_bits : M unit :=
  modify_self (set_mimumum_length 5) ;;
  d1 <- data_at 1 ;;
  let function := d_data d1 in
  (if function =? 1 then put_if_needed 1 "function" "Function 1: Read Coils"
   else put_if_needed 1 "function" "Function 2: Read Discrete Inputs") ;;
  d2 <- data_at 2 ;;
  let bytecount := d_data d2 in
  modify_self (set_minimum_length (5 + bytecount)) ;;
  put_if_needed 2 "length" ("Byte count: " ++ fmt_d bytecount) ;;
  put_last_byte "data" "{:08b}" (Some (bytecount + 2)) ;;
  check_CRC (bytecount + 4).

(** [Modbus_ADU_SC.parse_read_registers] *)
Definition parse_read_registers : M unit :=
  modify_self (set_mimumum_length 5) ;;
  d1 <- data_at 1 ;;
  let function := d_data d1 in
  (if function =? 3 then
     put_if_needed 1 "function" "Function 3: Read Holding Registers"
   else if function =? 4 then
     put_if_needed 1 "function" "Function 4: Read Input Registers"
   else if function =? 23 then
     put_if_needed 1 "function" "Function 23: Read/Write Multiple Registers"
   else ret tt) ;;
  d2 <- data_at 2 ;;
  let bytecount := d_data d2 in
  modify_self (set_minimum_length (5 + bytecount)) ;;
  (if bytecount mod 2 =? 0 then
     put_if_needed 2 "length" ("Byte count: " ++ fmt_d bytecount)
   else
     put_if_needed 2 "error" ("Error: Odd byte count (" ++ fmt_d bytecount ++ ")")) ;;
  a <- get_self ;;
  (if len (data a) mod 2 =? 1 then
     register_value <- half_word (-2) ;;
     put_last_byte "data"
       ("0x" ++ fmt_04X register_value ++ " / " ++ fmt_d register_value)
       (Some (bytecount + 2))
   else raise No_more_data) ;;
  check_CRC (bytecount + 4).

(** [Modbus_ADU_SC.parse_read_exception_status] *)
Definition parse_read_exception_status : M unit :=
  modify_self (set_mimumum_length 5) ;;
  put_if_needed 1 "function" "Function 7: Read Exception Status" ;;
  d2 <- data_at 2 ;;
  let exception_status := d_data d2 in
  put_if_needed 2 "data" ("Exception status: " ++ fmt_08b exception_status) ;;
  check_CRC 4.

(** [Modbus_ADU_SC.parse_get_comm_event_counter] *)
Definition parse_get_comm_event_counter : M unit :=
  modify_self (set_mimumum_length 8) ;;
  put_if_needed 1 "function" "Function 11: Get Comm Event Counter" ;;
  status <- half_word 2 ;;
  (if status =? 0x0000 then put_if_needed 3 "data" "Status: not busy"
   else if status =? 0xFFFF then put_if_needed 3 "data" "Status: busy"
   else put_if_needed 3 "error" ("Bad status: 0x" ++ fmt_04X status)) ;;
  count <- half_word 4 ;;
  put_if_needed 5 "data" ("Event Count: " ++ fmt_d count) ;;
  check_CRC 7.

(** [Modbus_ADU_SC.parse_get_comm_event_log] *)
Definition parse_get_comm_event_log : M unit :=
  modify_self (set_mimumum_length 11) ;;
  put_if_needed 1 "function" "Function 12: Get Comm Event Log" ;;
  d2 <- data_at 2 ;;
  let bytecount := d_data d2 in
  put_if_needed 2 "length" ("Bytecount: " ++ fmt_d bytecount) ;;
  modify_self (set_mimumum_length (5 + bytecount)) ;;
  status <- half_word 3 ;;
  (if status =? 0x0000 then put_if_needed 4 "data" "Status: not busy"
   else if status =? 0xFFFF then put_if_needed 4 "data" "Status: busy"
   else put_if_needed 4 "error" ("Bad status: 0x" ++ fmt_04X status)) ;;
  event_count <- half_word 5 ;;
  put_if_needed 6 "data" ("Event Count: " ++ fmt_d event_count) ;;
  message_count <- half_word 7 ;;
  put_if_needed 8 "data" ("Message Count: " ++ fmt_d message_count) ;;
  last <- data_at (-1) ;;
  put_last_byte "data" ("Event: 0x" ++ fmt_02X (d_data last)) (Some (bytecount + 2)) ;;
  check_CRC (bytecount + 4).

(** [Modbus_ADU_SC.parse_write_multiple] *)
Definition parse_write_multiple : M unit :=
  modify_self (set_mimumum_length 8) ;;
  d1 <- data_at 1 ;;
  let function := d_data d1 in
  let locals :=
    if function =? 15 then Some ("Coils", 0x07B0, 10001)
    else if function =? 16 then Some ("Registers", 0x007B, 30001)
    else None in
  '(data_unit, max_outputs, long_address_offset) <- orelse locals UnboundLocalError ;;
  put_if_needed 1 "function"
    ("Function " ++ fmt_d function ++ ": Write Multiple " ++ data_unit) ;;
  starting_address <- half_word 2 ;;
  let address_name := long_address_offset + starting_address in
  put_if_needed 3 "address"
    ("Start at address 0x" ++ fmt_X starting_address ++ " / " ++ fmt_d address_name) ;;
  quantity_of_outputs <- half_word 4 ;;
  (if quantity_of_outputs <=? max_outputs then
     put_if_needed 5 "data" ("Write " ++ fmt_d quantity_of_outputs ++ " " ++ data_unit)
   else
     put_if_needed 5 "error"
       ("Bad value: " ++ fmt_d quantity_of_outputs ++ " " ++ data_unit
          ++ ". Max is " ++ fmt_d max_outputs)) ;;
  check_CRC 7.

(** [Modbus_ADU_SC.parse_report_server_id] *)
Definition parse_report_server_id : M unit :=
  modify_self (set_mimumum_length 7) ;;
  put_if_needed 1 "function" "Function 17: Report Server ID" ;;
  d2 <- data_at 2 ;;
  let bytecount := d_data d2 in
  put_if_needed 2 "length" ("Data is " ++ fmt_d bytecount ++ " bytes long") ;;
  d3 <- data_at 3 ;;
  put_if_needed 3 "data" ("serverID: " ++ fmt_d (d_data d3)) ;;
  d4 <- data_at 4 ;;
  let run_indicator_status := d_data d4 in
  (if run_indicator_status =? 0x00 then
     put_if_needed 4 "data" "Run Indicator status: Off"
   else if run_indicator_status =? 0xFF then
     put_if_needed 4 "data" "Run Indicator status: On"
   else
     put_if_needed 4 "error"
       ("Bad Run Indicator status: 0x" ++ fmt_X run_indicator_status)) ;;
  last <- data_at (-1) ;;
  c <- orelse (Py.chr (d_data last)) ValueError ;;
  put_last_byte "data"
    ("Device specific data: " ++ fmt_d (d_data last) ++ ", '" ++ c ++ "'")
    (Some (2 + bytecount)) ;;
  check_CRC (4 + bytecount).

Definition functions : list (Z * string) :=
  [ (1, "Read Coils");
    (2, "Read Discrete Inputs");
    (3, "Read Holding Registers");
    (4, "Read Input Registers");
    (5, "Write Single Coil");
    (6, "Write Single Register");
    (7, "Read Exception Status");
    (8, "Diagnostic");
    (11, "Get Com Event Counter");
    (12, "Get Com Event Log");
    (15, "Write Multiple Coils");
    (16, "Write Multiple Registers");
    (17, "Report Slave ID");
    (20, "Read File Record");
    (21, "Write File Record");
    (22, "Mask Write Register");
    (23, "Read/Write Multiple Registers");
    (24, "Read FIFO Queue");
    (43, "Read Device Identification/Encapsulated Interface Transport") ].

Definition errorcodes : list (Z * string) :=
  [ (1, "Illegal Function");
    (2, "Illegal Data Address");
    (3, "Illegal Data Value");
    (4, "Slave Device Failure");
    (5, "Acknowledge");
    (6, "Slave Device Busy");
    (8, "Memory Parity Error");
    (10, "Gateway Path Unavailable");
    (11, "Gateway Target Device failed to respond") ].

(** [Modbus_ADU_SC.parse_error] *)
Definition parse_error : M unit :=
  modify_self (set_mimumum_length 5) ;;
  d1 <- data_at 1 ;;
  let functioncode := d_data d1 - 0x80 in
  let functionname :=
    fmt_d functioncode ++ ": " ++ dict_get functions functioncode "Unknown function" in
  put_if_needed 1 "function" ("Error for function " ++ functionname) ;;
  d2 <- data_at 2 ;;
  let error := d_data d2 in
  let errorname := fmt_d error ++ ": " ++ dict_get errorcodes error "Unknown" in
  put_if_needed 2 "data" ("Error " ++ errorname) ;;
  check_CRC 4.

(** The [if]/[elif] chain of [Modbus_ADU_SC.parse] on the function code. *)
Definition dispatch (function : Z) : M unit :=
  if (function =? 1) || (function =? 2) then parse_read_bits
  else if (function =? 3) || (function =? 4) || (function =? 23) then
    parse_read_registers
  else if function =? 5 then parse_write_single_coil
  else if function =? 6 then parse_write_single_register
  else if function =? 7 then parse_read_exception_status
  else if function =? 8 then parse_diagnostics
  else if function =? 11 then parse_get_comm_event_counter
  else if function =? 12 then parse_get_comm_event_log
  else if (function =? 15) || (function =? 16) then parse_write_multiple
  else if function =? 17 then parse_report_server_id
  else if function =? 22 then parse_mask_write_register
  else if set_in function [21; 21; 24; 43] then parse_not_implemented
  else if function >? 0x80 then parse_error
  else
    (d1 <- data_at 1 ;;
     put_if_needed 1 "error" ("Unknown function: " ++ fmt_d (d_data d1)) ;;
     put_last_byte "error" "Unknown function" None).

(** The [message] that [Modbus_ADU_SC.parse] builds for byte 0. *)
Definition server_id_message (server_id : Z) : string :=
  if (1 <=? server_id) && (server_id <=? 247)
  then "Slave ID: " ++ fmt_d server_id
  else "Slave ID {} is invalid".

(** [Modbus_ADU_SC.parse] *)
Definition parse : M unit :=
  try_except_No_more_data
    (d0 <- data_at 0 ;;
     let server_id := d_data d0 in
     let message := server_id_message server_id in
     put_if_needed 0 "server-id" message ;;
     d1 <- data_at 1 ;;
     dispatch (d_data d1) ;;
     put_last_byte "error" "Message too long" None).

End SC.

(** ** [class Modbus_ADU_CS]: client -> server *)

Module CS.

Definition read_data_names : list (Z * string) :=
  [ (1, "Read Coils");
    (2, "Read Discrete Inputs");
    (3, "Read Holding Registers");
    (4, "Read Input Registers") ].

(** [Modbus_ADU_CS.parse_read_data_command] *)
Definition parse_read_data_command : M unit :=
  modify_self (set_minimum_length 8) ;;
  d1 <- data_at 1 ;;
  let function := d_data d1 in
  functionname <- orelse (dict_item read_data_names function) KeyError ;;
  put_if_needed 1 "function" ("Function " ++ fmt_d function ++ ": " ++ functionname) ;;
  starting_address <- half_word 2 ;;
  let address_name := 10000 * function + 1 + starting_address in
  put_if_needed 3 "address"
    ("Start at address 0x" ++ fmt_X starting_address ++ " / " ++ fmt_d address_name) ;;
  units <- half_word 4 ;;
  put_if_needed 5 "length" ("Read " ++ fmt_d units ++ " units of data") ;;
  check_CRC 7.

Definition single_byte_names : list (Z * string) :=
  [ (7, "Read Exception Status");
    (11, "Get Comm Event Counter");
    (12, "Get Comm Event Log");
    (17, "Report Slave ID") ].

(** [Modbus_ADU_CS.parse_single_byte_request] *)
Definition parse_single_byte_request : M unit :=
  d1 <- data_at 1 ;;
  let function := d_data d1 in
  function_name <- orelse (dict_item single_byte_names function) KeyError ;;
  put_if_needed 1 "function" ("Function " ++ fmt_d function ++ ": " ++ function_name) ;;
  check_CRC 3.

(** [ceil(quantity * ratio)] for the two ratios of [parse_write_multiple]:
    [1/8] for coils (the product with the float 0.125 is exact) and [2]
    for registers. *)
Definition ceil_eighth (quantity : Z) : Z := (quantity + 7) / 8.

(** [Modbus_ADU_CS.parse_write_multiple] *)
Definition parse_write_multiple : M unit :=
  modify_self (set_mimumum_length 9) ;;
  d1 <- data_at 1 ;;
  let function := d_data d1 in
  let locals :=
    if function =? 15 then Some ("Coils", 0x07B0, ceil_eighth, 10001)
    else if function =? 16 then Some ("Registers", 0x007B, Z.mul 2, 30001)
    else None in
  '(data_unit, max_outputs, times_ratio_ceil, long_address_offset)
     <- orelse locals UnboundLocalError ;;
  put_if_needed 1 "function"
    ("Function " ++ fmt_d function ++ ": Write Multiple " ++ data_unit) ;;
  starting_address <- half_word 2 ;;
  let address_name := long_address_offset + starting_address in
  put_if_needed 3 "address"
    ("Start at address 0x" ++ fmt_X starting_address ++ " / " ++ fmt_d address_name) ;;
  quantity_of_outputs <- half_word 4 ;;
  (if quantity_of_outputs <=? max_outputs then
     put_if_needed 5 "length" ("Write " ++ fmt_d quantity_of_outputs ++ " " ++ data_unit)
   else
     put_if_needed 5 "error"
       ("Bad value: " ++ fmt_d quantity_of_outputs ++ " " ++ data_unit
          ++ ". Max is " ++ fmt_d max_outputs)) ;;
  let proper_bytecount := times_ratio_ceil quantity_of_outputs in
  d6 <- data_at 6 ;;
  let bytecount := d_data d6 in
  (if bytecount =? proper_bytecount then
     put_if_needed 6 "length" ("Byte count: " ++ fmt_d bytecount)
   else
     put_if_needed 6 "error"
       ("Bad byte count, is " ++ fmt_d bytecount ++ ", should be "
          ++ fmt_d proper_bytecount)) ;;
  modify_self (set_mimumum_length (bytecount + 9)) ;;
  put_last_byte "data" "Value 0x{:X}" (Some (6 + bytecount)) ;;
  check_CRC (bytecount + 8).

(** [Modbus_ADU_CS.parse_read_file_record] (no dispatcher calls it) *)
Definition parse_read_file_record : M unit :=
  put_if_needed 1 "function" "Function 20: Read file records" ;;
  d2 <- data_at 2 ;;
  let bytecount := d_data d2 in
  modify_self (set_minimum_length (5 + bytecount)) ;;
  (if (0x07 <=? bytecount) && (bytecount <=? 0xF5) then
     put_if_needed 2 "length" ("Request is " ++ fmt_d bytecount ++ " bytes long")
   else
     put_if_needed 2 "error"
       ("Request claims to be " ++ fmt_d bytecount
          ++ " bytes long, legal values are between 7 and 247")) ;;
  a <- get_self ;;
  let current_byte := len (data a) - 1 in
  (if current_byte <=? bytecount + 2 then
     let step := (current_byte - 3) mod 7 in
     if step =? 0 then
       d <- data_at current_byte ;;
       if d_data d =? 6 then put_if_needed current_byte "data" "Start sub-request"
       else put_if_needed current_byte "error"
              "First byte of subrequest should be 0x06"
     else if step =? 1 then raise No_more_data
     else if step =? 2 then
       file_number <- half_word (current_byte - 1) ;;
       put_if_needed current_byte "data" ("Read File number " ++ fmt_d file_number)
     else if step =? 3 then raise No_more_data
     else if step =? 4 then
       record_number <- half_word (current_byte - 1) ;;
       put_if_needed current_byte "address"
         ("Read from record number " ++ fmt_d record_number)
     else if step =? 5 then raise No_more_data
     else if step =? 6 then
       records_to_read <- half_word (current_byte - 1) ;;
       put_if_needed current_byte "length"
         ("Read " ++ fmt_d records_to_read ++ " records")
     else ret tt
   else ret tt) ;;
  check_CRC (4 + bytecount).

(** [Modbus_ADU_CS.parse_read_write_registers] *)
Definition parse_read_write_registers : M unit :=
  modify_self (set_minimum_length 13) ;;
  put_if_needed 1 "function" "Function 23: Read/Write Multiple Registers" ;;
  starting_address <- half_word 2 ;;
  let address_name := 30001 + starting_address in
  put_if_needed 3 "address"
    ("Read starting at address 0x" ++ fmt_X starting_address ++ " / "
       ++ fmt_d address_name) ;;
  units <- half_word 4 ;;
  put_if_needed 5 "length" ("Read " ++ fmt_d units ++ " units of data") ;;
  starting_address <- half_word 6 ;;
  put_if_needed 7 "address"
    ("Write starting at address 0x" ++ fmt_X starting_address ++ " / "
       ++ fmt_d address_name) ;;
  quantity_of_outputs <- half_word 8 ;;
  put_if_needed 9 "length" ("Write " ++ fmt_d quantity_of_outputs ++ " registers") ;;
  let proper_bytecount := quantity_of_outputs * 2 in
  d10 <- data_at 10 ;;
  let bytecount := d_data d10 in
  (if bytecount =? proper_bytecount then
     put_if_needed 10 "length" ("Byte count: " ++ fmt_d bytecount)
   else
     put_if_needed 10 "error"
       ("Bad byte count, is " ++ fmt_d bytecount ++ ", should be "
          ++ fmt_d proper_bytecount)) ;;
  modify_self (set_mimumum_length (bytecount + 13)) ;;
  put_last_byte "data" "Data, value 0x{:02X}" (Some (10 + bytecount)) ;;
  check_CRC (bytecount + 12).

(** The [if] statements of [Modbus_ADU_CS.parse] on the function code:
    four independent statements, the last one carrying the [else]. *)
Definition dispatch (function : Z) : M unit :=
  (if (function >=? 1) && (function <=? 4) then parse_read_data_command else ret tt) ;;
  (if function =? 5 then parse_write_single_coil else ret tt) ;;
  (if function =? 6 then parse_write_single_register else ret tt) ;;
  (if set_in function [7; 11; 12; 17] then parse_single_byte_request
   else if function =? 8 then parse_diagnostics
   else ret tt) ;;
  (if set_in function [15; 16] then parse_write_multiple
   else if function =? 22 then parse_mask_write_register
   else if function =? 23 then parse_read_write_registers
   else if set_in function [21; 21; 24; 43] then parse_not_implemented
   else
     (d1 <- data_at 1 ;;
      put_if_needed 1 "error" ("Unknown function: " ++ fmt_d (d_data d1)) ;;
      put_last_byte "error" "Unknown function" None)).

(** The [message] that [Modbus_ADU_CS.parse] builds for byte 0. *)
Definition server_id_message (server_id : Z) : string :=
  if server_id =? 0 then "Broadcast message"
  else if (1 <=? server_id) && (server_id <=? 247) then
    "Slave ID: " ++ fmt_d server_id
  else if (248 <=? server_id) && (server_id <=? 255) then
    "Slave ID: " ++ fmt_d server_id ++ " (reserved address)"
  else EmptyString.

(** [Modbus_ADU_CS.parse] *)
Definition parse : M unit :=
  try_except_No_more_data
    (d0 <- data_at 0 ;;
     let server_id := d_data d0 in
     let message := server_id_message server_id in
     put_if_needed 0 "server-id" message ;;
     d1 <- data_at 1 ;;
     dispatch (d_data d1) ;;
     put_last_byte "error" "Message too long" None).

End CS.

(** [self.parse()], dispatched on the class of the object. *)
Definition parse : M unit :=
  a <- get_self ;;
  match cls a with
  | Sc => SC.parse
  | Cs => CS.parse
  end.

(** [Modbus_ADU.add_data] *)
Definition add_data (start end_ : Z) (pkt : Packet) : M unit :=
  modify_self (set_last_read end_) ;;
  if String.eqb (ptype pkt) "DATA" then
    modify_self (fun a => set_data (data a ++ [mkData start end_ (pdata0 pkt)]) a) ;;
    parse
  else ret tt.

(** ** [class Decoder] *)

Record Decoder : Type := mkDecoder {
  ADUSc : option ADU;
  ADUCs : option ADU;
  bitlength : option Z;
  ScChannel : string;      (* options["ScChannel"] *)
  out_ann : list Ann       (* what was put to the backend *)
}.

(** [Decoder.__init__] with the chosen option. *)
Definition Decoder_init (ScChannel : string) : Decoder :=
  mkDecoder None None None ScChannel [].

Definition get_ADU (direction : Direction) (d : Decoder) : option ADU :=
  match direction with Sc => ADUSc d | Cs => ADUCs d end.

Definition set_ADU (direction : Direction) (a : ADU) (d : Decoder) : Decoder :=
  match direction with
  | Sc => mkDecoder (Some a) (ADUCs d) (bitlength d) (ScChannel d) (out_ann d)
  | Cs => mkDecoder (ADUSc d) (Some a) (bitlength d) (ScChannel d) (out_ann d)
  end.

Definition set_bitlength (v : Z) (d : Decoder) : Decoder :=
  mkDecoder (ADUSc d) (ADUCs d) (Some v) (ScChannel d) (out_ann d).

(** Run a method on the ADU object [a] of the given direction: the object
    is the one the decoder holds, so what the method did to it is seen
    through the decoder whatever the outcome.  The object is returned too. *)
Definition call {A} (direction : Direction) (a : ADU) (m : M A) (d : Decoder)
    : outcome A * ADU * Decoder :=
  let '(r, w) := m (mkWorld a (out_ann d)) in
  (r, self w,
   match direction with
   | Sc => mkDecoder (Some (self w)) (ADUCs d) (bitlength d) (ScChannel d) (output w)
   | Cs => mkDecoder (ADUSc d) (Some (self w)) (bitlength d) (ScChannel d) (output w)
   end).

(** The constructor call of [decode_ADU] for a direction. *)
Definition new_ADU (direction : Direction) (ss : Z) : ADU :=
  match direction with
  | Sc => ADU_init Sc ss TX "Sc-"
  | Cs => ADU_init Cs ss TX "Cs-"
  end.

(** [Decoder.decode_ADU]; [fuel] bounds the depth of the recursion. *)
Fixpoint decode_ADU (fuel : nat) (ss es : Z) (pkt : Packet) (direction : Direction)
    (d : Decoder) : outcome unit * Decoder :=
  match fuel with
  | O => (Raise RecursionError, d)
  | S fuel' =>
      let learned :=
        match bitlength d with
        | None =>
            if String.eqb (ptype pkt) "STARTBIT" || String.eqb (ptype pkt) "STOPBIT"
            then Some (es - ss) else None
        | Some b => Some b
        end in
      match learned with
      | None => (Ret tt, d)
      | Some bl =>
          let d := set_bitlength bl d in
          let a :=
            match get_ADU direction d with
            | None => new_ADU direction ss
            | Some a => if startNewFrame a then new_ADU direction ss else a
            end in
          let d := set_ADU direction a d in
          if ss - last_read a <=? bl * 28 then
            let '(r, _, d) := call direction a (add_data ss es pkt) d in (r, d)
          else
            let '(r, a, d) :=
              if len (data a) >? 0 then
                call direction a
                  (last <- data_at (-1) ;; close (ScChannel d) (d_end last + bl * 3)) d
              else (Ret tt, a, d) in
            match r with
            | Raise e => (Raise e, d)
            | Ret _ =>
                decode_ADU fuel' ss es pkt direction
                  (set_ADU direction (set_startNewFrame true a) d)
            end
      end
  end.

(** [Decoder.decode] *)
Definition decode (fuel : nat) (ss es : Z) (pkt : Packet) (d : Decoder)
    : outcome unit * Decoder :=
  let step (cond : bool) (direction : Direction) (rd : outcome unit * Decoder) :=
    match rd with
    | (Raise e, d) => (Raise e, d)
    | (Ret _, d) => if cond then decode_ADU fuel ss es pkt direction d else (Ret tt, d)
    end in
  let tx := rxtx pkt =? TX in
  let rx := rxtx pkt =? RX in
  step (rx && String.eqb (ScChannel d) "RX") Sc
    (step (tx && String.eqb (ScChannel d) "TX") Sc
       (step tx Cs (Ret tt, d))).

(** The decoder run over a stream of packets [(ss, es, data)]; it stops at
    the first exception that leaves [decode]. *)
Fixpoint decode_all (fuel : nat) (events : list (Z * Z * Packet)) (d : Decoder)
    : outcome unit * Decoder :=
  match events with
  | [] => (Ret tt, d)
  | (ss, es, pkt) :: rest =>
      match decode fuel ss es pkt d with
      | (Raise e, d') => (Raise e, d')
      | (Ret _, d') => decode_all fuel rest d'
      end
  end.

(** ** Runs and inputs used in the statements below *)

(** The bytes of [bytes] handed to an ADU one after the other, each as a
    ['DATA'] packet with its own sample span. *)
Fixpoint feed (bytes : list Data) : M unit :=
  match bytes with
  | [] => ret tt
  | b :: rest =>
      add_data (d_start b) (d_end b) (mkPacket "DATA" TX (d_data b)) ;; feed rest
  end.

(** What the uart decoder sends for one byte on channel [ch] from sample
    [t] on, one sample per bit: start bit, eight data bits, stop bit. *)
Definition uart_byte (ch t v : Z) : list (Z * Z * Packet) :=
  [ (t, t + 1, mkPacket "STARTBIT" ch 0);
    (t + 1, t + 9, mkPacket "DATA" ch v);
    (t + 9, t + 10, mkPacket "STOPBIT" ch 0) ].

(** A run of bytes sent back to back from sample [t] on. *)
Fixpoint uart_frame (ch t : Z) (bytes : list Z) : list (Z * Z * Packet) :=
  match bytes with
  | [] => []
  | v :: rest => (uart_byte ch t v ++ uart_frame ch (t + 10) rest)%list
  end.

(** The operations of an ADU object. *)
Inductive Op : Type :=
| Op_add_data (start end_ : Z) (pkt : Packet)
| Op_put_if_needed (byte_to_put : Z) (annotation message : string)
| Op_put_last_byte (annotation message : string) (maximum : option Z)
| Op_close (ScChannel : string) (message_overflow : Z)
| Op_check_CRC (byte_to_put : Z)
| Op_parse.

Definition run_op (op : Op) : M unit :=
  match op with
  | Op_add_data s e pkt => add_data s e pkt
  | Op_put_if_needed b ann msg => put_if_needed b ann msg
  | Op_put_last_byte ann msg mx => put_last_byte ann msg mx
  | Op_close sc ov => close sc ov
  | Op_check_CRC b => check_CRC b
  | Op_parse => parse
  end.

(** The state reached by a sequence of operations, whatever each returns or
    raises to its caller. *)
Fixpoint run_ops (ops : list Op) (w : World) : World :=
  match ops with
  | [] => w
  | op :: rest => run_ops rest (snd (run_op op w))
  end.

(** Bit [k] of the byte at position [pos] of a buffer inverted. *)
Definition flip (k : Z) (d : Data) : Data :=
  mkData (d_start d) (d_end d) (Z.lxor (d_data d) (2 ^ k)).

Fixpoint flip_at (pos : nat) (k : Z) (l : list Data) : list Data :=
  match l, pos with
  | [], _ => []
  | d :: l', O => flip k d :: l'
  | d :: l', S pos' => d :: flip_at pos' k l'
  end.

Definition is_byte (d : Data) : Prop := 0 <= d_data d < 256.

(** A computation [keeps] a relation between worlds when the world it
    leaves, returning or raising, is related to the one it started in. *)
Definition keeps (R : World -> World -> Prop) {A} (m : M A) : Prop :=
  forall w, R w (snd (m w)).

(** What every operation of an ADU respects: the high-water mark does not
    go down, the error flag is not reset, the buffer and the output only
    grow at their ends, and class and prefix stay. *)
Record stable (w w' : World) : Prop := mkStable {
  st_mark : last_byte_put (self w) <= last_byte_put (self w');
  st_error : hasError (self w) = true -> hasError (self w') = true;
  st_data : exists more, data (self w') = (data (self w) ++ more)%list;
  st_output : exists more, output w' = (output w ++ more)%list;
  st_cls : cls (self w') = cls (self w);
  st_prefix : annotation_prefix (self w') = annotation_prefix (self w)
}.

(** The expected length is left alone. *)
Definition same_minimum (w w' : World) : Prop :=
  minimum_length (self w') = minimum_length (self w).

(** The relations that the emission path respects: reflexive, transitive,
    and closed under its four ways of changing the world (raising the error
    flag, writing an annotation, advancing the high-water mark, assigning
    the misspelled attribute). *)
Class Frame (R : World -> World -> Prop) : Prop := {
  frame_refl : forall w, R w w;
  frame_trans : forall w1 w2 w3, R w1 w2 -> R w2 w3 -> R w1 w3;
  frame_error : forall a out, R (mkWorld a out) (mkWorld (set_hasError true a) out);
  frame_emit : forall a out ann, R (mkWorld a out) (mkWorld a (out ++ [ann])%list);
  frame_mark : forall a out b,
    last_byte_put a < b -> R (mkWorld a out) (mkWorld (set_last_byte_put b a) out);
  frame_typo : forall a out v, R (mkWorld a out) (mkWorld (set_mimumum_length v a) out)
}.

(** Those that also allow the expected length to be assigned. *)
Class FrameLength (R : World -> World -> Prop) : Prop := {
  frame_length : forall a out v,
    R (mkWorld a out) (mkWorld (set_minimum_length v a) out)
}.

(** The ADU after the error flag was raised for an ["error"] annotation. *)
Definition flag (annotation : string) (a : ADU) : ADU :=
  if String.eqb annotation "error" then set_hasError true a else a.

(** The values of the accumulator of [calc_crc], and byte sequences. *)
Definition word16 (r : Z) : Prop := 0 <= r < 65536.
Definition bytes_ok (l : list Z) : Prop := Forall (fun b => 0 <= b < 256) l.

(** ** Notions for the properties of the parse step *)

(** The attributes of an ADU that only [__init__], [add_data] and
    [decode_ADU] assign. *)
Definition same_frame (a a' : ADU) : Prop :=
  cls a' = cls a /\ data a' = data a /\ start a' = start a
  /\ last_read a' = last_read a /\ write_channel a' = write_channel a
  /\ annotation_prefix a' = annotation_prefix a
  /\ startNewFrame a' = startNewFrame a.

(** The high-water mark points into the buffer, or before its first byte. *)
Definition mark_in_buffer (a : ADU) : Prop :=
  -1 <= last_byte_put a <= len (data a) - 1.

(** An annotation that spans the bytes [i + 1] to [j] of a buffer: it
    begins where byte [i + 1] begins and ends where byte [j] ends. *)
Definition spans (l : list Data) (i j : Z) (ann : Ann) : Prop :=
  exists first last,
    Py.index l (i + 1) = Some first /\ Py.index l j = Some last
    /\ a_start ann = d_start first /\ a_end ann = d_end last.

(** The step from [w] to [w'] wrote the annotation [ann]: it is the one new
    entry of the output, the mark went up, the annotation spans the bytes
    from behind the old mark to the new mark, and its class is one of the
    classes that carry the prefix of the ADU. *)
Definition emits (w w' : World) (ann : Ann) : Prop :=
  output w' = (output w ++ [ann])%list
  /\ last_byte_put (self w) < last_byte_put (self w')
  /\ spans (data (self w)) (last_byte_put (self w)) (last_byte_put (self w')) ann
  /\ exists name,
       list_index annotations (annotation_prefix (self w) ++ name) 0
       = Some (a_class ann).

(** A computation is [tame] when it leaves the frame attributes alone,
    keeps the mark in the buffer, and either writes nothing and leaves the
    mark, or writes one annotation and raises [No_more_data] on it. *)
Definition tame {A} (m : M A) : Prop :=
  forall w,
    same_frame (self w) (self (snd (m w)))
    /\ (mark_in_buffer (self w) -> mark_in_buffer (self (snd (m w))))
    /\ ((output (snd (m w)) = output w
         /\ last_byte_put (self (snd (m w))) = last_byte_put (self w))
        \/ exists ann,
             emits w (snd (m w)) ann /\ fst (m w) = Raise No_more_data).

(** Annotations that tile the bytes [i + 1] to [j] of a buffer, in order,
    without gap or overlap. *)
Inductive tiles (l : list Data) : Z -> Z -> list Ann -> Prop :=
| tiles_nil (i : Z) : tiles l i i []
| tiles_snoc (i j k : Z) (anns : list Ann) (ann : Ann) :
    tiles l i j anns -> j < k -> spans l j k ann ->
    tiles l i k (anns ++ [ann]).

(** The state of an ADU during one round of [parse], before the round
    writes its annotation: the buffer, the mark and the prefix are fixed. *)
Definition in_round (l : list Data) (hw : Z) (pre : string) (w : World) : Prop :=
  data (self w) = l /\ last_byte_put (self w) = hw
  /\ annotation_prefix (self w) = pre.

(** [m], started in a world that satisfies [P], returns a value and a world
    that satisfy [Q], or raises [No_more_data], or raises an exception in
    [X]. *)
Definition runs {A} (P : World -> Prop) (m : M A) (Q : A -> World -> Prop)
    (X : exn -> Prop) : Prop :=
  forall w, P w ->
    match m w with
    | (Ret a, w') => Q a w'
    | (Raise e, _) => e = No_more_data \/ X e
    end.

(** [m] within a round: when it returns, the round is still on and the
    value satisfies [F]; it raises nothing but [No_more_data] and what [X]
    allows. *)
Definition round_ok (l : list Data) (hw : Z) (pre : string) (X : exn -> Prop)
    {A} (m : M A) (F : A -> Prop) : Prop :=
  runs (in_round l hw pre) m (fun a w => in_round l hw pre w /\ F a) X.

(** A string without braces: [format] copies it as it is. *)
Fixpoint no_brace (s : string) : bool :=
  match s with
  | EmptyString => true
  | String c s' => negb (Ascii.eqb c "{") && negb (Ascii.eqb c "}") && no_brace s'
  end.

(** The names that [put_if_needed] and [put_last_byte] are called with. *)
Definition field_names : list string :=
  ["server-id"; "function"; "crc"; "address"; "data"; "length"; "error"].

(** A Report Server ID response (function 17) of at least six bytes whose
    newest byte is the code of an opening or closing brace. *)
Definition server_id_brace (l : list Data) : Prop :=
  exists d1 last,
    Py.index l 1 = Some d1 /\ d_data d1 = 17
    /\ Py.index l (-1) = Some last /\ (d_data last = 123 \/ d_data last = 125)
    /\ 6 <= len l.

(** [m] within a round returns, with the round still on and a value that
    satisfies [F]. *)
Definition passes (l : list Data) (hw : Z) (pre : string)
    {A} (m : M A) (F : A -> Prop) : Prop :=
  forall w, in_round l hw pre w ->
    exists a w', m w = (Ret a, w') /\ in_round l hw pre w' /\ F a.

(** [m] within a round raises [e]. *)
Definition crashes (l : list Data) (hw : Z) (pre : string)
    {A} (m : M A) (e : exn) : Prop :=
  forall w, in_round l hw pre w -> fst (m w) = Raise e.

(** What a call of [decode_ADU] for one direction leaves alone in the
    decoder: the option, the ADU of the other direction, and the bit length
    once it is known. *)
Definition untouched (direction : Direction) (d d' : Decoder) : Prop :=
  ScChannel d' = ScChannel d
  /\ match direction with
     | Sc => ADUCs d' = ADUCs d
     | Cs => ADUSc d' = ADUSc d
     end
  /\ (forall bl, bitlength d = Some bl -> bitlength d' = Some bl).

(** [RecursionError] is the exception of a recursion that is too deep; a
    method that does not call itself does not raise it. *)
Definition no_recursion_error {A} (m : M A) : Prop :=
  forall w, fst (m w) <> Raise RecursionError.

(** ** Notions for the emission invariant *)

Definition is_close (op : Op) : bool :=
  match op with Op_close _ _ => true | _ => false end.

(** The two annotations that [close] writes by itself for the ADU [a] and
    the deadline [ov]: the error of a frame that is too short, from the
    end of the byte at the mark to the deadline, and the marker of a frame
    with an error, over the whole frame on the row of its own. *)
Definition frame_level (a : ADU) (ov : Z) (ann : Ann) : Prop :=
  (exists d c,
     Py.index (data a) (last_byte_put a) = Some d
     /\ list_index annotations (annotation_prefix a ++ "error") 0 = Some c
     /\ ann = mkAnn (d_end d) ov c "Message too short or not finished")
  \/ (exists first last,
        Py.index (data a) 0 = Some first /\ Py.index (data a) (-1) = Some last
        /\ ann = mkAnn (d_start first) (d_end last) 14 "Frame contains error").

(** ** Notions for the error flag *)

(** The value of byte [i] of a buffer (0 where there is none) and the
    16-bit value of the bytes [i] and [i + 1]. *)
Definition byte (l : list Data) (i : Z) : Z :=
  match Py.index l i with Some d => d_data d | None => 0 end.

Definition word (l : list Data) (i : Z) : Z := byte l i * 256 + byte l (i + 1).

(** The function codes for which the dispatcher of a direction calls a
    field decoder. *)
Definition SC_known (f : Z) : bool :=
  (f =? 1) || (f =? 2) || (f =? 3) || (f =? 4) || (f =? 23) || (f =? 5) || (f =? 6)
  || (f =? 7) || (f =? 8) || (f =? 11) || (f =? 12) || (f =? 15) || (f =? 16)
  || (f =? 17) || (f =? 22) || set_in f [21; 21; 24; 43] || (f >? 0x80).

Definition CS_known (f : Z) : bool :=
  ((f >=? 1) && (f <=? 4)) || (f =? 5) || (f =? 6) || set_in f [7; 11; 12; 17]
  || (f =? 8) || set_in f [15; 16] || (f =? 22) || (f =? 23)
  || set_in f [21; 21; 24; 43].

(** The bytes that a direction annotates as an error whatever follows them:
    the annotation of byte [b] is an ["error"] by the bytes up to [b]
    alone (an unknown function code, an odd byte count, a bad status, a
    quantity or byte count out of range, a bad run indicator). *)
Definition fixed_error (c : Direction) (l : list Data) (b : Z) : bool :=
  let f := byte l 1 in
  match c with
  | Sc =>
      ((b =? 1) && negb (SC_known f))
      || ((b =? 2) && ((f =? 3) || (f =? 4) || (f =? 23)) && negb (byte l 2 mod 2 =? 0))
      || ((b =? 3) && (f =? 11) && negb (word l 2 =? 0) && negb (word l 2 =? 0xFFFF))
      || ((b =? 4) && (f =? 12) && negb (word l 3 =? 0) && negb (word l 3 =? 0xFFFF))
      || ((b =? 5) && (((f =? 15) && negb (word l 4 <=? 0x07B0))
                       || ((f =? 16) && negb (word l 4 <=? 0x007B))))
      || ((b =? 4) && (f =? 17) && negb (byte l 4 =? 0) && negb (byte l 4 =? 0xFF))
  | Cs =>
      ((b =? 1) && negb (CS_known f))
      || ((b =? 5) && (((f =? 15) && negb (word l 4 <=? 0x07B0))
                       || ((f =? 16) && negb (word l 4 <=? 0x007B))))
      || ((b =? 6) && (((f =? 15) && negb (byte l 6 =? CS.ceil_eighth (word l 4)))
                       || ((f =? 16) && negb (byte l 6 =? 2 * word l 4))))
      || ((b =? 10) && (f =? 23) && negb (byte l 10 =? word l 8 * 2))
  end.

(** One round of [parse]: the class of the ADU, its buffer, mark and
    prefix, the output and the error flag at the start of the round. *)
Record Round : Type := mkRound {
  r_cls : Direction;
  r_data : list Data;
  r_mark : Z;
  r_prefix : string;
  r_out : list Ann;
  r_flag : bool
}.

(** The error flag is accounted for: it was up when the round began, or a
    byte at or before the mark is a fixed error. *)
Definition justified (r : Round) : Prop :=
  r_flag r = true
  \/ exists b, b <= r_mark r /\ fixed_error (r_cls r) (r_data r) b = true.

(** Within the round, nothing written yet; the flag may be up without
    being accounted for ([owing]) or not ([clean]). *)
Definition owing (r : Round) (w : World) : Prop :=
  in_round (r_data r) (r_mark r) (r_prefix r) w /\ output w = r_out r.

Definition clean (r : Round) (w : World) : Prop :=
  owing r w /\ (hasError (self w) = true -> justified r).

(** An annotation named [name] up to byte [b] takes in no fixed error,
    unless it is an error itself. *)
Definition covers (r : Round) (b : Z) (name : string) : Prop :=
  forall b0, r_mark r < b0 <= b ->
    fixed_error (r_cls r) (r_data r) b0 = true -> name = "error".

(** The round ended by writing one annotation under [name]. *)
Definition wrote (r : Round) (name : string) (w' : World) : Prop :=
  exists ann,
    output w' = (r_out r ++ [ann])%list
    /\ list_index annotations (r_prefix r ++ name) 0 = Some (a_class ann)
    /\ In name field_names
    /\ r_mark r < last_byte_put (self w')
    /\ covers r (last_byte_put (self w')) name
    /\ (name = "error" -> hasError (self w') = true)
    /\ (hasError (self w') = true -> name = "error" \/ justified r).

(** How a computation may leave a round by an exception: with nothing
    written, the mark in place and the flag accounted for, or with one
    annotation written. *)
Definition stops (r : Round) (e : exn) (w' : World) : Prop :=
  (output w' = r_out r /\ last_byte_put (self w') = r_mark r
   /\ (hasError (self w') = true -> justified r))
  \/ exists name, wrote r name w'.

(** [m] takes a world in [P] to a world in [Q] with a value in [F], or
    leaves by an exception as [S] allows. *)
Definition leads {A} (P Q : World -> Prop) (S : exn -> World -> Prop)
    (m : M A) (F : A -> Prop) : Prop :=
  forall w, P w ->
    match m w with
    | (Ret a, w') => Q w' /\ F a
    | (Raise e, w') => S e w'
    end.

(** The operations that the decoder applies to an ADU. *)
Definition is_public (op : Op) : bool :=
  match op with Op_add_data _ _ _ | Op_close _ _ => true | _ => false end.

(** The class of the error annotations of a direction. *)
Definition error_class (c : Direction) : Z :=
  match c with Sc => 6 | Cs => 13 end.

(** The prefix that the constructor call of a direction passes. *)
Definition prefix_of (c : Direction) : string :=
  match c with Sc => "Sc-" | Cs => "Cs-" end.

(** An annotation of the error class of a direction. *)
Definition is_error (c : Direction) (ann : Ann) : Prop := a_class ann = error_class c.

(** What holds of an ADU between the operations of the decoder, [out0]
    being the output when the ADU was made: the mark is in the buffer, the
    prefix is the one of the class, the error flag is up exactly when an
    error annotation was written for this ADU, and it is up when a byte at
    or before the mark is a fixed error. *)
Definition flag_inv (out0 : list Ann) (w : World) : Prop :=
  mark_in_buffer (self w)
  /\ annotation_prefix (self w) = prefix_of (cls (self w))
  /\ (exists anns,
        output w = (out0 ++ anns)%list
        /\ (hasError (self w) = true <-> Exists (is_error (cls (self w))) anns))
  /\ (forall b, b <= last_byte_put (self w) ->
        fixed_error (cls (self w)) (data (self w)) b = true ->
        hasError (self w) = true).

(** * Properties *)

(** ** Tactics that run the monad *)

(** The monad operations unfolded, and nothing else. *)
Ltac run_monad :=
  cbv beta iota zeta delta
    [bind get_self ret raise data_at orelse lift puta modify_self self output
     try_except_No_more_data].

(** Projections of updated records. *)
Ltac proj_simpl :=
  cbn [set_hasError set_last_byte_put set_minimum_length set_mimumum_length
       set_last_read set_data set_startNewFrame
       cls data start last_read write_channel last_byte_put annotation_prefix
       minimum_length mimumum_length startNewFrame hasError self output].

(** ** The emission primitive, case by case *)

Lemma put_if_needed_eq b ann msg a out :
  put_if_needed b ann msg (mkWorld a out) =
  if b >? len (data a) - 1 then (Raise No_more_data, mkWorld a out)
  else if b >? last_byte_put a then
    match Py.index (data a) (last_byte_put a + 1), Py.index (data a) b,
          list_index annotations (annotation_prefix a ++ ann) 0 with
    | Some first, Some last, Some c =>
        (Raise No_more_data,
         mkWorld (set_last_byte_put b (flag ann a))
                 (out ++ [mkAnn (d_start first) (d_end last) c msg]))
    | None, _, _ => (Raise IndexError, mkWorld (flag ann a) out)
    | Some _, None, _ => (Raise IndexError, mkWorld (flag ann a) out)
    | Some _, Some _, None => (Raise ValueError, mkWorld (flag ann a) out)
    end
  else (Ret tt, mkWorld (flag ann a) out).
Proof.
  unfold put_if_needed, flag. run_monad.
  destruct (b >? len (data a) - 1); [reflexivity |].
  destruct (String.eqb ann "error"); run_monad; proj_simpl;
    (destruct (b >? last_byte_put a); run_monad; proj_simpl; [| reflexivity]);
    (destruct (Py.index (data a) (last_byte_put a + 1)); run_monad; proj_simpl;
       [| reflexivity]);
    (destruct (Py.index (data a) b); run_monad; proj_simpl; [| reflexivity]);
    (destruct (list_index annotations _ 0); reflexivity).
Qed.

(** ** Relations kept by the methods *)

Create HintDb keeps.

Section Kept.

Context {R : World -> World -> Prop} {HR : Frame R}.

Lemma keeps_ret {A} (a : A) : keeps R (ret a).
Proof. intros w. apply frame_refl. Qed.

Lemma keeps_raise {A} e : keeps R (@raise A e).
Proof. intros w. apply frame_refl. Qed.

Lemma keeps_bind {A B} (m : M A) (k : A -> M B) :
  keeps R m -> (forall a, keeps R (k a)) -> keeps R (bind m k).
Proof.
  intros Hm Hk w. unfold bind. specialize (Hm w).
  destruct (m w) as [[a | e] w1]; simpl in *; [| exact Hm].
  eapply frame_trans; [exact Hm | apply Hk].
Qed.

Lemma keeps_get_self : keeps R get_self.
Proof. intros w. apply frame_refl. Qed.

Lemma keeps_orelse {A} (o : option A) e : keeps R (orelse o e).
Proof. destruct o; [apply keeps_ret | apply keeps_raise]. Qed.

Lemma keeps_lift {A} (o : outcome A) : keeps R (lift o).
Proof. destruct o; [apply keeps_ret | apply keeps_raise]. Qed.

Lemma keeps_data_at i : keeps R (data_at i).
Proof.
  apply keeps_bind; [apply keeps_get_self | intros; apply keeps_orelse].
Qed.

Lemma keeps_try (body : M unit) :
  keeps R body -> keeps R (try_except_No_more_data body).
Proof.
  intros H w. unfold try_except_No_more_data. specialize (H w).
  destruct (body w) as [[[] | []] w1]; exact H.
Qed.

Lemma keeps_set_error : keeps R (modify_self (set_hasError true)).
Proof. intros [a out]. apply frame_error. Qed.

Lemma keeps_set_typo v : keeps R (modify_self (set_mimumum_length v)).
Proof. intros [a out]. apply frame_typo. Qed.

Lemma keeps_set_length {HL : FrameLength R} v :
  keeps R (modify_self (set_minimum_length v)).
Proof. intros [a out]. apply frame_length. Qed.

Lemma keeps_puta s e c msg : keeps R (puta s e c msg).
Proof.
  unfold puta. apply keeps_bind; [apply keeps_orelse | intros ch [a out]].
  apply frame_emit.
Qed.

Lemma flag_kept ann a out : R (mkWorld a out) (mkWorld (flag ann a) out).
Proof.
  unfold flag. destruct (String.eqb ann "error");
    [apply frame_error | apply frame_refl].
Qed.

Lemma keeps_put_if_needed b ann msg : keeps R (put_if_needed b ann msg).
Proof.
  intros [a out]. rewrite put_if_needed_eq.
  destruct (b >? len (data a) - 1); [apply frame_refl |].
  destruct (b >? last_byte_put a) eqn:E; [| apply flag_kept].
  destruct (Py.index (data a) (last_byte_put a + 1)); [| apply flag_kept].
  destruct (Py.index (data a) b); [| apply flag_kept].
  destruct (list_index annotations _ 0); [| apply flag_kept].
  simpl snd.
  eapply frame_trans; [apply (flag_kept ann) |].
  eapply frame_trans; [apply frame_emit |].
  apply frame_mark.
  unfold flag. destruct (String.eqb ann "error"); proj_simpl; lia.
Qed.

End Kept.

#[export] Hint Resolve keeps_ret keeps_raise keeps_get_self keeps_orelse
  keeps_lift keeps_data_at keeps_set_error keeps_set_typo keeps_set_length
  keeps_puta keeps_put_if_needed : keeps.

(** One step through the structure of a method. *)
Ltac keeps_step :=
  lazymatch goal with
  | |- keeps _ (bind _ _) => apply keeps_bind; [| intros]
  | |- keeps _ (try_except_No_more_data _) => apply keeps_try
  | |- keeps _ (if ?c then _ else _) => destruct c
  | |- keeps _ (match ?x with Some _ => _ | None => _ end) => destruct x
  | |- keeps _ (match ?x with (_, _) => _ end) => destruct x
  | |- keeps _ (match ?x with Sc => _ | Cs => _ end) => destruct x
  | |- keeps _ _ => solve [auto with keeps]
  end.

Ltac keeps_all := cbv zeta; repeat keeps_step.

Section KeptMethods.

Context {R : World -> World -> Prop} {HR : Frame R}.

Lemma keeps_half_word i : keeps R (half_word i).
Proof. unfold half_word. keeps_all. Qed.

Lemma keeps_calc_crc b : keeps R (calc_crc b).
Proof. unfold calc_crc. keeps_all. Qed.

Hint Resolve keeps_half_word keeps_calc_crc : keeps.

Lemma keeps_check_CRC b : keeps R (check_CRC b).
Proof. unfold check_CRC. keeps_all. Qed.

Lemma keeps_put_last_byte ann msg mx : keeps R (put_last_byte ann msg mx).
Proof. unfold put_last_byte. keeps_all. Qed.

Lemma keeps_close_tail sc : keeps R (close_tail sc).
Proof. unfold close_tail. keeps_all. Qed.

Hint Resolve keeps_check_CRC keeps_put_last_byte keeps_close_tail : keeps.

Lemma keeps_close sc ov : keeps R (close sc ov).
Proof. unfold close. keeps_all. Qed.

Lemma keeps_parse_not_implemented : keeps R parse_not_implemented.
Proof. unfold parse_not_implemented. keeps_all. Qed.

Lemma keeps_SC_parse_write_multiple : keeps R SC.parse_write_multiple.
Proof. unfold SC.parse_write_multiple. keeps_all. Qed.

Lemma keeps_SC_parse_read_exception_status : keeps R SC.parse_read_exception_status.
Proof. unfold SC.parse_read_exception_status. keeps_all. Qed.

Lemma keeps_SC_parse_get_comm_event_counter : keeps R SC.parse_get_comm_event_counter.
Proof. unfold SC.parse_get_comm_event_counter. keeps_all. Qed.

Lemma keeps_SC_parse_get_comm_event_log : keeps R SC.parse_get_comm_event_log.
Proof. unfold SC.parse_get_comm_event_log. keeps_all. Qed.

Lemma keeps_SC_parse_report_server_id : keeps R SC.parse_report_server_id.
Proof. unfold SC.parse_report_server_id. keeps_all. Qed.

Lemma keeps_SC_parse_error : keeps R SC.parse_error.
Proof. unfold SC.parse_error. keeps_all. Qed.

Lemma keeps_CS_parse_single_byte_request : keeps R CS.parse_single_byte_request.
Proof. unfold CS.parse_single_byte_request. keeps_all. Qed.

(** The client-to-server decoder of functions 15 and 16 only ever assigns
    the misspelled attribute. *)
Lemma keeps_CS_parse_write_multiple : keeps R CS.parse_write_multiple.
Proof. unfold CS.parse_write_multiple. keeps_all. Qed.

Context {HL : FrameLength R}.

Lemma keeps_parse_write_single_coil : keeps R parse_write_single_coil.
Proof. unfold parse_write_single_coil. keeps_all. Qed.

Lemma keeps_parse_write_single_register : keeps R parse_write_single_register.
Proof. unfold parse_write_single_register. keeps_all. Qed.

Lemma keeps_parse_diagnostics : keeps R parse_diagnostics.
Proof. unfold parse_diagnostics. keeps_all. Qed.

Lemma keeps_parse_mask_write_register : keeps R parse_mask_write_register.
Proof. unfold parse_mask_write_register. keeps_all. Qed.

Lemma keeps_SC_parse_read_bits : keeps R SC.parse_read_bits.
Proof. unfold SC.parse_read_bits. keeps_all. Qed.

Lemma keeps_SC_parse_read_registers : keeps R SC.parse_read_registers.
Proof. unfold SC.parse_read_registers. keeps_all. Qed.

Lemma keeps_CS_parse_read_data_command : keeps R CS.parse_read_data_command.
Proof. unfold CS.parse_read_data_command. keeps_all. Qed.

Lemma keeps_CS_parse_read_file_record : keeps R CS.parse_read_file_record.
Proof. unfold CS.parse_read_file_record. keeps_all. Qed.

Lemma keeps_CS_parse_read_write_registers : keeps R CS.parse_read_write_registers.
Proof. unfold CS.parse_read_write_registers. keeps_all. Qed.

Hint Resolve keeps_parse_not_implemented keeps_SC_parse_write_multiple
  keeps_SC_parse_read_exception_status keeps_SC_parse_get_comm_event_counter
  keeps_SC_parse_get_comm_event_log keeps_SC_parse_report_server_id
  keeps_SC_parse_error keeps_CS_parse_single_byte_request
  keeps_CS_parse_write_multiple keeps_parse_write_single_coil
  keeps_parse_write_single_register keeps_parse_diagnostics
  keeps_parse_mask_write_register keeps_SC_parse_read_bits
  keeps_SC_parse_read_registers keeps_CS_parse_read_data_command
  keeps_CS_parse_read_write_registers : keeps.

Lemma keeps_SC_dispatch f : keeps R (SC.dispatch f).
Proof. unfold SC.dispatch. keeps_all. Qed.

Lemma keeps_CS_dispatch f : keeps R (CS.dispatch f).
Proof. unfold CS.dispatch. keeps_all. Qed.

Hint Resolve keeps_SC_dispatch keeps_CS_dispatch : keeps.

Lemma keeps_SC_parse : keeps R SC.parse.
Proof. unfold SC.parse. keeps_all. Qed.

Lemma keeps_CS_parse : keeps R CS.parse.
Proof. unfold CS.parse. keeps_all. Qed.

Hint Resolve keeps_SC_parse keeps_CS_parse : keeps.

Lemma keeps_parse : keeps R parse.
Proof. unfold parse. keeps_all. Qed.

End KeptMethods.
(** ** The checksum: every round is a bijection on 16-bit words *)

Lemma lxor_word16 a b : word16 a -> word16 b -> word16 (Z.lxor a b).
Proof.
  unfold word16. intros Ha Hb. split.
  - apply Z.lxor_nonneg. lia.
  - destruct (Z.eq_dec (Z.lxor a b) 0) as [-> | Hn]; [lia |].
    assert (0 < Z.lxor a b) by (assert (0 <= Z.lxor a b) by (apply Z.lxor_nonneg; lia); lia).
    change 65536 with (2 ^ 16). apply Z.log2_lt_pow2; [lia |].
    eapply Z.le_lt_trans; [apply Z.log2_lxor; lia |].
    apply Z.max_lub_lt.
    + destruct (Z.eq_dec a 0) as [-> | ]; [reflexivity |]. apply Z.log2_lt_pow2; lia.
    + destruct (Z.eq_dec b 0) as [-> | ]; [reflexivity |]. apply Z.log2_lt_pow2; lia.
Qed.

Lemma lxor_cancel_l a b c : Z.lxor a b = Z.lxor a c -> b = c.
Proof.
  intros E. apply (f_equal (Z.lxor a)) in E.
  now rewrite <- !Z.lxor_assoc, Z.lxor_nilpotent, !Z.lxor_0_l in E.
Qed.

Lemma lxor_cancel_r a b c : Z.lxor b a = Z.lxor c a -> b = c.
Proof. rewrite !(Z.lxor_comm _ a). apply lxor_cancel_l. Qed.

Lemma crc_shift_eq r :
  crc_shift r = if r mod 2 =? 0 then r / 2 else Z.lxor (r / 2) magic_number.
Proof.
  unfold crc_shift. change 1 with (Z.ones 1) at 1. rewrite Z.land_ones by lia.
  rewrite Z.shiftr_div_pow2 by lia. reflexivity.
Qed.

Lemma crc_shift_word16 r : word16 r -> word16 (crc_shift r).
Proof.
  intros H. rewrite crc_shift_eq.
  assert (word16 (r / 2)) by (unfold word16 in *; split; [apply Z.div_pos | apply Z.div_lt_upper_bound]; lia).
  destruct (_ =? _); [assumption |].
  apply lxor_word16; [assumption | unfold word16, magic_number; lia].
Qed.

(** The bit shifted out is kept in the top bit of the result. *)
Lemma crc_shift_top r :
  word16 r -> Z.testbit (crc_shift r) 15 = negb (r mod 2 =? 0).
Proof.
  intros H. rewrite crc_shift_eq.
  assert (T : Z.testbit (r / 2) 15 = false).
  { apply Z.testbit_false; [lia |]. unfold word16 in H.
    rewrite Z.div_div by lia. rewrite Z.div_small by lia. reflexivity. }
  destruct (_ =? _); [exact T |].
  rewrite Z.lxor_spec, T. reflexivity.
Qed.

Lemma crc_shift_inj r1 r2 :
  word16 r1 -> word16 r2 -> crc_shift r1 = crc_shift r2 -> r1 = r2.
Proof.
  intros H1 H2 E.
  pose proof (crc_shift_top r1 H1) as T1. pose proof (crc_shift_top r2 H2) as T2.
  rewrite E, T2 in T1. rewrite !crc_shift_eq in E.
  pose proof (Z.div_mod r1 2). pose proof (Z.div_mod r2 2).
  destruct (r1 mod 2 =? 0) eqn:E1, (r2 mod 2 =? 0) eqn:E2; try discriminate.
  - apply Z.eqb_eq in E1, E2. lia.
  - apply lxor_cancel_r in E. apply Z.eqb_neq in E1, E2.
    pose proof (Z.mod_pos_bound r1 2). pose proof (Z.mod_pos_bound r2 2). lia.
Qed.

Lemma iter_shift_word16 n r : word16 r -> word16 (Nat.iter n crc_shift r).
Proof. induction n; simpl; auto using crc_shift_word16. Qed.

Lemma iter_shift_inj n r1 r2 :
  word16 r1 -> word16 r2 ->
  Nat.iter n crc_shift r1 = Nat.iter n crc_shift r2 -> r1 = r2.
Proof.
  intros H1 H2. induction n; simpl; [auto |]. intros E.
  apply IHn. apply crc_shift_inj; auto using iter_shift_word16.
Qed.

Lemma byte_word16 b : 0 <= b < 256 -> word16 b.
Proof. unfold word16. lia. Qed.

Lemma crc_byte_word16 r b : word16 r -> 0 <= b < 256 -> word16 (crc_byte r b).
Proof.
  intros. apply iter_shift_word16, lxor_word16; auto using byte_word16.
Qed.

Lemma crc_byte_inj r1 r2 b :
  word16 r1 -> word16 r2 -> 0 <= b < 256 ->
  crc_byte r1 b = crc_byte r2 b -> r1 = r2.
Proof.
  intros H1 H2 Hb E. apply iter_shift_inj in E; auto using lxor_word16, byte_word16.
  eapply lxor_cancel_r; eauto.
Qed.

Lemma crc_byte_inj_byte r b1 b2 :
  word16 r -> 0 <= b1 < 256 -> 0 <= b2 < 256 ->
  crc_byte r b1 = crc_byte r b2 -> b1 = b2.
Proof.
  intros Hr H1 H2 E. apply iter_shift_inj in E; auto using lxor_word16, byte_word16.
  eapply lxor_cancel_l; eauto.
Qed.


Lemma fold_crc_word16 l r : bytes_ok l -> word16 r -> word16 (fold_left crc_byte l r).
Proof.
  intros Hl. revert r. induction Hl; simpl; auto using crc_byte_word16.
Qed.

Lemma fold_crc_inj l r1 r2 :
  bytes_ok l -> word16 r1 -> word16 r2 ->
  fold_left crc_byte l r1 = fold_left crc_byte l r2 -> r1 = r2.
Proof.
  intros Hl. revert r1 r2. induction Hl; simpl; [auto |]. intros r1 r2 H1 H2 E.
  apply IHHl in E; auto using crc_byte_word16. eapply crc_byte_inj; eauto.
Qed.

Lemma crc_of_word16 l : bytes_ok l -> word16 (crc_of l).
Proof. intros. apply fold_crc_word16; [assumption | unfold word16; lia]. Qed.

Lemma crc_pair_eq r : word16 r -> crc_pair r = (r mod 256, r / 256).
Proof.
  intros H. unfold crc_pair. f_equal.
  - change 255 with (Z.ones 8). apply Z.land_ones. lia.
  - rewrite Z.shiftr_land. change (Z.shiftr 65280 8) with (Z.ones 8).
    rewrite Z.land_ones, Z.shiftr_div_pow2 by lia. change (2 ^ 8) with 256.
    unfold word16 in H. apply Z.mod_small. split; [apply Z.div_pos | apply Z.div_lt_upper_bound]; lia.
Qed.

Lemma crc_pair_inj r1 r2 : word16 r1 -> word16 r2 -> crc_pair r1 = crc_pair r2 -> r1 = r2.
Proof.
  intros H1 H2. rewrite !crc_pair_eq by assumption. intros E. injection E as E1 E2.
  pose proof (Z.div_mod r1 256). pose proof (Z.div_mod r2 256). lia.
Qed.

Lemma flip_differs b k : 0 <= k -> Z.lxor b (2 ^ k) <> b.
Proof.
  intros Hk E. rewrite <- (Z.lxor_0_r b) in E at 2. apply lxor_cancel_l in E.
  pose proof (Z.pow_pos_nonneg 2 k). lia.
Qed.

Lemma flip_byte b k : 0 <= b < 256 -> 0 <= k < 8 -> 0 <= Z.lxor b (2 ^ k) < 256.
Proof.
  intros Hb Hk.
  assert (0 <= Z.lxor b (2 ^ k)) by (apply Z.lxor_nonneg; pose proof (Z.pow_pos_nonneg 2 k); lia).
  split; [assumption |].
  destruct (Z.eq_dec (Z.lxor b (2 ^ k)) 0) as [-> | Hn]; [lia |].
  change 256 with (2 ^ 8). apply Z.log2_lt_pow2; [lia |].
  eapply Z.le_lt_trans; [apply Z.log2_lxor; pose proof (Z.pow_pos_nonneg 2 k); lia |].
  apply Z.max_lub_lt.
  - destruct (Z.eq_dec b 0) as [-> | ]; [reflexivity |]. apply Z.log2_lt_pow2; lia.
  - rewrite Z.log2_pow2; lia.
Qed.

(** ** Flipping one bit of a buffer *)

Lemma flip_at_length pos k l : List.length (flip_at pos k l) = List.length l.
Proof.
  revert pos. induction l as [| d l IH]; intros [| pos]; simpl; auto.
Qed.

Lemma flip_at_app_l pos k l1 l2 :
  (pos < List.length l1)%nat ->
  flip_at pos k (l1 ++ l2)%list = (flip_at pos k l1 ++ l2)%list.
Proof.
  revert pos. induction l1 as [| d l1 IH]; intros [| pos] H; simpl in *;
    try lia; [reflexivity |]. f_equal. apply IH. lia.
Qed.

Lemma flip_at_app_r pos k l1 l2 :
  flip_at (List.length l1 + pos) k (l1 ++ l2)%list = (l1 ++ flip_at pos k l2)%list.
Proof.
  induction l1 as [| d l1 IH]; simpl; [reflexivity |]. now rewrite IH.
Qed.

Lemma flip_at_bytes pos k l :
  0 <= k < 8 -> Forall is_byte l -> Forall is_byte (flip_at pos k l).
Proof.
  intros Hk Hl. revert pos. induction Hl as [| d l Hd Hl IH]; intros [| pos]; simpl;
    constructor; auto.
  unfold is_byte, flip. simpl. apply flip_byte; assumption.
Qed.

Lemma bytes_ok_map l : Forall is_byte l -> bytes_ok (map d_data l).
Proof. intros H. unfold bytes_ok. rewrite Forall_map. exact H. Qed.

(** A flipped payload bit changes the accumulator for good. *)
Lemma fold_crc_flip pos k l r :
  Forall is_byte l -> (pos < List.length l)%nat -> 0 <= k < 8 -> word16 r ->
  fold_left crc_byte (map d_data (flip_at pos k l)) r
  <> fold_left crc_byte (map d_data l) r.
Proof.
  intros Hl. revert pos r. induction Hl as [| d l Hd Hl IH]; intros pos r Hp Hk Hr;
    simpl in Hp; [lia |].
  destruct pos as [| pos]; simpl.
  - intros E. apply fold_crc_inj in E;
      auto using bytes_ok_map, crc_byte_word16, flip_byte.
    apply crc_byte_inj_byte in E; auto using flip_byte.
    revert E. apply flip_differs. lia.
  - apply IH; auto using crc_byte_word16. lia.
Qed.

(** ** Python indexing on a buffer split at its end *)

Lemma len_app {A} (l1 l2 : list A) : len (l1 ++ l2)%list = len l1 + len l2.
Proof. unfold len. rewrite length_app. lia. Qed.

Lemma len_nonneg {A} (l : list A) : 0 <= len l.
Proof. unfold len. lia. Qed.

Lemma index_nonneg {A} (l : list A) i :
  0 <= i -> Py.index l i = nth_error l (Z.to_nat i).
Proof. intros H. unfold Py.index. destruct (i <? 0) eqn:E; [lia | reflexivity]. Qed.

Lemma index_second_last {A} (p : list A) x y : Py.index (p ++ [x; y])%list (-2) = Some x.
Proof.
  unfold Py.index. change (-2 <? 0) with true. cbv iota. rewrite len_app. pose proof (len_nonneg p).
  change (len [x; y]) with 2. destruct (_ <? 0) eqn:E; [lia |].
  replace (Z.to_nat (-2 + (len p + 2))) with (List.length p + 0)%nat by (unfold len; lia).
  now rewrite nth_error_app2, Nat.add_comm, Nat.add_sub by lia.
Qed.

Lemma index_last {A} (p : list A) x y : Py.index (p ++ [x; y])%list (-1) = Some y.
Proof.
  unfold Py.index. change (-1 <? 0) with true. cbv iota. rewrite len_app. pose proof (len_nonneg p).
  change (len [x; y]) with 2. destruct (_ <? 0) eqn:E; [lia |].
  replace (Z.to_nat (-1 + (len p + 2))) with (List.length p + 1)%nat by (unfold len; lia).
  now rewrite nth_error_app2, Nat.add_comm, Nat.add_sub by lia.
Qed.

Lemma slice_to_app {A} (p q : list A) : Py.slice_to (p ++ q)%list (len p) = p.
Proof.
  unfold Py.slice_to. pose proof (len_nonneg p). destruct (_ <? 0) eqn:E; [lia |].
  unfold len. rewrite Nat2Z.id, firstn_app, Nat.sub_diag, firstn_all. simpl.
  apply app_nil_r.
Qed.

(** ** What [check_CRC] compares *)

(** The verdict of [check_CRC] is taken on the last two bytes of the buffer,
    whichever [byte_to_put] it was called with. *)
Lemma check_CRC_last_two b a out p x y :
  data a = (p ++ [x; y])%list -> 3 <= b ->
  check_CRC b (mkWorld a out) =
  let '(c1, c2) := crc_pair (crc_of (map d_data (Py.slice_to (data a) (b - 1)))) in
  if (d_data x =? c1) && (d_data y =? c2)
  then put_if_needed b "crc" "CRC correct" (mkWorld a out)
  else put_if_needed b "error" ("CRC should be " ++ fmt_d c1 ++ " " ++ fmt_d c2)
         (mkWorld a out).
Proof.
  intros Hd Hb. unfold check_CRC, calc_crc.
  destruct (b <? 3) eqn:E; [lia |]. run_monad.
  destruct (crc_pair _) as [c1 c2]. proj_simpl.
  rewrite Hd, index_second_last. run_monad.
  destruct (d_data x =? c1); run_monad; proj_simpl; [| reflexivity].
  rewrite Hd, index_last. run_monad. destruct (d_data y =? c2); reflexivity.
Qed.

(** ** Running the decoder on buffers whose shape is known *)

(** Closed tests and look-ups are replaced by their values. *)
Ltac eval_bool t :=
  let v := eval vm_compute in t in
  lazymatch v with
  | true => change t with true
  | false => change t with false
  end.

Ltac eval_option t :=
  let v := eval vm_compute in t in
  lazymatch v with
  | Some ?x => change t with (Some x)
  | None => change t with (@None _)
  end.

Ltac eval_closed :=
  repeat match goal with
    | |- context [Z.gtb ?a ?b] => eval_bool (Z.gtb a b)
    | |- context [Z.ltb ?a ?b] => eval_bool (Z.ltb a b)
    | |- context [Z.eqb ?a ?b] => eval_bool (Z.eqb a b)
    | |- context [String.eqb ?a ?b] => eval_bool (String.eqb a b)
    | |- context [Py.index ?l ?i] => eval_option (Py.index l i)
    | |- context [list_index ?l ?x ?p] => eval_option (list_index l x p)
    end.

Ltac exec_step :=
  cbv beta iota zeta delta
    [bind get_self ret raise data_at orelse lift puta modify_self self output
     try_except_No_more_data feed add_data parse SC.parse CS.parse flag
     new_ADU ADU_init
     set_hasError set_last_byte_put set_minimum_length set_mimumum_length
     set_last_read set_data set_startNewFrame
     cls data start last_read write_channel last_byte_put annotation_prefix
     minimum_length mimumum_length startNewFrame hasError
     ptype rxtx pdata0];
  eval_closed;
  try rewrite put_if_needed_eq.

Ltac exec := repeat progress exec_step.

(** ** The checksum round trip *)

Lemma calc_crc_payload a out p q :
  data a = (p ++ q)%list -> 3 <= len p + 1 ->
  calc_crc (len p + 1) (mkWorld a out)
  = (Ret (crc_pair (crc_of (map d_data p))), mkWorld a out).
Proof.
  intros Hd Hb. unfold calc_crc. destruct (_ <? 3) eqn:E; [lia |]. run_monad.
  replace (len p + 1 - 1) with (len p) by lia. now rewrite Hd, slice_to_app.
Qed.

Lemma Ret_inj {A} (a b : A) : Ret a = Ret b -> a = b.
Proof. intros H. now injection H. Qed.

(** The branch that [check_CRC] takes: for a payload of at least four
    bytes and the two bytes [x], [y] that [calc_crc] computes for it,
    appended low byte first, it is the "CRC correct" call of
    [put_if_needed]; with any single bit of the payload or of the two
    appended bytes inverted, it is the call that reports the bytes it
    expected. *)
Lemma check_CRC_branch (a : ADU) (out : list Ann) (p : list Data) (x y : Data) :
  Forall is_byte p ->
  4 <= len p ->
  calc_crc (len p + 1) (mkWorld (set_data p a) out)
    = (Ret (d_data x, d_data y), mkWorld (set_data p a) out) ->
  let b := len p + 1 in
  let good := mkWorld (set_data (p ++ [x; y]) a) out in
  check_CRC b good = put_if_needed b "crc" "CRC correct" good
  /\ forall (pos : nat) (k : Z),
       (pos < List.length p + 2)%nat -> 0 <= k < 8 ->
       let bad := mkWorld (set_data (flip_at pos k (p ++ [x; y])) a) out in
       exists c1 c2,
         (c1, c2) = crc_pair (crc_of (map d_data
                      (firstn (List.length p) (flip_at pos k (p ++ [x; y])))))
         /\ check_CRC b bad
            = put_if_needed b "error" ("CRC should be " ++ fmt_d c1 ++ " " ++ fmt_d c2) bad.
Proof.
  intros Hp Hlen Hcalc b good.
  assert (Hfn : forall q r : list Data, List.length q = List.length p ->
             firstn (List.length p) (q ++ r) = q).
  { intros q r Hq. rewrite <- Hq, firstn_app, Nat.sub_diag, firstn_all. simpl.
    apply app_nil_r. }
  rewrite (calc_crc_payload _ _ p []) in Hcalc
    by (proj_simpl; first [now rewrite app_nil_r | lia]).
  apply (f_equal fst) in Hcalc. apply Ret_inj in Hcalc. rename Hcalc into Hxy.
  assert (Hsl : forall q : list Data, List.length q = List.length p -> forall u v,
             Py.slice_to (q ++ [u; v])%list (b - 1) = q).
  { intros q Hq u v. unfold b. replace (len p + 1 - 1) with (len q) by (unfold len; lia).
    apply slice_to_app. }
  split.
  - unfold good. rewrite (check_CRC_last_two b _ out p x y) by (proj_simpl; first [reflexivity | lia]).
    proj_simpl. rewrite Hsl by reflexivity. rewrite Hxy, !Z.eqb_refl. reflexivity.
  - intros pos k Hpos Hk bad.
    assert (Hw : word16 (crc_of (map d_data p))) by auto using crc_of_word16, bytes_ok_map.
    destruct (Nat.lt_ge_cases pos (List.length p)) as [Hin | Hout].
    + (* a payload bit *)
      unfold bad. rewrite flip_at_app_l by assumption.
      rewrite (check_CRC_last_two b _ out (flip_at pos k p) x y)
        by (proj_simpl; first [reflexivity | lia]).
      proj_simpl. rewrite Hsl by apply flip_at_length.
      rewrite Hfn by apply flip_at_length.
      destruct (crc_pair (crc_of (map d_data (flip_at pos k p)))) as [c1 c2] eqn:Ec.
      exists c1, c2. split; [reflexivity |].
      destruct ((d_data x =? c1) && (d_data y =? c2)) eqn:E; [| reflexivity].
      exfalso. apply andb_true_iff in E. destruct E as [E1 E2].
      apply Z.eqb_eq in E1, E2. subst c1 c2. rewrite <- Hxy in Ec.
      apply crc_pair_inj in Ec;
        auto using crc_of_word16, bytes_ok_map, flip_at_bytes.
      revert Ec. apply fold_crc_flip; auto. unfold word16. lia.
    + (* a bit of the appended checksum *)
      assert (Hn : exists n, pos = (List.length p + n)%nat)
        by (exists (pos - List.length p)%nat; lia).
      destruct Hn as [n ->]. unfold bad. rewrite flip_at_app_r.
      rewrite Hfn by reflexivity.
      exists (d_data x), (d_data y). split; [symmetry; exact Hxy |].
      destruct n as [| [| n]]; [| | lia]; simpl flip_at.
      * rewrite (check_CRC_last_two b _ out p (flip k x) y)
          by (proj_simpl; first [reflexivity | lia]).
        proj_simpl. rewrite Hsl by reflexivity. rewrite Hxy.
        replace (d_data (flip k x) =? d_data x) with false; [reflexivity |].
        symmetry. apply Z.eqb_neq. apply flip_differs. lia.
      * rewrite (check_CRC_last_two b _ out p x (flip k y))
          by (proj_simpl; first [reflexivity | lia]).
        proj_simpl. rewrite Hsl by reflexivity. rewrite Hxy.
        replace (d_data (flip k y) =? d_data y) with false;
          [now rewrite andb_false_r |].
        symmetry. apply Z.eqb_neq. apply flip_differs. lia.
Qed.

(** ** The invariants of the ADU *)

#[export] Instance stable_Frame : Frame stable.
Proof.
  split.
  - intros w. split; auto; try lia; exists []; now rewrite app_nil_r.
  - intros w1 w2 w3 [M1 E1 [d1 D1] [o1 O1] C1 P1] [M2 E2 [d2 D2] [o2 O2] C2 P2].
    split; auto; try lia; try congruence.
    + exists (d1 ++ d2)%list. now rewrite D2, D1, app_assoc.
    + exists (o1 ++ o2)%list. now rewrite O2, O1, app_assoc.
  - intros a out. split; proj_simpl; auto; try lia; exists []; now rewrite app_nil_r.
  - intros a out ann. split; proj_simpl; auto; try lia;
      [exists []; now rewrite app_nil_r | now exists [ann]].
  - intros a out b H. split; proj_simpl; auto; try lia; exists []; now rewrite app_nil_r.
  - intros a out v. split; proj_simpl; auto; try lia; exists []; now rewrite app_nil_r.
Qed.

#[export] Instance stable_FrameLength : FrameLength stable.
Proof.
  split. intros a out v.
  split; proj_simpl; auto; try lia; exists []; now rewrite app_nil_r.
Qed.

#[export] Instance same_minimum_Frame : Frame same_minimum.
Proof.
  unfold same_minimum. split; intros; proj_simpl; congruence.
Qed.

Lemma stable_add_data s e pkt : keeps stable (add_data s e pkt).
Proof.
  unfold add_data. apply keeps_bind; [| intros _].
  { intros [a out]. unfold modify_self. simpl snd.
    split; proj_simpl; auto; try lia; exists []; now rewrite app_nil_r. }
  destruct (String.eqb _ _); [| apply keeps_ret].
  apply keeps_bind; [| intros _; apply keeps_parse].
  intros [a out]. unfold modify_self. simpl snd.
  split; proj_simpl; auto; try lia;
    [eexists; reflexivity | exists []; now rewrite app_nil_r].
Qed.

Lemma stable_run_op op : keeps stable (run_op op).
Proof.
  destruct op; simpl;
    [ apply stable_add_data | apply keeps_put_if_needed | apply keeps_put_last_byte
    | apply keeps_close | apply keeps_check_CRC | apply keeps_parse ].
Qed.

Lemma stable_run_ops ops w : stable w (run_ops ops w).
Proof.
  revert w. induction ops as [| op ops IH]; intros w; simpl.
  - apply frame_refl.
  - eapply frame_trans; [apply stable_run_op | apply IH].
Qed.

(** An annotation leaves [put_if_needed] only on the emission path. *)
Lemma put_if_needed_emitted b ann msg a out :
  let w' := snd (put_if_needed b ann msg (mkWorld a out)) in
  output w' <> out ->
  last_byte_put a < b /\ last_byte_put (self w') = b.
Proof.
  rewrite put_if_needed_eq.
  destruct (b >? len (data a) - 1); [simpl; congruence |].
  destruct (b >? last_byte_put a) eqn:E; [| simpl; congruence].
  destruct (Py.index (data a) (last_byte_put a + 1)); [| simpl; congruence].
  destruct (Py.index (data a) b); [| simpl; congruence].
  destruct (list_index annotations _ 0); [| simpl; congruence].
  simpl. intros _. split; [lia | reflexivity].
Qed.

Lemma flag_mark ann a : last_byte_put (flag ann a) = last_byte_put a.
Proof. unfold flag. now destruct (String.eqb ann "error"). Qed.

Lemma flag_error ann a :
  hasError (flag ann a) = hasError a || String.eqb ann "error".
Proof.
  unfold flag. destruct (String.eqb ann "error"); proj_simpl;
    [now rewrite orb_true_r | now rewrite orb_false_r].
Qed.

(** ** The expected length of a frame *)

Lemma minimum_length_starts_at_4 c t0 : minimum_length (new_ADU c t0) = 4.
Proof. now destruct c. Qed.

(** The inbound decoder of functions 1 and 2 does refine the length: with
    byte count 3 it expects eight bytes. *)
Lemma read_bits_response_length :
  let w := snd (feed [mkData 1 9 1; mkData 11 19 1; mkData 21 29 3]
                     (mkWorld (new_ADU Sc 0) [])) in
  minimum_length (self w) = 5 + 3 /\ mimumum_length (self w) = Some 5.
Proof. vm_compute. split; reflexivity. Qed.

(** What [close_tail] writes is never the "too short" error. *)
Lemma close_tail_output sc w :
  exists rest,
    output (snd (close_tail sc w)) = (output w ++ rest)%list
    /\ Forall (fun x => a_text x <> "Message too short or not finished") rest.
Proof.
  destruct w as [a1 out1]. unfold close_tail. run_monad. proj_simpl.
  assert (T : forall a2 out2, exists rest,
    output (snd ((if len (data a2) >? 256
      then try_except_No_more_data
             (put_if_needed (len (data a2) - 1) (annotation_prefix a2 ++ "error")
                "Modbus data frames are limited to 256 bytes")
      else ret tt) (mkWorld a2 out2))) = (out2 ++ rest)%list
    /\ Forall (fun x => a_text x <> "Message too short or not finished") rest).
  { intros a2 out2. destruct (len (data a2) >? 256);
      [| exists []; simpl; now rewrite app_nil_r].
    unfold try_except_No_more_data. rewrite put_if_needed_eq.
    repeat match goal with
           | |- context [if ?x then _ else _] => destruct x
           | |- context [match ?o with Some _ => _ | None => _ end] => destruct o
           end; simpl;
      try (exists []; simpl; now rewrite app_nil_r).
    eexists [_]. split; [reflexivity |]. repeat constructor. simpl. discriminate. }
  destruct (hasError a1 && String.eqb sc "RX"); [| apply T].
  destruct (Py.index (data a1) 0); [| exists []; simpl; now rewrite app_nil_r].
  run_monad. destruct (Py.index (data a1) (-1));
    [| exists []; simpl; now rewrite app_nil_r].
  run_monad. change (list_index annotations "error-indication" 0) with (Some 14).
  run_monad. proj_simpl.
  destruct (T a1 (out1 ++ [mkAnn (d_start d) (d_end d0) 14 "Frame contains error"])%list)
    as (rest & E & F).
  eexists (_ :: rest). split.
  - rewrite <- app_assoc in E. exact E.
  - constructor; [simpl; discriminate | exact F].
Qed.

(** [close] writes its "too short" error exactly for a buffer that is not
    empty and shorter than [minimum_length], from the end of the byte at
    the high-water mark to the overflow deadline. *)
Lemma close_too_short sc ov a out :
  -1 <= last_byte_put a < len (data a) ->
  In (annotation_prefix a) ["Sc-"; "Cs-"] ->
  exists rest,
    Forall (fun x => a_text x <> "Message too short or not finished") rest
    /\ if (len (data a) <? minimum_length a) && negb (len (data a) =? 0)
       then exists d c,
              Py.index (data a) (last_byte_put a) = Some d
              /\ list_index annotations (annotation_prefix a ++ "error") 0 = Some c
              /\ output (snd (close sc ov (mkWorld a out)))
                 = (out ++ mkAnn (d_end d) ov c "Message too short or not finished"
                        :: rest)%list
              /\ hasError (self (snd (close sc ov (mkWorld a out)))) = true
       else output (snd (close sc ov (mkWorld a out))) = (out ++ rest)%list.
Proof.
  intros Hm Hp.
  assert (Hc : exists c, list_index annotations (annotation_prefix a ++ "error") 0 = Some c).
  { destruct Hp as [<- | [<- | []]]; eexists; reflexivity. }
  destruct Hc as [c Hc].
  unfold close. run_monad. proj_simpl.
  destruct (len (data a) <? minimum_length a); simpl andb.
  - destruct (len (data a) =? 0) eqn:E0; simpl negb.
    + exists []. rewrite app_nil_r. auto.
    + assert (Hd : exists d, Py.index (data a) (last_byte_put a) = Some d).
      { unfold Py.index. pose proof (len_nonneg (data a)).
        destruct (last_byte_put a <? 0) eqn:E.
        - assert (last_byte_put a = -1) as -> by lia.
          destruct (-1 + len (data a) <? 0) eqn:E'; [lia |].
          destruct (nth_error (data a) (Z.to_nat (-1 + len (data a)))) eqn:N; eauto.
          apply nth_error_None in N. unfold len in *. lia.
        - destruct (nth_error (data a) (Z.to_nat (last_byte_put a))) eqn:N; eauto.
          apply nth_error_None in N. unfold len in *. lia. }
      destruct Hd as [d Hd].
      rewrite Hd. run_monad. rewrite Hc. run_monad. proj_simpl.
      destruct (close_tail_output sc (mkWorld (set_hasError true a)
                  (out ++ [mkAnn (d_end d) ov c "Message too short or not finished"])%list))
        as (rest & E & F).
      exists rest. split; [exact F |]. exists d, c. repeat split; auto.
      * simpl output in E. rewrite <- app_assoc in E. exact E.
      * apply (st_error _ _ (keeps_close_tail (R := stable) sc _)). reflexivity.
  - destruct (close_tail_output sc (mkWorld a out)) as (rest & E & F).
    exists rest. split; auto.
Qed.

(** C5, the code on a client-to-server Write Multiple request: the decoder
    assigns [mimumum_length], a misspelled attribute, so [minimum_length]
    is whatever it was before, for every state.  With eight bytes of a
    request that announces two data bytes (eleven bytes in all) in the
    buffer, [minimum_length] is still 4, the misspelled attribute is 11,
    and closing the frame writes no "too short" error. *)
Theorem write_multiple_request_length (w : World) :
  minimum_length (self (snd (CS.parse_write_multiple w))) = minimum_length (self w)
  /\ (let '(r, d) :=
        decode_all 2 (uart_frame TX 0 [1; 16; 0; 0; 0; 1; 2; 0xAB]) (Decoder_init "RX") in
      r = Ret tt
      /\ option_map (fun a => (len (data a), minimum_length a, mimumum_length a))
                    (ADUCs d) = Some (8, 4, Some 11))
  /\ (let '(r, d) :=
        decode_all 2
          (uart_frame TX 0 [1; 16; 0; 0; 0; 1; 2; 0xAB] ++ uart_frame TX 1000 [1])%list
          (Decoder_init "RX") in
      r = Ret tt
      /\ out_ann d
         = [ mkAnn 1 9 7 "Slave ID: 1";
             mkAnn 11 19 8 "Function 16: Write Multiple Registers";
             mkAnn 21 39 10 "Start at address 0x0 / 30001";
             mkAnn 41 59 12 "Write 1 Registers";
             mkAnn 61 69 12 "Byte count: 2";
             mkAnn 71 79 11 "Value 0xAB";
             mkAnn 1001 1009 7 "Slave ID: 1" ]).
Proof.
  split; [| split].
  - apply (keeps_CS_parse_write_multiple (R := same_minimum)).
  - vm_compute. split; reflexivity.
  - vm_compute. split; reflexivity.
Qed.

(** ** Which bytes the checksum is compared with *)

(** C2, the code on an inbound Read Holding Registers response with byte
    count 1 and one byte behind its checksum: the checksum of bytes 0..3 is
    (240, 72) and these are the bytes stored at positions 4 and 5, the
    positions [check_CRC 5] is called for; the call comes when the seventh
    byte is in the buffer, compares (240, 72) with the bytes at positions 5
    and 6, the last two of the buffer, and writes a checksum error over the
    correct checksum. *)
Theorem check_CRC_reads_buffer_end :
  let bytes := [1; 3; 1; 0; 240; 72; 0] in
  crc_pair (crc_of (firstn 4 bytes)) = (nth 4 bytes 0, nth 5 bytes 0)
  /\ (let '(r, d) := decode_all 2 (uart_frame RX 0 bytes) (Decoder_init "RX") in
      r = Ret tt
      /\ out_ann d
         = [ mkAnn 1 9 0 "Slave ID: 1";
             mkAnn 11 19 1 "Function 3: Read Holding Registers";
             mkAnn 21 29 6 "Error: Odd byte count (1)";
             mkAnn 31 59 6 "CRC should be 240 72" ])
  /\ (let a := mkADU Sc (map (fun v => mkData 0 0 v) bytes) 0 0 TX 2 "Sc-" 6 (Some 5)
                     false true in
      check_CRC 5 (mkWorld a [])
      = put_if_needed 5 "error" "CRC should be 240 72" (mkWorld a [])).
Proof.
  split; [reflexivity | split].
  - vm_compute. split; reflexivity.
  - reflexivity.
Qed.

(** ** Framing *)

Lemma set_get_ADU direction a d :
  get_ADU direction d = Some a -> set_ADU direction a d = d.
Proof. destruct direction, d; simpl; now intros ->. Qed.

Lemma set_bitlength_same bl d : bitlength d = Some bl -> set_bitlength bl d = d.
Proof. destruct d; simpl; now intros ->. Qed.

(** A packet that starts no later than 28 bit lengths after the last one
    read goes to the current ADU: [add_data] appends a data byte and runs
    the parse step. *)
Lemma decode_ADU_same_frame fuel ss es pkt direction d bl a :
  bitlength d = Some bl ->
  get_ADU direction d = Some a ->
  startNewFrame a = false ->
  ss - last_read a <= bl * 28 ->
  decode_ADU (S fuel) ss es pkt direction d
  = let '(r, _, d') := call direction a (add_data ss es pkt) d in (r, d').
Proof.
  intros Hb Ha Hs Hg. simpl. rewrite Hb, (set_bitlength_same _ _ Hb), Ha, Hs.
  rewrite (set_get_ADU _ _ _ Ha).
  destruct (ss - last_read a <=? bl * 28) eqn:E; [reflexivity | lia].
Qed.

Lemma decode_ADU_fresh fuel ss es pkt direction d bl a :
  bitlength d = Some bl ->
  0 <= bl ->
  decode_ADU (S fuel) ss es pkt direction
    (set_ADU direction (set_startNewFrame true a) d)
  = let '(r, _, d2) := call direction (new_ADU direction ss) (add_data ss es pkt) d in
    (r, d2).
Proof.
  intros Hb Hbl. destruct d as [sc cs b ch o]. simpl in Hb. subst b.
  destruct direction; simpl;
    (replace (ss - ss <=? bl * 28) with true by (symmetry; apply Z.leb_le; lia));
    unfold call; simpl; destruct (add_data ss es pkt _); reflexivity.
Qed.

Lemma call_fields {A} direction a (m : M A) d :
  let '(_, a1, d1) := call direction a m d in
  bitlength d1 = bitlength d /\ ScChannel d1 = ScChannel d.
Proof.
  unfold call. destruct (m _) as [r w]. destruct direction; simpl; auto.
Qed.

(** A packet that starts later closes the current ADU, if it holds any
    byte, with a deadline three bit lengths behind its last byte; unless
    [close] raises, a fresh ADU takes the packet. *)
Lemma decode_ADU_new_frame fuel ss es pkt direction d bl a :
  bitlength d = Some bl ->
  0 <= bl ->
  get_ADU direction d = Some a ->
  startNewFrame a = false ->
  bl * 28 < ss - last_read a ->
  decode_ADU (S (S fuel)) ss es pkt direction d
  = let '(r, _, d1) :=
      if len (data a) >? 0 then
        call direction a
          (last <- data_at (-1) ;; close (ScChannel d) (d_end last + bl * 3)) d
      else (Ret tt, a, d) in
    match r with
    | Raise e => (Raise e, d1)
    | Ret _ =>
        let '(r', _, d2) := call direction (new_ADU direction ss) (add_data ss es pkt) d1 in
        (r', d2)
    end.
Proof.
  intros Hb Hbl Ha Hs Hg. remember (S fuel) as f eqn:Hf.
  simpl. rewrite Hb, (set_bitlength_same _ _ Hb), Ha, Hs.
  rewrite (set_get_ADU _ _ _ Ha).
  destruct (ss - last_read a <=? bl * 28) eqn:E; [lia |].
  destruct (len (data a) >? 0).
  - pose proof (call_fields direction a
      (last <- data_at (-1) ;; close (ScChannel d) (d_end last + bl * 3)) d) as Hc.
    destruct (call direction a _ d) as [[r a1] d1]. destruct Hc as [Hb1 _].
    destruct r; [| reflexivity]. subst f.
    apply decode_ADU_fresh with (bl := bl); congruence.
  - subst f. apply decode_ADU_fresh with (bl := bl); assumption.
Qed.

(** The stream of an inbound frame of 257 bytes, a Read Coils response that
    announces 253 data bytes and stops after the first checksum byte. *)
Lemma oversize_frame_state :
  let '(r, d) :=
    decode_all 2 (uart_frame RX 0 ([1; 1; 253] ++ repeat 0 254)) (Decoder_init "RX") in
  r = Ret tt
  /\ bitlength d = Some 1
  /\ option_map (fun a => (len (data a), last_byte_put a, last_read a,
                           minimum_length a, startNewFrame a)) (ADUSc d)
     = Some (257, 255, 2570, 258, false).
Proof. vm_compute. repeat split. Qed.

(** C3, the code on that frame followed by a long silence: the start bit of
    the next byte and its data packet both arrive more than 28 bit lengths
    after the last packet read; [close] is called, writes the "too short"
    error and the frame marker, and then raises [ValueError] from its check
    of the frame size, where it hands ["Sc-error"] to [put_if_needed], which
    prefixes it again.  The exception leaves [decode_ADU]: no fresh ADU is
    started, the ADU keeps its 257 bytes, and the data byte is not taken,
    whether the data packet comes behind its start bit or on its own. *)
Theorem oversize_frame_blocks_framing :
  let d := snd (decode_all 2 (uart_frame RX 0 ([1; 1; 253] ++ repeat 0 254))
                           (Decoder_init "RX")) in
  let '(r1, d1) := decode_ADU 2 5000 5001 (mkPacket "STARTBIT" RX 0) Sc d in
  let '(r2, d2) := decode_ADU 2 5001 5009 (mkPacket "DATA" RX 1) Sc d1 in
  let '(r3, d3) := decode_ADU 2 5001 5009 (mkPacket "DATA" RX 1) Sc d in
  list_index annotations ("Sc-" ++ "Sc-" ++ "error") 0 = None
  /\ 28 * 1 < 5001 - 2570
  /\ r1 = Raise ValueError
  /\ r2 = Raise ValueError
  /\ r3 = Raise ValueError
  /\ option_map (fun a => (len (data a), startNewFrame a)) (ADUSc d2) = Some (257, false)
  /\ option_map (fun a => (len (data a), startNewFrame a)) (ADUSc d3) = Some (257, false)
  /\ skipn 256 (out_ann d3)
     = [ mkAnn 2559 2572 6 "Message too short or not finished";
         mkAnn 1 2569 14 "Frame contains error" ].
Proof. vm_compute. repeat split. Qed.

(** ** Inbound exception responses *)

Lemma SC_dispatch_error f : 0x80 < f -> SC.dispatch f = SC.parse_error.
Proof.
  intros H. unfold SC.dispatch, set_in, existsb.
  repeat match goal with
         | |- context [?x =? ?y] =>
             replace (x =? y) with false by (symmetry; apply Z.eqb_neq; lia)
         end.
  replace (f >? 128) with true by (symmetry; apply Z.gtb_lt; lia).
  reflexivity.
Qed.

(** C6, as the code has it: an inbound message whose function-code byte is
    greater than 0x80 is decoded as an exception response.  Its first three
    bytes give the server-id annotation, a function annotation that names
    the function [code - 0x80] from the table of function names
    ("Unknown function" when it is not there), and a data annotation with
    the reason from the nine-entry table of exception codes ("Unknown" when
    it is not there).  Function code 0x85 gives "Error for function 5:
    Write Single Coil". *)
Theorem exception_response (t0 : Z) (out : list Ann) (d0 d1 d2 : Data) :
  0x80 < d_data d1 ->
  let code := d_data d1 - 0x80 in
  let function_text :=
    "Error for function " ++ fmt_d code ++ ": "
      ++ dict_get SC.functions code "Unknown function" in
  let reason_text :=
    "Error " ++ fmt_d (d_data d2) ++ ": "
      ++ dict_get SC.errorcodes (d_data d2) "Unknown" in
  fst (feed [d0; d1; d2] (mkWorld (new_ADU Sc t0) out)) = Ret tt
  /\ output (snd (feed [d0; d1; d2] (mkWorld (new_ADU Sc t0) out)))
     = (out ++
        [ mkAnn (d_start d0) (d_end d0) 0 (SC.server_id_message (d_data d0));
          mkAnn (d_start d1) (d_end d1) 1 function_text;
          mkAnn (d_start d2) (d_end d2) 4 reason_text ])%list
  /\ List.length SC.errorcodes = 9%nat
  /\ (d_data d1 = 0x85 -> function_text = "Error for function 5: Write Single Coil").
Proof.
  intros H code function_text reason_text.
  assert (E : feed [d0; d1; d2] (mkWorld (new_ADU Sc t0) out)
              = (Ret tt,
                 mkWorld
                   (mkADU Sc [d0; d1; d2] t0 (d_end d2) TX 2 "Sc-" 4 (Some 5) false false)
                   (((out ++ [mkAnn (d_start d0) (d_end d0) 0
                                (SC.server_id_message (d_data d0))])
                         ++ [mkAnn (d_start d1) (d_end d1) 1 function_text])
                      ++ [mkAnn (d_start d2) (d_end d2) 4 reason_text]))).
  { destruct d0 as [s0 e0 v0], d1 as [s1 e1 v1], d2 as [s2 e2 v2]. simpl d_data in *.
    exec.
    rewrite SC_dispatch_error by assumption. unfold SC.parse_error.
    exec.
    rewrite SC_dispatch_error by assumption. unfold SC.parse_error.
    exec. reflexivity. }
  rewrite E. simpl snd. simpl output. rewrite <- !app_assoc.
  repeat split. unfold function_text, code. intros ->. reflexivity.
Qed.

(** C6, the claim as written fails for function code 0x80, whose high bit
    is set: the inbound decoder reports an unknown function and writes no
    function or data annotation. *)
Lemma exception_response_0x80 :
  Z.testbit 0x80 7 = true
  /\ feed [mkData 1 9 0x11; mkData 11 19 0x80; mkData 21 29 3]
          (mkWorld (new_ADU Sc 0) [])
     = (Ret tt,
        mkWorld (mkADU Sc [mkData 1 9 0x11; mkData 11 19 0x80; mkData 21 29 3]
                       0 29 TX 2 "Sc-" 4 None false true)
                [ mkAnn 1 9 0 "Slave ID: 17";
                  mkAnn 11 19 6 "Unknown function: 128";
                  mkAnn 21 29 6 "Unknown function" ]).
Proof. split; reflexivity. Qed.

Lemma exception_response_witness :
  0x80 < 0x85
  /\ output (snd (feed [mkData 1 9 0x11; mkData 11 19 0x85; mkData 21 29 3]
                    (mkWorld (new_ADU Sc 0) [])))
  = [ mkAnn 1 9 0 "Slave ID: 17";
      mkAnn 11 19 1 "Error for function 5: Write Single Coil";
      mkAnn 21 29 4 "Error 3: Illegal Data Value" ].
Proof.
  split; [lia |].
  refine (proj1 (proj2
    (exception_response 0 [] (mkData 1 9 0x11) (mkData 11 19 0x85) (mkData 21 29 3) _))).
  simpl. lia.
Defined.

(** ** The recognised but unsupported functions *)

(** Function codes 21, 24 and 43 are named and marked, and every later byte
    is marked as unsupported data, in both directions. *)
Lemma not_supported_functions (c : Direction) (t0 s e : Z) (out : list Ann)
    (d0 d2 : Data) (f : Z) (name : string) :
  In (f, name) [ (21, "Write File Record"); (24, "Read FIFO Queue");
                 (43, "Read Device Identification/Encapsulated Interface Transport") ] ->
  output (snd (feed [d0; mkData s e f; d2] (mkWorld (new_ADU c t0) out)))
  = (out ++
     [ mkAnn (d_start d0) (d_end d0) (match c with Sc => 0 | Cs => 7 end)
         (match c with
          | Sc => SC.server_id_message (d_data d0)
          | Cs => CS.server_id_message (d_data d0)
          end);
       mkAnn s e (match c with Sc => 1 | Cs => 8 end)
         ("Function " ++ fmt_d f ++ ": " ++ name ++ " (not supported)");
       mkAnn (d_start d2) (d_end d2) (match c with Sc => 4 | Cs => 11 end)
         "This function is not currently supported by the sigrok modbus module" ])%list.
Proof.
  intros H. destruct d0 as [s0 e0 v0], d2 as [s2 e2 v2].
  simpl in H. destruct H as [H | [H | [H | []]]]; injection H as <- <-;
    destruct c; exec; unfold SC.dispatch, CS.dispatch, parse_not_implemented,
      put_last_byte; exec;
    unfold SC.dispatch, CS.dispatch, parse_not_implemented, put_last_byte; exec;
    simpl; rewrite <- !app_assoc; reflexivity.
Qed.

(** C7, the code at function code 20: neither direction recognises it.  The
    set the dispatchers test is [{21, 21, 24, 43}], so the byte falls into
    the branch for unknown functions: an error annotation "Unknown
    function: 20", and "Unknown function" errors for the bytes after it;
    the name "Read File Record" and the "not supported" marker are never
    written. *)
Theorem function_20_not_recognised (c : Direction) (t0 s e : Z) (out : list Ann)
    (d0 d2 : Data) :
  set_in 20 [21; 21; 24; 43] = false
  /\ dict_item not_implemented_names 20 = Some "Read File Record"
  /\ feed [d0; mkData s e 20; d2] (mkWorld (new_ADU c t0) out)
     = (Ret tt,
        mkWorld (mkADU c [d0; mkData s e 20; d2] t0 (d_end d2) TX 2
                       (match c with Sc => "Sc-" | Cs => "Cs-" end) 4 None false true)
          (out ++
           [ mkAnn (d_start d0) (d_end d0) (match c with Sc => 0 | Cs => 7 end)
               (match c with
                | Sc => SC.server_id_message (d_data d0)
                | Cs => CS.server_id_message (d_data d0)
                end);
             mkAnn s e (match c with Sc => 6 | Cs => 13 end) "Unknown function: 20";
             mkAnn (d_start d2) (d_end d2) (match c with Sc => 6 | Cs => 13 end)
               "Unknown function" ])).
Proof.
  split; [reflexivity | split; [reflexivity |]].
  destruct d0 as [s0 e0 v0], d2 as [s2 e2 v2].
  destruct c; exec; unfold SC.dispatch, CS.dispatch, put_last_byte; exec;
    unfold SC.dispatch, CS.dispatch, put_last_byte; exec;
    simpl; rewrite <- !app_assoc; reflexivity.
Qed.

(** ** Packets that arrive before the bit length is known *)

(** C8, as the code has it: while the bit length is not known, a packet
    that is neither a start bit nor a stop bit, a data byte in particular,
    is dropped.  [decode] returns at once and the decoder is exactly what it
    was: nothing is buffered, so nothing can be processed later. *)
Theorem early_packet_dropped (fuel : nat) (ss es : Z) (pkt : Packet) (d : Decoder) :
  bitlength d = None ->
  ptype pkt <> "STARTBIT" ->
  ptype pkt <> "STOPBIT" ->
  decode (S fuel) ss es pkt d = (Ret tt, d).
Proof.
  intros Hb H1 H2.
  assert (E : forall direction, decode_ADU (S fuel) ss es pkt direction d = (Ret tt, d)).
  { intros direction. simpl. rewrite Hb.
    apply String.eqb_neq in H1, H2. now rewrite H1, H2. }
  unfold decode. cbv beta zeta.
  repeat first
    [ rewrite E
    | progress cbv beta iota
    | match goal with |- context [if ?c then _ else _] => destruct c end ].
  all: reflexivity.
Qed.

Lemma early_packet_dropped_witness :
  decode 2 1 9 (mkPacket "DATA" TX 0x11) (Decoder_init "RX")
  = (Ret tt, Decoder_init "RX").
Proof.
  apply early_packet_dropped; [reflexivity | discriminate | discriminate].
Defined.

(** C8, the claim as written fails: a data byte that arrives first leaves
    no trace; after the packets of a second byte, which bring the bit
    length, the outbound ADU holds that second byte only and the first byte
    was never annotated. *)
Lemma early_byte_lost :
  let '(r, d) := decode 2 1 9 (mkPacket "DATA" TX 0x11) (Decoder_init "RX") in
  let '(r', d') := decode_all 2 (uart_byte TX 10 5) d in
  d = Decoder_init "RX"
  /\ r' = Ret tt
  /\ bitlength d' = Some 1
  /\ option_map data (ADUCs d') = Some [mkData 11 19 5]
  /\ out_ann d' = [mkAnn 11 19 7 "Slave ID: 5"].
Proof. vm_compute. repeat split. Qed.

(** ** The server id of an inbound message *)

(** C10. For an inbound ADU whose first byte is not in 1..247, the
    server-id annotation written for byte 0 carries the literal text
    "Slave ID {} is invalid": the placeholder is not filled in, so the text
    does not depend on the byte. *)
Theorem invalid_slave_id_text (t0 : Z) (out : list Ann) (d0 : Data) :
  d_data d0 < 1 \/ 247 < d_data d0 ->
  feed [d0] (mkWorld (new_ADU Sc t0) out)
  = (Ret tt,
     mkWorld (mkADU Sc [d0] t0 (d_end d0) TX 0 "Sc-" 4 None false false)
             (out ++ [mkAnn (d_start d0) (d_end d0) 0 "Slave ID {} is invalid"])).
Proof.
  intros H.
  assert (E : SC.server_id_message (d_data d0) = "Slave ID {} is invalid").
  { unfold SC.server_id_message.
    replace ((1 <=? d_data d0) && (d_data d0 <=? 247)) with false; [reflexivity |].
    symmetry. apply andb_false_iff. rewrite !Z.leb_gt. lia. }
  destruct d0 as [s0 e0 v0]. simpl d_data in *. exec. cbn [d_data]. rewrite E. reflexivity.
Qed.

Lemma invalid_slave_id_text_witness :
  (0 < 1 \/ 247 < 0)
  /\ feed [mkData 1 9 0] (mkWorld (new_ADU Sc 0) [])
     = (Ret tt,
        mkWorld (mkADU Sc [mkData 1 9 0] 0 9 TX 0 "Sc-" 4 None false false)
                [mkAnn 1 9 0 "Slave ID {} is invalid"]).
Proof.
  split; [left; lia |].
  apply (invalid_slave_id_text 0 [] (mkData 1 9 0)). simpl. left. lia.
Defined.

(** * Further properties *)

(** ** What one parse step can do *)

Lemma same_frame_refl a : same_frame a a.
Proof. unfold same_frame. tauto. Qed.

Lemma same_frame_trans a1 a2 a3 :
  same_frame a1 a2 -> same_frame a2 a3 -> same_frame a1 a3.
Proof. unfold same_frame. intuition congruence. Qed.

Lemma mark_in_buffer_frame a a' :
  same_frame a a' -> last_byte_put a' = last_byte_put a ->
  mark_in_buffer a -> mark_in_buffer a'.
Proof.
  unfold same_frame, mark_in_buffer. intros (_ & D & _) L. rewrite D, L. auto.
Qed.

Create HintDb tame.

Lemma tame_quiet {A} (m : M A) :
  (forall w, same_frame (self w) (self (snd (m w)))
             /\ last_byte_put (self (snd (m w))) = last_byte_put (self w)
             /\ output (snd (m w)) = output w) ->
  tame m.
Proof.
  intros H w. destruct (H w) as (F & L & O).
  split; [exact F |].
  split; [apply mark_in_buffer_frame; auto | left; auto].
Qed.

Lemma tame_ret {A} (a : A) : tame (ret a).
Proof. apply tame_quiet. intros w. simpl. auto using same_frame_refl. Qed.

Lemma tame_raise {A} e : tame (@raise A e).
Proof. apply tame_quiet. intros w. simpl. auto using same_frame_refl. Qed.

Lemma tame_get_self : tame get_self.
Proof. apply tame_quiet. intros w. simpl. auto using same_frame_refl. Qed.

Lemma tame_orelse {A} (o : option A) e : tame (orelse o e).
Proof. destruct o; [apply tame_ret | apply tame_raise]. Qed.

Lemma tame_lift {A} (o : outcome A) : tame (lift o).
Proof. destruct o; [apply tame_ret | apply tame_raise]. Qed.

Lemma tame_set_error : tame (modify_self (set_hasError true)).
Proof. apply tame_quiet. intros [a out]. simpl. unfold same_frame. tauto. Qed.

Lemma tame_set_length v : tame (modify_self (set_minimum_length v)).
Proof. apply tame_quiet. intros [a out]. simpl. unfold same_frame. tauto. Qed.

Lemma tame_set_typo v : tame (modify_self (set_mimumum_length v)).
Proof. apply tame_quiet. intros [a out]. simpl. unfold same_frame. tauto. Qed.

Lemma emits_from (w w1 w2 : World) ann :
  same_frame (self w) (self w1) ->
  output w1 = output w -> last_byte_put (self w1) = last_byte_put (self w) ->
  emits w1 w2 ann -> emits w w2 ann.
Proof.
  unfold emits, same_frame. intros (_ & D & _ & _ & _ & P & _) O L.
  rewrite O, L, D, P. auto.
Qed.

Lemma tame_bind {A B} (m : M A) (k : A -> M B) :
  tame m -> (forall a, tame (k a)) -> tame (bind m k).
Proof.
  intros Hm Hk w. unfold bind. destruct (Hm w) as (F & I & O).
  destruct (m w) as [[a | e] w1]; simpl in *.
  - destruct (Hk a w1) as (F' & I' & O').
    split; [eauto using same_frame_trans |]. split; [auto |].
    destruct O as [[O L] | (ann & _ & N)]; [| discriminate].
    destruct O' as [[O' L'] | (ann & E' & N')].
    + left. split; congruence.
    + right. exists ann. split; [eapply emits_from; eauto | exact N'].
  - split; [exact F |]. split; [exact I |].
    destruct O as [O | (ann & O & N)]; [now left |].
    right. exists ann. split; [exact O | congruence].
Qed.

Lemma flag_frame ann a : same_frame a (flag ann a).
Proof.
  unfold flag. destruct (String.eqb ann "error"); unfold same_frame; simpl; tauto.
Qed.

Lemma quiet_flag {A} ann a out (r : outcome A) :
  let w := mkWorld a out in
  let w' := mkWorld (flag ann a) out in
  same_frame (self w) (self w')
  /\ (mark_in_buffer (self w) -> mark_in_buffer (self w'))
  /\ ((output w' = output w /\ last_byte_put (self w') = last_byte_put (self w))
      \/ exists x : Ann, emits w w' x /\ r = Raise No_more_data).
Proof.
  simpl. split; [apply flag_frame |].
  split; [apply mark_in_buffer_frame; auto using flag_frame, flag_mark |].
  left. auto using flag_mark.
Qed.

Lemma tame_put_if_needed b ann msg : tame (put_if_needed b ann msg).
Proof.
  intros [a out]. rewrite put_if_needed_eq.
  destruct (b >? len (data a) - 1) eqn:E1.
  { simpl. split; [apply same_frame_refl |]. split; [tauto | now left]. }
  destruct (b >? last_byte_put a) eqn:E2; [| apply (quiet_flag ann a out)].
  destruct (Py.index (data a) (last_byte_put a + 1)) as [first |] eqn:E3;
    [| apply (quiet_flag ann a out)].
  destruct (Py.index (data a) b) as [last |] eqn:E4; [| apply (quiet_flag ann a out)].
  destruct (list_index annotations _ 0) as [c |] eqn:E5; [| apply (quiet_flag ann a out)].
  simpl. pose proof (flag_frame ann a) as F. pose proof (flag_mark ann a) as L.
  split; [| split].
  - unfold same_frame in *. simpl. tauto.
  - destruct F as (_ & D & _). unfold mark_in_buffer. simpl. rewrite D. lia.
  - right. eexists. split; [| reflexivity].
    unfold emits, spans. simpl. split; [reflexivity |]. split; [lia |].
    split; [exists first, last; auto | exists ann; exact E5].
Qed.

#[export] Hint Resolve tame_ret tame_raise tame_get_self tame_orelse tame_lift
  tame_set_error tame_set_length tame_set_typo tame_put_if_needed : tame.

Ltac tame_step :=
  lazymatch goal with
  | |- tame (bind _ _) => apply tame_bind; [| intros]
  | |- tame (if ?c then _ else _) => destruct c
  | |- tame (match ?x with Some _ => _ | None => _ end) => destruct x
  | |- tame (match ?x with (_, _) => _ end) => destruct x
  | |- tame _ => solve [auto with tame]
  end.

Ltac tame_all := cbv zeta; repeat tame_step.

Lemma tame_data_at i : tame (data_at i).
Proof. unfold data_at. tame_all. Qed.

#[export] Hint Resolve tame_data_at : tame.

Lemma tame_half_word i : tame (half_word i).
Proof. unfold half_word. tame_all. Qed.

Lemma tame_calc_crc b : tame (calc_crc b).
Proof. unfold calc_crc. tame_all. Qed.

#[export] Hint Resolve tame_half_word tame_calc_crc : tame.

Lemma tame_check_CRC b : tame (check_CRC b).
Proof. unfold check_CRC. tame_all. Qed.

Lemma tame_put_last_byte ann msg mx : tame (put_last_byte ann msg mx).
Proof. unfold put_last_byte. tame_all. Qed.

#[export] Hint Resolve tame_check_CRC tame_put_last_byte : tame.

Lemma tame_field_decoders :
  tame parse_write_single_coil /\ tame parse_write_single_register
  /\ tame parse_diagnostics /\ tame parse_mask_write_register
  /\ tame parse_not_implemented
  /\ tame SC.parse_read_bits /\ tame SC.parse_read_registers
  /\ tame SC.parse_read_exception_status /\ tame SC.parse_get_comm_event_counter
  /\ tame SC.parse_get_comm_event_log /\ tame SC.parse_write_multiple
  /\ tame SC.parse_report_server_id /\ tame SC.parse_error
  /\ tame CS.parse_read_data_command /\ tame CS.parse_single_byte_request
  /\ tame CS.parse_write_multiple /\ tame CS.parse_read_file_record
  /\ tame CS.parse_read_write_registers.
Proof.
  unfold parse_write_single_coil, parse_write_single_register, parse_diagnostics,
    parse_mask_write_register, parse_not_implemented, SC.parse_read_bits,
    SC.parse_read_registers, SC.parse_read_exception_status,
    SC.parse_get_comm_event_counter, SC.parse_get_comm_event_log,
    SC.parse_write_multiple, SC.parse_report_server_id, SC.parse_error,
    CS.parse_read_data_command, CS.parse_single_byte_request,
    CS.parse_write_multiple, CS.parse_read_file_record,
    CS.parse_read_write_registers.
  repeat match goal with |- _ /\ _ => split end; tame_all.
Qed.

Lemma tame_SC_dispatch f : tame (SC.dispatch f).
Proof.
  destruct tame_field_decoders
    as (? & ? & ? & ? & ? & ? & ? & ? & ? & ? & ? & ? & ? & ? & ? & ? & ? & ?).
  unfold SC.dispatch. tame_all.
Qed.

Lemma tame_CS_dispatch f : tame (CS.dispatch f).
Proof.
  destruct tame_field_decoders
    as (? & ? & ? & ? & ? & ? & ? & ? & ? & ? & ? & ? & ? & ? & ? & ? & ? & ?).
  unfold CS.dispatch. tame_all.
Qed.

#[export] Hint Resolve tame_SC_dispatch tame_CS_dispatch : tame.

(** The body of [parse] inside its [try]. *)
Lemma tame_parse_body (c : Direction) :
  exists body,
    (forall w, cls (self w) = c -> parse w = try_except_No_more_data body w)
    /\ tame body.
Proof.
  destruct c.
  - eexists. split; [intros w Hc; unfold parse, bind, get_self; rewrite Hc; reflexivity |].
    tame_all.
  - eexists. split; [intros w Hc; unfold parse, bind, get_self; rewrite Hc; reflexivity |].
    tame_all.
Qed.

Lemma parse_tame (w : World) :
  let w' := snd (parse w) in
  same_frame (self w) (self w')
  /\ (mark_in_buffer (self w) -> mark_in_buffer (self w'))
  /\ ((output w' = output w /\ last_byte_put (self w') = last_byte_put (self w))
      \/ exists ann, emits w w' ann).
Proof.
  destruct (tame_parse_body (cls (self w))) as (body & E & T).
  rewrite (E w eq_refl). unfold try_except_No_more_data.
  destruct (T w) as (F & I & O).
  destruct (body w) as [[[] | []] w1]; simpl in *;
    (split; [exact F |]; split; [exact I |]);
    (destruct O as [O | (ann & O & _)]; [now left | right; eauto]).
Qed.

(** X1. One parse step, in either direction and from any state.  The frame
    attributes of the ADU (class, buffer, start, last read, channel, prefix,
    new-frame flag) are left as they are and a mark that points into the
    buffer still does.  Either nothing is written and the mark stays, or
    exactly one annotation is written: the mark goes up, the annotation
    spans the bytes from behind the old mark to the new mark, and its class
    is one of those that carry the prefix of the ADU. *)
Theorem parse_step (w : World) :
  let w' := snd (parse w) in
  same_frame (self w) (self w')
  /\ (mark_in_buffer (self w) -> mark_in_buffer (self w'))
  /\ ((output w' = output w /\ last_byte_put (self w') = last_byte_put (self w))
      \/ exists ann, emits w w' ann).
Proof. exact (parse_tame w). Qed.

(** X2. [add_data] on a packet that is not a data byte only records the
    end of the packet as the last moment read: it returns, writes nothing
    and changes no other attribute.  On a data byte it appends exactly that
    byte, with the span of the packet, to the buffer, records the end of
    the packet, leaves class, start, channel, prefix and new-frame flag,
    and writes at most one annotation. *)
Theorem add_data_effect (s e : Z) (pkt : Packet) (a : ADU) (out : list Ann) :
  let w' := snd (add_data s e pkt (mkWorld a out)) in
  (String.eqb (ptype pkt) "DATA" = false ->
   add_data s e pkt (mkWorld a out) = (Ret tt, mkWorld (set_last_read e a) out))
  /\ (String.eqb (ptype pkt) "DATA" = true ->
      data (self w') = (data a ++ [mkData s e (pdata0 pkt)])%list
      /\ last_read (self w') = e
      /\ cls (self w') = cls a /\ start (self w') = start a
      /\ write_channel (self w') = write_channel a
      /\ annotation_prefix (self w') = annotation_prefix a
      /\ startNewFrame (self w') = startNewFrame a
      /\ last_byte_put a <= last_byte_put (self w')
      /\ (output w' = out \/ exists ann, output w' = (out ++ [ann])%list)).
Proof.
  unfold add_data. run_monad. proj_simpl.
  destruct (String.eqb (ptype pkt) "DATA"); (split; [intros H | intros H]);
    try discriminate; try reflexivity.
  run_monad. proj_simpl.
  pose proof (parse_tame
    (mkWorld (set_data (data a ++ [mkData s e (pdata0 pkt)]) (set_last_read e a)) out))
    as (F & _ & O).
  destruct F as (F1 & F2 & F3 & F4 & F5 & F6 & F7). simpl in *.
  repeat match goal with |- _ /\ _ => split end; auto.
  - match type of F2 with data (self ?X) = _ =>
      change (last_byte_put a <= last_byte_put (self X)) end.
    destruct O as [[_ L] | (ann & _ & L & _)]; simpl in L; lia.
  - destruct O as [[O _] | (ann & O & _)]; [left; exact O | right; exists ann; exact O].
Qed.

Lemma tame_close_mark sc ov a out :
  mark_in_buffer a -> mark_in_buffer (self (snd (close sc ov (mkWorld a out)))).
Proof.
  intros Hm.
  assert (T : forall a1 out1, mark_in_buffer a1 ->
            mark_in_buffer (self (snd (close_tail sc (mkWorld a1 out1))))).
  { intros a1 out1 H1. unfold close_tail. run_monad. proj_simpl.
    assert (P : forall out2, mark_in_buffer (self (snd
              ((if len (data a1) >? 256
                then try_except_No_more_data
                       (put_if_needed (len (data a1) - 1) (annotation_prefix a1 ++ "error")
                          "Modbus data frames are limited to 256 bytes")
                else ret tt) (mkWorld a1 out2))))).
    { intros out2. destruct (len (data a1) >? 256); [| exact H1].
      pose proof (tame_put_if_needed (len (data a1) - 1) (annotation_prefix a1 ++ "error")
                    "Modbus data frames are limited to 256 bytes" (mkWorld a1 out2))
        as (_ & I & _).
      unfold try_except_No_more_data.
      destruct (put_if_needed _ _ _ _) as [[[] | []] w1]; simpl in *; auto. }
    destruct (hasError a1 && String.eqb sc "RX"); [| apply P].
    destruct (Py.index (data a1) 0); [| exact H1]. run_monad.
    destruct (Py.index (data a1) (-1)); [| exact H1]. run_monad.
    change (list_index annotations "error-indication" 0) with (Some 14).
    run_monad. proj_simpl. apply P. }
  unfold close. run_monad. proj_simpl.
  destruct (len (data a) <? minimum_length a); [| apply T; exact Hm].
  destruct (len (data a) =? 0); [exact Hm |].
  destruct (Py.index (data a) (last_byte_put a)); [| exact Hm]. run_monad.
  destruct (list_index annotations _ 0); [| exact Hm]. run_monad. proj_simpl.
  apply T. exact Hm.
Qed.

(** X3. The high-water mark of an ADU always points into its buffer or
    just before it: [-1 <= last_byte_put <= len(data) - 1] holds for a new
    ADU and is kept by every operation, so [data[last_byte_put + 1]], the
    start of the next annotation, is never looked up with a wrapped
    (negative) index. *)
Theorem mark_stays_in_buffer (ops : list Op) (w : World) :
  mark_in_buffer (self w) -> mark_in_buffer (self (run_ops ops w)).
Proof.
  revert w. induction ops as [| op ops IH]; intros w H; simpl; [exact H |].
  apply IH.
  destruct op as [s0 e0 pkt | byte_to_put annotation message
                 | annotation message maximum
                 | ScChannel message_overflow | byte_to_put |];
    simpl.
  - destruct w as [a out]. simpl in *. unfold add_data. run_monad. proj_simpl.
    destruct (String.eqb (ptype pkt) "DATA"); [| exact H].
    run_monad. proj_simpl.
    pose proof (parse_tame
      (mkWorld (set_data (data a ++ [mkData s0 e0 (pdata0 pkt)])
                         (set_last_read e0 a)) out)) as (_ & I & _).
    apply I. unfold mark_in_buffer in *. simpl. rewrite len_app.
    change (len [_]) with 1. lia.
  - now apply (tame_put_if_needed byte_to_put annotation message w).
  - now apply (tame_put_last_byte annotation message maximum w).
  - destruct w as [a out]. now apply tame_close_mark.
  - now apply (tame_check_CRC byte_to_put w).
  - now apply (parse_tame w).
Qed.

Lemma mark_stays_in_buffer_witness :
  mark_in_buffer (new_ADU Sc 0)
  /\ mark_in_buffer
       (self (run_ops [Op_add_data 1 9 (mkPacket "DATA" RX 17);
                       Op_add_data 11 19 (mkPacket "DATA" RX 5);
                       Op_close "RX" 22]
                      (mkWorld (new_ADU Sc 0) []))).
Proof.
  assert (H : mark_in_buffer (new_ADU Sc 0)) by (unfold mark_in_buffer; simpl; lia).
  split; [exact H |]. apply mark_stays_in_buffer. exact H.
Defined.

(** ** The decoder and its two ADUs *)

Lemma untouched_refl direction d : untouched direction d d.
Proof. unfold untouched. destruct direction; auto. Qed.

Lemma untouched_trans direction d1 d2 d3 :
  untouched direction d1 d2 -> untouched direction d2 d3 -> untouched direction d1 d3.
Proof.
  unfold untouched. intros (S1 & A1 & B1) (S2 & A2 & B2).
  split; [congruence |]. split; [destruct direction; congruence | auto].
Qed.

Lemma untouched_call {A} direction a (m : M A) d :
  untouched direction d (snd (call direction a m d)).
Proof.
  unfold call, untouched. destruct (m _) as [r w]. destruct direction; simpl; auto.
Qed.

Lemma untouched_set_ADU direction a d : untouched direction d (set_ADU direction a d).
Proof. unfold untouched. destruct direction; simpl; auto. Qed.

Lemma untouched_decode_ADU fuel ss es pkt direction d :
  untouched direction d (snd (decode_ADU fuel ss es pkt direction d)).
Proof.
  revert d. induction fuel as [| fuel IH]; intros d; simpl; [apply untouched_refl |].
  set (learned := match bitlength d with
                  | Some b => Some b
                  | None => if String.eqb (ptype pkt) "STARTBIT"
                               || String.eqb (ptype pkt) "STOPBIT"
                            then Some (es - ss) else None
                  end).
  assert (L : forall bl, learned = Some bl -> untouched direction d (set_bitlength bl d)).
  { intros bl E. unfold untouched. split; [reflexivity |].
    split; [destruct direction; reflexivity |]. intros b Hb. unfold learned in E.
    rewrite Hb in E. simpl. congruence. }
  destruct learned as [bl |]; [| apply untouched_refl]. specialize (L bl eq_refl).
  set (d0 := set_bitlength bl d) in *.
  set (a := match get_ADU direction d0 with
            | Some a => if startNewFrame a then new_ADU direction ss else a
            | None => new_ADU direction ss
            end).
  assert (L1 : untouched direction d (set_ADU direction a d0))
    by (eapply untouched_trans; [exact L | apply untouched_set_ADU]).
  destruct (ss - last_read a <=? bl * 28).
  - pose proof (untouched_call direction a (add_data ss es pkt) (set_ADU direction a d0)) as U.
    destruct (call direction a (add_data ss es pkt) _) as [[r a1] d1]. simpl in *.
    eapply untouched_trans; eassumption.
  - assert (U : exists r a1 d1,
        (if len (data a) >? 0
         then call direction a
                (last <- data_at (-1);;
                 close (ScChannel (set_ADU direction a d0)) (d_end last + bl * 3))
                (set_ADU direction a d0)
         else (Ret tt, a, set_ADU direction a d0)) = (r, a1, d1)
        /\ untouched direction d d1).
    { destruct (len (data a) >? 0).
      - pose proof (untouched_call direction a
          (last <- data_at (-1);;
           close (ScChannel (set_ADU direction a d0)) (d_end last + bl * 3))
          (set_ADU direction a d0)) as U.
        destruct (call direction a _ _) as [[r a1] d1]. simpl in U.
        exists r, a1, d1. split; [reflexivity |]. eapply untouched_trans; eassumption.
      - eauto. }
    destruct U as (r & a1 & d1 & -> & U). destruct r as [[] | e]; [| exact U].
    eapply untouched_trans; [| apply IH].
    eapply untouched_trans; [exact U | apply untouched_set_ADU].
Qed.

Ltac routing_cases :=
  cbn [snd fst];
  repeat match goal with |- _ /\ _ => split end; intros;
  repeat match goal with
         | H : ?x = RX -> _ = false, E : ?x = RX |- _ => specialize (H E)
         end;
  unfold RX, TX in *; congruence.


(** X5. The bit length: once known it is never assigned again, whatever
    packets arrive; and when it is not known, the first start-bit or
    stop-bit packet that reaches [decode_ADU] sets it to the length of
    that packet, [es - ss]. *)
Theorem bitlength_learned_once (fuel : nat) (ss es : Z) (pkt : Packet)
    (direction : Direction) (d : Decoder) (events : list (Z * Z * Packet)) :
  (forall bl, bitlength d = Some bl ->
     bitlength (snd (decode_ADU fuel ss es pkt direction d)) = Some bl
     /\ bitlength (snd (decode fuel ss es pkt d)) = Some bl
     /\ bitlength (snd (decode_all fuel events d)) = Some bl)
  /\ (bitlength d = None ->
      String.eqb (ptype pkt) "STARTBIT" || String.eqb (ptype pkt) "STOPBIT" = true ->
      bitlength (snd (decode_ADU (S fuel) ss es pkt direction d)) = Some (es - ss)).
Proof.
  assert (D : forall f s e p d0 bl, bitlength d0 = Some bl ->
            bitlength (snd (decode f s e p d0)) = Some bl).
  { intros f s e p d0 bl Hb. unfold decode. cbv zeta.
    assert (St : forall c dir (rd : outcome unit * Decoder), bitlength (snd rd) = Some bl ->
              bitlength (snd (match rd with
                              | (Raise e0, d1) => (Raise e0, d1)
                              | (Ret _, d1) =>
                                  if c : bool then decode_ADU f s e p dir d1 else (Ret tt, d1)
                              end)) = Some bl).
    { intros c dir [[[] | e0] d1] H; simpl in *; [| exact H].
      destruct c; [| exact H]. now apply (untouched_decode_ADU f s e p dir d1). }
    apply St, St. destruct (rxtx p =? TX); [| exact Hb].
    now apply (untouched_decode_ADU f s e p Cs d0). }
  split.
  - intros bl Hb. split; [now apply (untouched_decode_ADU fuel ss es pkt direction d) |].
    split; [now apply D |].
    revert d Hb. induction events as [| [[s e] p] rest IH]; intros d Hb; simpl; [exact Hb |].
    pose proof (D fuel s e p d bl Hb) as H1.
    destruct (decode fuel s e p d) as [[[] | e0] d1]; simpl in *; auto.
  - intros Hn Hp.
    assert (E : decode_ADU (S fuel) ss es pkt direction d
                = decode_ADU (S fuel) ss es pkt direction (set_bitlength (es - ss) d)).
    { simpl. rewrite Hn, Hp. destruct d; reflexivity. }
    rewrite E. now apply untouched_decode_ADU.
Qed.

Lemma bitlength_learned_once_witness :
  bitlength (snd (decode_ADU 2 0 1 (mkPacket "STARTBIT" RX 0) Sc (Decoder_init "RX")))
  = Some (1 - 0).
Proof.
  apply (proj2 (bitlength_learned_once 1 0 1 (mkPacket "STARTBIT" RX 0) Sc
                  (Decoder_init "RX") [])); reflexivity.
Defined.


(** ** The depth of the recursion of [decode_ADU] *)

Lemma format_go_exn fuel s auto arg e :
  Py.format_go fuel s auto arg = Raise e -> e <> RecursionError.
Proof.
  revert s auto. induction fuel as [| fuel IH]; intros s auto; simpl; [discriminate |].
  destruct s as [| c s]; [discriminate |].
  destruct (Ascii.eqb c "{").
  - assert (F : forall r : outcome string,
               match Py.split_at_brace s EmptyString with
               | Some (field, rest) =>
                   match Py.apply_field field auto arg with
                   | Ret txt =>
                       match
                         Py.format_go fuel rest
                           (if String.eqb (fst (Py.split_at_colon field EmptyString)) EmptyString
                            then auto + 1 else auto) arg
                       with
                       | Ret r0 => Ret (txt ++ r0)
                       | Raise e0 => Raise e0
                       end
                   | Raise e0 => Raise e0
                   end
               | None => Raise ValueError
               end = Raise e -> e <> RecursionError).
    { intros _. destruct (Py.split_at_brace s EmptyString) as [[field rest] |];
        [| intros H; injection H as <-; discriminate].
      destruct (Py.apply_field field auto arg) as [txt | e0] eqn:EF.
      - destruct (Py.format_go fuel rest _ arg) eqn:EG; [discriminate |].
        intros H; injection H as <-. eapply IH; eassumption.
      - intros H; injection H as <-. unfold Py.apply_field in EF.
        destruct (Py.split_at_colon field EmptyString) as [name spec].
        unfold Py.apply_spec in EF.
        repeat match type of EF with
               | context [if ?c then _ else _] => destruct c
               | context [let '(_, _) := ?x in _] => destruct x
               end; try discriminate; injection EF as <-; discriminate. }
    destruct s as [| c' s']; [apply (F (Ret EmptyString)) |].
    destruct c' as [[] [] [] [] [] [] [] []]; try apply (F (Ret EmptyString)).
    destruct (Py.format_go fuel s' auto arg) eqn:EG; [discriminate |].
    intros H; injection H as <-. eapply IH; eassumption.
  - destruct (Ascii.eqb c "}").
    + destruct s as [| c' s']; [intros H; injection H as <-; discriminate |].
      destruct c' as [[] [] [] [] [] [] [] []];
        try (intros H; injection H as <-; discriminate).
      destruct (Py.format_go fuel s' auto arg) eqn:EG; [discriminate |].
      intros H; injection H as <-. eapply IH; eassumption.
    + destruct (Py.format_go fuel s auto arg) eqn:EG; [discriminate |].
      intros H; injection H as <-. eapply IH; eassumption.
Qed.

Lemma nre_ret {A} (a : A) : no_recursion_error (ret a).
Proof. intros w. discriminate. Qed.

Lemma nre_raise {A} e : e <> RecursionError -> no_recursion_error (@raise A e).
Proof. intros H w. simpl. congruence. Qed.

Lemma nre_bind {A B} (m : M A) (k : A -> M B) :
  no_recursion_error m -> (forall a, no_recursion_error (k a)) ->
  no_recursion_error (bind m k).
Proof.
  intros Hm Hk w. unfold bind. specialize (Hm w).
  destruct (m w) as [[a | e] w1]; simpl in *; [apply Hk | congruence].
Qed.

Lemma nre_get_self : no_recursion_error get_self.
Proof. intros w. discriminate. Qed.

Lemma nre_modify_self f : no_recursion_error (modify_self f).
Proof. intros w. discriminate. Qed.

Lemma nre_orelse {A} (o : option A) e :
  e <> RecursionError -> no_recursion_error (orelse o e).
Proof. intros H. destruct o; [apply nre_ret | now apply nre_raise]. Qed.

Lemma nre_format msg v : no_recursion_error (lift (Py.format msg v)).
Proof.
  destruct (Py.format msg v) eqn:E; [apply nre_ret |].
  apply nre_raise. eapply format_go_exn. exact E.
Qed.

Lemma nre_try body : no_recursion_error body ->
  no_recursion_error (try_except_No_more_data body).
Proof.
  intros H w. unfold try_except_No_more_data. specialize (H w).
  destruct (body w) as [[[] | []] w1]; simpl in *; congruence.
Qed.

Create HintDb nre.

#[export] Hint Resolve nre_ret nre_get_self nre_modify_self nre_format : nre.
#[export] Hint Extern 1 (no_recursion_error (raise _)) =>
  apply nre_raise; discriminate : nre.
#[export] Hint Extern 1 (no_recursion_error (orelse _ _)) =>
  apply nre_orelse; discriminate : nre.

Ltac nre_step :=
  lazymatch goal with
  | |- no_recursion_error (bind _ _) => apply nre_bind; [| intros]
  | |- no_recursion_error (try_except_No_more_data _) => apply nre_try
  | |- no_recursion_error (if ?c then _ else _) => destruct c
  | |- no_recursion_error (match ?x with Some _ => _ | None => _ end) => destruct x
  | |- no_recursion_error (match ?x with (_, _) => _ end) => destruct x
  | |- no_recursion_error (match ?x with Sc => _ | Cs => _ end) => destruct x
  | |- no_recursion_error _ => solve [auto with nre]
  end.

Ltac nre_all := cbv zeta; repeat nre_step.

Lemma nre_methods :
  (forall i, no_recursion_error (data_at i))
  /\ (forall s e c t, no_recursion_error (puta s e c t))
  /\ (forall b ann msg, no_recursion_error (put_if_needed b ann msg))
  /\ (forall i, no_recursion_error (half_word i))
  /\ (forall b, no_recursion_error (calc_crc b)).
Proof.
  assert (D : forall i, no_recursion_error (data_at i))
    by (intros; unfold data_at; nre_all).
  assert (P : forall s e c t, no_recursion_error (puta s e c t)).
  { intros. unfold puta. apply nre_bind; [nre_all | intros a w; discriminate]. }
  repeat match goal with |- _ /\ _ => split end; auto; intros.
  - unfold put_if_needed. nre_all.
  - unfold half_word. nre_all.
  - unfold calc_crc. nre_all.
Qed.

Lemma nre_checks :
  (forall b, no_recursion_error (check_CRC b))
  /\ (forall ann msg mx, no_recursion_error (put_last_byte ann msg mx))
  /\ (forall sc ov, no_recursion_error (close sc ov)).
Proof.
  destruct nre_methods as (? & ? & ? & ? & ?).
  assert (T : forall sc, no_recursion_error (close_tail sc))
    by (intros; unfold close_tail; nre_all).
  repeat match goal with |- _ /\ _ => split end; intros.
  - unfold check_CRC. nre_all.
  - unfold put_last_byte. nre_all.
  - unfold close. nre_all.
Qed.

Lemma nre_add_data s e pkt : no_recursion_error (add_data s e pkt).
Proof.
  destruct nre_methods as (? & ? & ? & ? & ?). destruct nre_checks as (? & ? & ?).
  unfold add_data, parse, SC.parse, CS.parse, SC.dispatch, CS.dispatch,
    parse_write_single_coil, parse_write_single_register, parse_diagnostics,
    parse_mask_write_register, parse_not_implemented, SC.parse_read_bits,
    SC.parse_read_registers, SC.parse_read_exception_status,
    SC.parse_get_comm_event_counter, SC.parse_get_comm_event_log,
    SC.parse_write_multiple, SC.parse_report_server_id, SC.parse_error,
    CS.parse_read_data_command, CS.parse_single_byte_request,
    CS.parse_write_multiple, CS.parse_read_write_registers.
  nre_all.
Qed.

Lemma call_no_recursion_error {A} direction a (m : M A) d :
  no_recursion_error m -> fst (fst (call direction a m d)) <> Raise RecursionError.
Proof.
  intros H. unfold call. specialize (H (mkWorld a (out_ann d))).
  destruct (m _) as [r w]. exact H.
Qed.

Lemma decode_ADU_depth_two fuel ss es pkt direction d :
  match bitlength d with Some bl => 0 <= bl | None => ss <= es end ->
  exists r d',
    decode_ADU (S (S fuel)) ss es pkt direction d = (r, d')
    /\ decode_ADU 2 ss es pkt direction d = (r, d')
    /\ r <> Raise RecursionError.
Proof.
  intros H.
  assert (G : forall g, decode_ADU (S (S g)) ss es pkt direction d
                        = decode_ADU 2 ss es pkt direction d
                        /\ fst (decode_ADU 2 ss es pkt direction d) <> Raise RecursionError).
  { intros g. remember (S g) as g1 eqn:Hg1. remember 1%nat as g2 eqn:Hg2.
    change 2%nat with (S g2). simpl.
    set (learned := match bitlength d with
                    | Some b => Some b
                    | None => if String.eqb (ptype pkt) "STARTBIT"
                                 || String.eqb (ptype pkt) "STOPBIT"
                              then Some (es - ss) else None
                    end).
    assert (L : forall bl, learned = Some bl -> 0 <= bl).
    { intros bl E. unfold learned in E. destruct (bitlength d).
      - congruence.
      - destruct (_ || _); [| discriminate]. injection E as <-. lia. }
    destruct learned as [bl |]; [| split; [reflexivity | discriminate]].
    specialize (L bl eq_refl).
    set (d0 := set_bitlength bl d).
    set (a := match get_ADU direction d0 with
              | Some a => if startNewFrame a then new_ADU direction ss else a
              | None => new_ADU direction ss
              end).
    destruct (ss - last_read a <=? bl * 28).
    - split; [reflexivity |].
      pose proof (call_no_recursion_error direction a (add_data ss es pkt)
                    (set_ADU direction a d0) (nre_add_data ss es pkt)) as N.
      destruct (call direction a (add_data ss es pkt) _) as [[r a1] d1]. exact N.
    - assert (U : exists r a1 d1,
          (if len (data a) >? 0
           then call direction a
                  (last <- data_at (-1);;
                   close (ScChannel (set_ADU direction a d0)) (d_end last + bl * 3))
                  (set_ADU direction a d0)
           else (Ret tt, a, set_ADU direction a d0)) = (r, a1, d1)
          /\ bitlength d1 = Some bl /\ r <> Raise RecursionError).
      { destruct (len (data a) >? 0).
        - pose proof (call_fields direction a
            (last <- data_at (-1);;
             close (ScChannel (set_ADU direction a d0)) (d_end last + bl * 3))
            (set_ADU direction a d0)) as F.
          pose proof (call_no_recursion_error direction a
            (last <- data_at (-1);;
             close (ScChannel (set_ADU direction a d0)) (d_end last + bl * 3))
            (set_ADU direction a d0)) as N.
          destruct (call direction a _ _) as [[r a1] d1]. destruct F as [F _].
          exists r, a1, d1. split; [reflexivity |]. split.
          + rewrite F. unfold d0. destruct direction, d; reflexivity.
          + apply N. destruct nre_methods as (D & _). destruct nre_checks as (_ & _ & C).
            apply nre_bind; [apply D | intros; apply C].
        - exists (Ret tt), a, (set_ADU direction a d0).
          split; [reflexivity |]. split; [| discriminate].
          unfold d0. destruct direction, d; reflexivity. }
      destruct U as (r & a1 & d1 & -> & B & N). destruct r as [[] | e].
      + subst g1 g2. rewrite !(decode_ADU_fresh _ _ _ _ _ _ bl) by assumption.
        split; [reflexivity |].
        pose proof (call_no_recursion_error direction (new_ADU direction ss)
                      (add_data ss es pkt) d1 (nre_add_data ss es pkt)) as N'.
        destruct (call direction (new_ADU direction ss) (add_data ss es pkt) d1)
          as [[r a2] d2]. exact N'.
      + split; [reflexivity | exact N]. }
  destruct (decode_ADU 2 ss es pkt direction d) as [r d'] eqn:E.
  exists r, d'. destruct (G fuel) as [G1 G2]. rewrite G1. auto.
Qed.

(** X6. [decode_ADU] calls itself at most once: when the bit length known
    to the decoder, or the one this start or stop bit brings, is not
    negative, a recursion depth of two is enough.  The call then ends
    without a [RecursionError], and a greater depth gives the same result. *)
Theorem decode_ADU_depth (fuel : nat) (ss es : Z) (pkt : Packet)
    (direction : Direction) (d : Decoder) :
  match bitlength d with Some bl => 0 <= bl | None => ss <= es end ->
  decode_ADU (S (S fuel)) ss es pkt direction d = decode_ADU 2 ss es pkt direction d
  /\ fst (decode_ADU 2 ss es pkt direction d) <> Raise RecursionError.
Proof.
  intros H. destruct (decode_ADU_depth_two fuel ss es pkt direction d H)
    as (r & d' & E1 & E2 & N).
  rewrite E1, E2. auto.
Qed.

Lemma decode_ADU_depth_witness :
  decode_ADU 5 5000 5001 (mkPacket "STARTBIT" RX 0) Sc
    (snd (decode_all 2 (uart_frame RX 0 [17; 5]) (Decoder_init "RX")))
  = decode_ADU 2 5000 5001 (mkPacket "STARTBIT" RX 0) Sc
      (snd (decode_all 2 (uart_frame RX 0 [17; 5]) (Decoder_init "RX"))).
Proof.
  apply (decode_ADU_depth 3). vm_compute. discriminate.
Defined.

(** X7. With a negative bit length, which a start-bit packet that ends
    before it starts leaves behind, [decode_ADU] does not come to an end for
    a direction whose ADU is still to be created, or is empty and was last
    read more than 28 (negative) bit lengths before the packet: the fresh
    ADU is found too old at once, marked for replacement, and the function
    calls itself again, at every depth. *)
Theorem decode_ADU_negative_bitlength (fuel : nat) (ss es : Z) (pkt : Packet)
    (direction : Direction) (d : Decoder) (bl : Z) :
  bitlength d = Some bl ->
  bl < 0 ->
  match get_ADU direction d with
  | Some a => startNewFrame a = true \/ (data a = [] /\ bl * 28 < ss - last_read a)
  | None => True
  end ->
  fst (decode_ADU fuel ss es pkt direction d) = Raise RecursionError.
Proof.
  revert d. induction fuel as [| fuel IH]; intros d Hb Hn Ha; [reflexivity |].
  simpl. rewrite Hb.
  replace (get_ADU direction (set_bitlength bl d)) with (get_ADU direction d)
    by (destruct direction, d; reflexivity).
  set (a := match get_ADU direction d with
            | Some a => if startNewFrame a then new_ADU direction ss else a
            | None => new_ADU direction ss
            end).
  assert (E : data a = [] /\ bl * 28 < ss - last_read a).
  { unfold a. destruct (get_ADU direction d) as [a0 |].
    - destruct (startNewFrame a0) eqn:Es.
      + destruct direction; simpl; split; auto; lia.
      + destruct Ha as [Ha | Ha]; [congruence | exact Ha].
    - destruct direction; simpl; split; auto; lia. }
  destruct E as [Ed Eg].
  replace (ss - last_read a <=? bl * 28) with false by (symmetry; apply Z.leb_gt; lia).
  rewrite Ed. change (len [] >? 0) with false. cbv iota.
  apply IH.
  - destruct direction, d; simpl in *; first [reflexivity | exact Hb].
  - exact Hn.
  - destruct direction; simpl; left; reflexivity.
Qed.

Lemma decode_ADU_negative_bitlength_witness :
  fst (decode_ADU 50 10 18 (mkPacket "DATA" RX 1) Sc
         (snd (decode_ADU 2 5 4 (mkPacket "STARTBIT" TX 0) Cs (Decoder_init "RX"))))
  = Raise RecursionError.
Proof.
  apply (decode_ADU_negative_bitlength 50 10 18 _ Sc _ (-1));
    [reflexivity | lia | exact I].
Defined.

(** ** The annotations of a frame tile its bytes *)

Lemma index_app_l {A} (l x : list A) i d :
  0 <= i -> Py.index l i = Some d -> Py.index (l ++ x) i = Some d.
Proof.
  unfold Py.index. intros Hi. replace (i <? 0) with false by (symmetry; apply Z.ltb_ge; lia).
  intros H. rewrite nth_error_app1; [exact H |].
  apply nth_error_Some. congruence.
Qed.

Lemma spans_app l x i j ann :
  -1 <= i -> i < j -> spans l i j ann -> spans (l ++ x) i j ann.
Proof.
  intros Hi Hj (first & last & E1 & E2 & S1 & S2).
  exists first, last. repeat split; auto; apply index_app_l; auto; lia.
Qed.

Lemma tiles_le l i k anns : tiles l i k anns -> i <= k.
Proof. induction 1; lia. Qed.

Lemma tiles_app l x i k anns :
  -1 <= i -> tiles l i k anns -> tiles (l ++ x) i k anns.
Proof.
  intros Hi T. induction T as [| i j k anns ann T IH Hjk S].
  - constructor.
  - apply tiles_snoc with (j := j); auto.
    apply spans_app; auto. apply tiles_le in T. lia.
Qed.


(** ** Indices, field names and templates *)

Lemma index_in_range {A} (l : list A) i :
  - len l <= i <= len l - 1 -> exists d, Py.index l i = Some d /\ In d l.
Proof.
  intros H. unfold Py.index, len in *.
  assert (N : forall n, (n < List.length l)%nat ->
            exists d, nth_error l n = Some d /\ In d l).
  { intros n Hn. destruct (nth_error l n) as [d |] eqn:E.
    - exists d. split; [reflexivity | eapply nth_error_In; eauto].
    - apply nth_error_None in E. lia. }
  destruct (i <? 0) eqn:E1.
  - apply Z.ltb_lt in E1.
    replace (i + Z.of_nat (List.length l) <? 0) with false
      by (symmetry; apply Z.ltb_ge; lia).
    apply N. lia.
  - apply Z.ltb_ge in E1. apply N. lia.
Qed.

Lemma field_name_valid pre ann :
  pre = "Sc-" \/ pre = "Cs-" -> In ann field_names ->
  list_index annotations (pre ++ ann) 0 <> None.
Proof.
  intros [-> | ->] H; simpl in H;
    repeat (destruct H as [<- | H]; [vm_compute; discriminate |]); destruct H.
Qed.

(** Boolean tests in the hypotheses turned into propositions. *)
Ltac bool_facts :=
  repeat match goal with
  | H : set_in _ _ = _ |- _ => unfold set_in, existsb in H
  | H : (_ || _) = false |- _ => apply orb_false_iff in H; destruct H
  | H : (_ && _) = true |- _ => apply andb_true_iff in H; destruct H
  | H : (_ || _) = true |- _ => apply orb_true_iff in H; destruct H
  | H : (_ && _) = false |- _ => apply andb_false_iff in H; destruct H
  | H : (_ =? _) = true |- _ => apply Z.eqb_eq in H
  | H : (_ =? _) = false |- _ => apply Z.eqb_neq in H
  | H : (_ <=? _) = true |- _ => apply Z.leb_le in H
  | H : (_ <=? _) = false |- _ => apply Z.leb_gt in H
  | H : (_ >=? _) = true |- _ => rewrite Z.geb_leb in H
  | H : (_ >=? _) = false |- _ => rewrite Z.geb_leb in H
  | H : (_ >? _) = true |- _ => rewrite Z.gtb_ltb in H
  | H : (_ >? _) = false |- _ => rewrite Z.gtb_ltb in H
  | H : (_ <? _) = true |- _ => apply Z.ltb_lt in H
  | H : (_ <? _) = false |- _ => apply Z.ltb_ge in H
  | H : negb _ = true |- _ => apply negb_true_iff in H
  | H : negb _ = false |- _ => apply negb_false_iff in H
  | H : false = true |- _ => discriminate H
  | H : true = false |- _ => discriminate H
  end.


(** *** Templates without braces *)

Lemma format_go_plain fuel : forall s auto arg,
  (String.length s <= fuel)%nat -> no_brace s = true ->
  Py.format_go fuel s auto arg = Ret s.
Proof.
  induction fuel as [| fuel IH]; intros s auto arg Hl Hn.
  - destruct s; [reflexivity | simpl in Hl; lia].
  - destruct s as [| c s]; [reflexivity |].
    simpl in Hn, Hl. apply andb_true_iff in Hn. destruct Hn as [Hc Hs].
    apply andb_true_iff in Hc. destruct Hc as [H1 H2].
    apply negb_true_iff in H1, H2.
    cbn [Py.format_go]. rewrite H1, H2, IH; [reflexivity | lia | exact Hs].
Qed.

Lemma format_plain s arg : no_brace s = true -> Py.format s arg = Ret s.
Proof. intros H. apply format_go_plain; auto. Qed.

Lemma no_brace_app a b : no_brace (a ++ b) = no_brace a && no_brace b.
Proof.
  induction a as [| c a IH]; [reflexivity |].
  simpl. rewrite IH. now rewrite !andb_assoc.
Qed.

Lemma no_brace_digit d : 0 <= d < 16 ->
  negb (Ascii.eqb (Py.digit_char d) "{") && negb (Ascii.eqb (Py.digit_char d) "}") = true.
Proof.
  intros H.
  assert (C : d = 0 \/ d = 1 \/ d = 2 \/ d = 3 \/ d = 4 \/ d = 5 \/ d = 6 \/ d = 7
              \/ d = 8 \/ d = 9 \/ d = 10 \/ d = 11 \/ d = 12 \/ d = 13 \/ d = 14
              \/ d = 15) by lia.
  repeat (destruct C as [-> | C]; [reflexivity |]). subst. reflexivity.
Qed.

Lemma no_brace_digits_of fuel : forall base n acc,
  2 <= base <= 16 -> no_brace acc = true ->
  no_brace (Py.digits_of fuel base n acc) = true.
Proof.
  induction fuel as [| fuel IH]; intros base n acc Hb Ha.
  - simpl. rewrite no_brace_digit, Ha; [reflexivity |].
    pose proof (Z.mod_pos_bound n base). lia.
  - cbn [Py.digits_of].
    assert (A : no_brace (String (Py.digit_char (n mod base)) acc) = true).
    { simpl. rewrite no_brace_digit, Ha; [reflexivity |].
      pose proof (Z.mod_pos_bound n base). lia. }
    destruct (n / base =? 0); [exact A | now apply IH].
Qed.

Lemma no_brace_zeros k : no_brace (Py.zeros k) = true.
Proof. induction k; [reflexivity | exact IHk]. Qed.

Lemma no_brace_fmt_int base width n :
  2 <= base <= 16 -> no_brace (Py.fmt_int base width n) = true.
Proof.
  intros Hb. unfold Py.fmt_int. cbv zeta.
  rewrite !no_brace_app, no_brace_zeros. unfold Py.digits.
  rewrite no_brace_digits_of by auto.
  destruct (n <? 0); reflexivity.
Qed.

Lemma chr_byte v : 0 <= v < 256 ->
  exists c, Py.chr v = Some c /\ (no_brace c = true \/ v = 123 \/ v = 125).
Proof.
  intros H.
  assert (C : forallb (fun k => match Py.chr (Z.of_nat k) with
                                | Some c => no_brace c || (Z.of_nat k =? 123)
                                            || (Z.of_nat k =? 125)
                                | None => false
                                end) (seq 0 256) = true) by (vm_compute; reflexivity).
  rewrite forallb_forall in C. specialize (C (Z.to_nat v)).
  rewrite Z2Nat.id in C by lia.
  assert (I : In (Z.to_nat v) (seq 0 256)) by (apply in_seq; lia).
  specialize (C I). destruct (Py.chr v) as [c |]; [| discriminate].
  exists c. split; [reflexivity |].
  apply orb_true_iff in C. destruct C as [C | C]; [| right; right; lia].
  apply orb_true_iff in C. destruct C as [C | C]; [now left | right; left; lia].
Qed.

(** * The checksum report *)

Lemma index_checksum_byte {A} (p : list A) x y :
  Py.index (p ++ [x; y])%list (len p + 1) = Some y.
Proof.
  unfold Py.index. pose proof (len_nonneg p).
  replace (len p + 1 <? 0) with false by (symmetry; apply Z.ltb_ge; lia).
  replace (Z.to_nat (len p + 1)) with (List.length p + 1)%nat by (unfold len; lia).
  rewrite nth_error_app2 by lia.
  replace (List.length p + 1 - List.length p)%nat with 1%nat by lia. reflexivity.
Qed.

Lemma class_of_field pre name :
  pre = "Sc-" \/ pre = "Cs-" -> In name field_names ->
  exists c, list_index annotations (pre ++ name) 0 = Some c.
Proof.
  intros Hp Hn. pose proof (field_name_valid pre name Hp Hn) as V.
  destruct (list_index annotations (pre ++ name) 0) as [c |]; [eauto | congruence].
Qed.

(** What a call of [put_if_needed] for a byte behind the mark and in the
    buffer does: it writes the annotation and moves the mark. *)
Lemma put_if_needed_writes b ann msg a out :
  annotation_prefix a = "Sc-" \/ annotation_prefix a = "Cs-" ->
  In ann field_names ->
  -1 <= last_byte_put a < b -> b <= len (data a) - 1 ->
  exists first last c,
    Py.index (data a) (last_byte_put a + 1) = Some first
    /\ Py.index (data a) b = Some last
    /\ list_index annotations (annotation_prefix a ++ ann) 0 = Some c
    /\ put_if_needed b ann msg (mkWorld a out)
       = (Raise No_more_data,
          mkWorld (set_last_byte_put b (flag ann a))
                  (out ++ [mkAnn (d_start first) (d_end last) c msg])).
Proof.
  intros Hp Hn Hm Hb.
  destruct (index_in_range (data a) (last_byte_put a + 1)) as (first & I1 & _); [lia |].
  destruct (index_in_range (data a) b) as (last & I2 & _); [lia |].
  destruct (class_of_field _ _ Hp Hn) as (c & Hc).
  exists first, last, c. repeat split; auto.
  rewrite put_if_needed_eq, I1, I2, Hc.
  replace (b >? len (data a) - 1) with false
    by (symmetry; rewrite Z.gtb_ltb; apply Z.ltb_ge; lia).
  replace (b >? last_byte_put a) with true
    by (symmetry; rewrite Z.gtb_ltb; apply Z.ltb_lt; lia).
  reflexivity.
Qed.

(** C1. Checksum round trip.  A payload [p] of at least four bytes is
    followed by the two bytes [x], [y] that [calc_crc] computes for it, low
    byte first, and the checksum is not annotated yet.  Then [check_CRC]
    writes exactly one annotation, of the class ["crc"] of the direction
    and with the text "CRC correct", from the byte behind the mark to the
    last checksum byte, moves the mark there and leaves the error flag as
    it is.  With any single bit of the payload or of the two appended
    bytes inverted, it writes instead exactly one annotation of the class
    ["error"] with the text "CRC should be c1 c2", where [c1], [c2] is the
    checksum of the payload as it now stands, and raises the error flag. *)
Theorem checksum_round_trip (a : ADU) (out : list Ann) (p : list Data) (x y : Data) :
  Forall is_byte p ->
  4 <= len p ->
  calc_crc (len p + 1) (mkWorld (set_data p a) out)
    = (Ret (d_data x, d_data y), mkWorld (set_data p a) out) ->
  annotation_prefix a = "Sc-" \/ annotation_prefix a = "Cs-" ->
  -1 <= last_byte_put a <= len p ->
  let b := len p + 1 in
  let good := set_data (p ++ [x; y]) a in
  (exists first c,
     Py.index (p ++ [x; y])%list (last_byte_put a + 1) = Some first
     /\ list_index annotations (annotation_prefix a ++ "crc") 0 = Some c
     /\ check_CRC b (mkWorld good out)
        = (Raise No_more_data,
           mkWorld (set_last_byte_put b good)
                   (out ++ [mkAnn (d_start first) (d_end y) c "CRC correct"])))
  /\ forall (pos : nat) (k : Z),
       (pos < List.length p + 2)%nat -> 0 <= k < 8 ->
       let l' := flip_at pos k (p ++ [x; y]) in
       let bad := set_data l' a in
       exists first last c c1 c2,
         Py.index l' (last_byte_put a + 1) = Some first
         /\ Py.index l' b = Some last
         /\ list_index annotations (annotation_prefix a ++ "error") 0 = Some c
         /\ (c1, c2) = crc_pair (crc_of (map d_data (firstn (List.length p) l')))
         /\ check_CRC b (mkWorld bad out)
            = (Raise No_more_data,
               mkWorld (set_last_byte_put b (set_hasError true bad))
                 (out ++ [mkAnn (d_start first) (d_end last) c
                            ("CRC should be " ++ fmt_d c1 ++ " " ++ fmt_d c2)])).
Proof.
  intros Hp Hlen Hcalc Hpre Hm b good.
  destruct (check_CRC_branch a out p x y Hp Hlen Hcalc) as [Hgood Hbad].
  cbv zeta in Hgood, Hbad. fold b in Hgood, Hbad.
  assert (L : len (p ++ [x; y])%list = len p + 2)
    by (rewrite len_app; reflexivity).
  split.
  - fold good in Hgood. rewrite Hgood.
    destruct (put_if_needed_writes b "crc" "CRC correct" good out)
      as (first & last & c & I1 & I2 & Hc & E);
      try (unfold good, b; proj_simpl; first [exact Hpre | rewrite L; lia | lia]).
    { simpl. tauto. }
    unfold good in I1, I2, Hc. cbn in I1, I2, Hc.
    unfold b in I2. rewrite index_checksum_byte in I2. injection I2 as <-.
    exists first, c. repeat split; auto.
  - intros pos k Hpos Hk l' bad.
    destruct (Hbad pos k Hpos Hk) as (c1 & c2 & Hc12 & E). fold l' in E, Hc12. fold bad in E.
    rewrite E.
    assert (L' : len l' = len p + 2).
    { unfold l', len. rewrite flip_at_length. exact L. }
    destruct (put_if_needed_writes b "error"
                ("CRC should be " ++ fmt_d c1 ++ " " ++ fmt_d c2) bad out)
      as (first & last & c & I1 & I2 & Hc & E');
      try (unfold bad, b; proj_simpl; first [exact Hpre | rewrite L'; lia | lia]).
    { simpl. tauto. }
    exists first, last, c, c1, c2. repeat split; auto.
Qed.

Lemma checksum_round_trip_witness :
  let p := [ mkData 1 9 0x11; mkData 11 19 5; mkData 21 29 0; mkData 31 39 0xAC;
             mkData 41 49 0xFF; mkData 51 59 0 ] in
  let x := mkData 61 69 78 in
  let y := mkData 71 79 139 in
  let a := set_last_byte_put 5 (new_ADU Cs 0) in
  let good := set_data (p ++ [x; y]) a in
  (exists first c,
     Py.index (p ++ [x; y])%list (5 + 1) = Some first
     /\ list_index annotations ("Cs-" ++ "crc") 0 = Some c
     /\ check_CRC 7 (mkWorld good [])
        = (Raise No_more_data,
           mkWorld (set_last_byte_put 7 good)
                   ([] ++ [mkAnn (d_start first) 79 c "CRC correct"])))
  /\ forall (pos : nat) (k : Z),
       (pos < 8)%nat -> 0 <= k < 8 ->
       let l' := flip_at pos k (p ++ [x; y]) in
       let bad := set_data l' a in
       exists first last c c1 c2,
         Py.index l' (5 + 1) = Some first
         /\ Py.index l' 7 = Some last
         /\ list_index annotations ("Cs-" ++ "error") 0 = Some c
         /\ (c1, c2) = crc_pair (crc_of (map d_data (firstn 6 l')))
         /\ check_CRC 7 (mkWorld bad [])
            = (Raise No_more_data,
               mkWorld (set_last_byte_put 7 (set_hasError true bad))
                 ([] ++ [mkAnn (d_start first) (d_end last) c
                            ("CRC should be " ++ fmt_d c1 ++ " " ++ fmt_d c2)])).
Proof.
  intros p x y a.
  apply (checksum_round_trip a [] p x y).
  - repeat constructor; unfold is_byte; simpl; lia.
  - vm_compute. discriminate.
  - reflexivity.
  - right. reflexivity.
  - vm_compute. split; discriminate.
Defined.

(** * The emission invariant *)

(** The test of the frame size at the end of [close] changes nothing: the
    name it hands to [put_if_needed] carries the prefix already, so no
    annotation class is found for it. *)
Lemma close_oversize_unchanged a out :
  annotation_prefix a = "Sc-" \/ annotation_prefix a = "Cs-" ->
  snd ((if len (data a) >? 256
        then try_except_No_more_data
               (put_if_needed (len (data a) - 1) (annotation_prefix a ++ "error")
                  "Modbus data frames are limited to 256 bytes")
        else ret tt) (mkWorld a out))
  = mkWorld a out.
Proof.
  intros Hp. destruct (len (data a) >? 256); [| reflexivity].
  unfold try_except_No_more_data. rewrite put_if_needed_eq.
  assert (F : flag (annotation_prefix a ++ "error") a = a).
  { unfold flag. destruct Hp as [-> | ->]; reflexivity. }
  assert (N : list_index annotations
                (annotation_prefix a ++ annotation_prefix a ++ "error") 0 = None).
  { destruct Hp as [-> | ->]; reflexivity. }
  rewrite F, N.
  replace (len (data a) - 1 >? len (data a) - 1) with false
    by (symmetry; rewrite Z.gtb_ltb; apply Z.ltb_ge; lia).
  destruct (len (data a) - 1 >? last_byte_put a); [| reflexivity].
  destruct (Py.index (data a) (last_byte_put a + 1)); [| reflexivity].
  destruct (Py.index (data a) (len (data a) - 1)); reflexivity.
Qed.

Lemma close_tail_effect sc a out :
  annotation_prefix a = "Sc-" \/ annotation_prefix a = "Cs-" ->
  let w' := snd (close_tail sc (mkWorld a out)) in
  self w' = a
  /\ (output w' = out
      \/ exists first last,
           Py.index (data a) 0 = Some first /\ Py.index (data a) (-1) = Some last
           /\ output w' = (out ++ [mkAnn (d_start first) (d_end last) 14
                                     "Frame contains error"])%list).
Proof.
  intros Hp. unfold close_tail. run_monad. proj_simpl.
  destruct (hasError a && String.eqb sc "RX").
  - destruct (Py.index (data a) 0) as [first |] eqn:I0; [| simpl; auto].
    run_monad. destruct (Py.index (data a) (-1)) as [last |] eqn:I1; [| simpl; auto].
    run_monad. change (list_index annotations "error-indication" 0) with (Some 14).
    run_monad. proj_simpl. rewrite close_oversize_unchanged by exact Hp.
    simpl. split; [reflexivity |]. right. exists first, last. auto.
  - rewrite close_oversize_unchanged by exact Hp. simpl. auto.
Qed.

(** [close] leaves the buffer and the mark, and adds at most its own two
    annotations to the output. *)
Lemma close_effect sc ov a out :
  annotation_prefix a = "Sc-" \/ annotation_prefix a = "Cs-" ->
  let w' := snd (close sc ov (mkWorld a out)) in
  last_byte_put (self w') = last_byte_put a
  /\ data (self w') = data a
  /\ exists more,
       output w' = (out ++ more)%list
       /\ Forall (frame_level a ov) more /\ (List.length more <= 2)%nat.
Proof.
  intros Hp.
  assert (T : forall a1 out1 more1,
            annotation_prefix a1 = annotation_prefix a -> data a1 = data a ->
            last_byte_put a1 = last_byte_put a ->
            out1 = (out ++ more1)%list -> Forall (frame_level a ov) more1 ->
            (List.length more1 <= 1)%nat ->
            let w' := snd (close_tail sc (mkWorld a1 out1)) in
            last_byte_put (self w') = last_byte_put a
            /\ data (self w') = data a
            /\ exists more,
                 output w' = (out ++ more)%list
                 /\ Forall (frame_level a ov) more /\ (List.length more <= 2)%nat).
  { intros a1 out1 more1 P1 D1 L1 O1 F1 N1.
    destruct (close_tail_effect sc a1 out1) as [S [O | (first & last & I0 & I1 & O)]];
      [now rewrite P1 | |]; cbv zeta; rewrite S, O.
    - split; [exact L1 |]. split; [exact D1 |]. exists more1. repeat split; auto.
    - split; [exact L1 |]. split; [exact D1 |].
      exists (more1 ++ [mkAnn (d_start first) (d_end last) 14 "Frame contains error"])%list.
      split; [now rewrite O1, app_assoc |]. split.
      + apply Forall_app. split; [exact F1 |]. constructor; [| constructor].
        right. exists first, last. rewrite <- D1. auto.
      + rewrite length_app. simpl. lia. }
  unfold close. run_monad. proj_simpl.
  destruct (len (data a) <? minimum_length a).
  - destruct (len (data a) =? 0).
    + simpl. repeat split; auto. exists []. rewrite app_nil_r. auto.
    + destruct (Py.index (data a) (last_byte_put a)) as [d |] eqn:Id.
      * run_monad.
        destruct (list_index annotations (annotation_prefix a ++ "error") 0) as [c |] eqn:Hc.
        -- run_monad. proj_simpl.
           apply (T _ _ [mkAnn (d_end d) ov c "Message too short or not finished"]);
             auto.
           constructor; [| constructor]. left. exists d, c. auto.
        -- simpl. repeat split; auto. exists []. rewrite app_nil_r. auto.
      * simpl. repeat split; auto. exists []. rewrite app_nil_r. auto.
  - apply (T a out []); auto. now rewrite app_nil_r.
Qed.

(** One operation other than [close]: the buffer grows at its end or
    stays, and either nothing is written and the mark stays, or one
    annotation is written that spans the bytes from behind the old mark to
    the new mark. *)
Lemma run_op_step op w :
  is_close op = false ->
  let w' := snd (run_op op w) in
  (exists more, data (self w') = (data (self w) ++ more)%list)
  /\ ((output w' = output w /\ last_byte_put (self w') = last_byte_put (self w))
      \/ exists ann,
           output w' = (output w ++ [ann])%list
           /\ last_byte_put (self w) < last_byte_put (self w')
           /\ spans (data (self w')) (last_byte_put (self w))
                (last_byte_put (self w')) ann).
Proof.
  assert (T : forall {A} (m : M A), tame m ->
            let w' := snd (m w) in
            (exists more, data (self w') = (data (self w) ++ more)%list)
            /\ ((output w' = output w /\ last_byte_put (self w') = last_byte_put (self w))
                \/ exists ann,
                     output w' = (output w ++ [ann])%list
                     /\ last_byte_put (self w) < last_byte_put (self w')
                     /\ spans (data (self w')) (last_byte_put (self w))
                          (last_byte_put (self w')) ann)).
  { intros A m Hm. destruct (Hm w) as ((_ & D & _) & _ & O). cbv zeta.
    split; [exists []; now rewrite app_nil_r |].
    destruct O as [O | (ann & (O & L & S & _) & _)]; [now left |].
    right. exists ann. rewrite D. auto. }
  destruct op as [s0 e0 pkt | byte_to_put annotation message
                 | annotation message maximum
                 | ScChannel message_overflow | byte_to_put |];
    simpl; intros Hc; try discriminate.
  - (* add_data *)
    destruct w as [a out]. unfold add_data. run_monad. proj_simpl.
    destruct (String.eqb (ptype pkt) "DATA").
    + run_monad. proj_simpl.
      set (w1 := mkWorld (set_data (data a ++ [mkData s0 e0 (pdata0 pkt)])
                                   (set_last_read e0 a)) out).
      change (let w' := snd (parse w1) in
              (exists more, data (self w') = (data a ++ more)%list)
              /\ ((output w' = out /\ last_byte_put (self w') = last_byte_put a)
                  \/ exists ann,
                       output w' = (out ++ [ann])%list
                       /\ last_byte_put a < last_byte_put (self w')
                       /\ spans (data (self w')) (last_byte_put a)
                            (last_byte_put (self w')) ann)).
      pose proof (parse_tame w1) as ((_ & D & _) & _ & O). cbv zeta in *.
      split; [rewrite D; eexists; reflexivity |].
      destruct O as [O | (ann & (O & L & S & _))]; [now left |].
      right. exists ann. rewrite D. auto.
    + simpl. split; [exists []; now rewrite app_nil_r | now left].
  - apply T, tame_put_if_needed.
  - apply T, tame_put_last_byte.
  - apply T, tame_check_CRC.
  - pose proof (parse_tame w) as ((_ & D & _) & _ & O). cbv zeta in *.
    split; [exists []; rewrite D; now rewrite app_nil_r |].
    destruct O as [O | (ann & (O & L & S & _))]; [now left |].
    right. exists ann. rewrite D. auto.
Qed.

Lemma run_ops_tiles (ops : list Op) : forall w out i anns,
  forallb (fun op => negb (is_close op)) ops = true ->
  -1 <= i ->
  output w = (out ++ anns)%list ->
  tiles (data (self w)) i (last_byte_put (self w)) anns ->
  exists anns',
    output (run_ops ops w) = (out ++ anns')%list
    /\ tiles (data (self (run_ops ops w))) i (last_byte_put (self (run_ops ops w))) anns'.
Proof.
  induction ops as [| op ops IH]; intros w out i anns Hops Hi Ho T; simpl.
  - eauto.
  - simpl in Hops. apply andb_true_iff in Hops. destruct Hops as [Hop Hops].
    apply negb_true_iff in Hop.
    pose proof (run_op_step op w Hop) as ((more & D) & O). cbv zeta in D, O.
    assert (T1 : tiles (data (self (snd (run_op op w)))) i (last_byte_put (self w)) anns).
    { rewrite D. apply tiles_app; auto. }
    destruct O as [[O L] | (ann & O & L & S)].
    + apply (IH _ out i anns); auto; [congruence | now rewrite L].
    + apply (IH _ out i (anns ++ [ann])%list); auto.
      * rewrite O, Ho. now rewrite app_assoc.
      * eapply tiles_snoc; eauto.
Qed.

(** C4, as the code has it.  Over any sequence of operations of an ADU the
    high-water mark [last_byte_put] never decreases.  An operation other
    than [close] ([add_data], [parse], [put_if_needed], [put_last_byte],
    [check_CRC]) either writes nothing and leaves the mark, or writes
    exactly one annotation, which spans the bytes from behind the old mark
    to the new, higher mark; so over any sequence of such operations the
    annotations written tile the bytes from behind the first mark to the
    last mark, in order, without overlap and without gap.  [close] is not
    part of this: it leaves the buffer and the mark and adds up to two
    annotations of its own, the "too short" error from the end of the byte
    at the mark to the deadline and the marker over the whole frame.  A
    call of [put_if_needed] whose target lies beyond the last byte of the
    buffer raises [No_more_data] and changes nothing. *)
Theorem emission_invariant (a : ADU) (out : list Ann) (ops : list Op) :
  -1 <= last_byte_put a ->
  let w := mkWorld a out in
  last_byte_put a <= last_byte_put (self (run_ops ops w))
  /\ (forall op, is_close op = false ->
        let w' := snd (run_op op w) in
        (output w' = out /\ last_byte_put (self w') = last_byte_put a)
        \/ exists ann,
             output w' = (out ++ [ann])%list
             /\ last_byte_put a < last_byte_put (self w')
             /\ spans (data (self w')) (last_byte_put a) (last_byte_put (self w')) ann)
  /\ (forallb (fun op => negb (is_close op)) ops = true ->
      exists anns,
        output (run_ops ops w) = (out ++ anns)%list
        /\ tiles (data (self (run_ops ops w))) (last_byte_put a)
             (last_byte_put (self (run_ops ops w))) anns)
  /\ (forall sc ov,
        annotation_prefix a = "Sc-" \/ annotation_prefix a = "Cs-" ->
        let w' := snd (close sc ov w) in
        last_byte_put (self w') = last_byte_put a
        /\ data (self w') = data a
        /\ exists more,
             output w' = (out ++ more)%list
             /\ Forall (frame_level a ov) more /\ (List.length more <= 2)%nat)
  /\ (forall b annotation message,
        b > len (data a) - 1 ->
        put_if_needed b annotation message w = (Raise No_more_data, w)).
Proof.
  intros Hm w. split; [| split; [| split; [| split]]].
  - apply (st_mark _ _ (stable_run_ops ops w)).
  - intros op Hop. exact (proj2 (run_op_step op w Hop)).
  - intros Hops. apply (run_ops_tiles ops w out (last_byte_put a) []); auto.
    + simpl. now rewrite app_nil_r.
    + constructor.
  - intros sc ov Hp. apply close_effect. exact Hp.
  - intros b ann msg Hb. unfold w. rewrite put_if_needed_eq.
    destruct (b >? len (data a) - 1) eqn:E; [reflexivity | lia].
Qed.

(** C4, the claim as written fails for [close]: an inbound ADU holds three
    bytes of which two are annotated, so the mark is 1.  Closing it writes
    two annotations and leaves the mark: an error from the end of byte 1 to
    the deadline, which is not the span of the bytes behind the mark, and
    the frame marker from sample 1 to sample 29, over the two annotations
    written before. *)
Lemma close_annotations_overlap :
  let w := snd (feed [mkData 1 9 0x11; mkData 11 19 5; mkData 21 29 0]
                     (mkWorld (new_ADU Sc 0) [])) in
  let w' := snd (close "RX" 32 w) in
  last_byte_put (self w) = 1
  /\ output w = [mkAnn 1 9 0 "Slave ID: 17"; mkAnn 11 19 1 "Function 5: Write Single Coil"]
  /\ last_byte_put (self w') = 1
  /\ output w' = (output w ++
                  [mkAnn 19 32 6 "Message too short or not finished";
                   mkAnn 1 29 14 "Frame contains error"])%list.
Proof. vm_compute. repeat split. Qed.

Lemma emission_invariant_witness :
  let a := mkADU Cs [mkData 1 9 0x11; mkData 11 19 5] 0 19 TX 0 "Cs-" 4 None false false in
  let w := mkWorld a [mkAnn 1 9 7 "Slave ID: 17"] in
  snd (put_if_needed 1 "function" "Function 5: Write Single Coil" w)
  = mkWorld (set_last_byte_put 1 a)
      [mkAnn 1 9 7 "Slave ID: 17"; mkAnn 11 19 8 "Function 5: Write Single Coil"]
  /\ put_if_needed 2 "address" "Address" w = (Raise No_more_data, w).
Proof.
  intros a w.
  pose proof (emission_invariant a [mkAnn 1 9 7 "Slave ID: 17"] []) as H.
  split; [reflexivity |].
  apply H; simpl; lia.
Defined.

(** * The error flag *)

Lemma leads_bind {A B} (P Q R : World -> Prop) S (m : M A) (k : A -> M B) F G :
  leads P Q S m F -> (forall a, F a -> leads Q R S (k a) G) ->
  leads P R S (bind m k) G.
Proof.
  intros Hm Hk w Hw. unfold bind. specialize (Hm w Hw).
  destruct (m w) as [[a | e] w1]; [| exact Hm].
  destruct Hm as [Hw1 Fa]. exact (Hk a Fa w1 Hw1).
Qed.

Lemma leads_weaken {A} (P Q Q' : World -> Prop) S (m : M A) (F G : A -> Prop) :
  leads P Q S m F -> (forall w, Q w -> Q' w) -> (forall a, F a -> G a) ->
  leads P Q' S m G.
Proof.
  intros Hm HQ HG w Hw. specialize (Hm w Hw).
  destruct (m w) as [[a | e] w1]; [| exact Hm].
  destruct Hm. auto.
Qed.

Lemma leads_ret {A} (P : World -> Prop) S (a : A) : leads P P S (ret a) (fun x => x = a).
Proof. intros w Hw. simpl. auto. Qed.

Lemma flag_is_error ann a :
  hasError (flag ann a) = true -> hasError a = true \/ ann = "error".
Proof.
  rewrite flag_error. intros H. apply orb_true_iff in H.
  destruct H as [H | H]; [now left | right; now apply String.eqb_eq].
Qed.

Lemma flag_of_error a : hasError (flag "error" a) = true.
Proof. reflexivity. Qed.

(** Closed tests replaced by their values. *)
Ltac fe_eval :=
  repeat match goal with
    | |- context [Z.eqb ?a ?b] => eval_bool (Z.eqb a b)
    | |- context [Z.leb ?a ?b] => eval_bool (Z.leb a b)
    | |- context [SC_known ?a] => eval_bool (SC_known a)
    | |- context [CS_known ?a] => eval_bool (CS_known a)
    end;
  cbn [andb orb negb].

Section Flags.

Variable r : Round.
Hypothesis Hmlo : -1 <= r_mark r.
Hypothesis Hmhi : r_mark r <= len (r_data r) - 2.
Hypothesis Hpre : r_prefix r = "Sc-" \/ r_prefix r = "Cs-".

Local Abbreviation hw := (r_mark r).
Local Abbreviation l := (r_data r).
Local Abbreviation cc := (leads (clean r) (clean r) (stops r)).
Local Abbreviation co := (leads (clean r) (owing r) (stops r)).
Local Abbreviation oo := (leads (owing r) (owing r) (stops r)).

Lemma clean_owing w : clean r w -> owing r w.
Proof. now intros [H _]. Qed.

Lemma clean_stops e w : clean r w -> stops r e w.
Proof. intros [[(D & L & P) O] J]. left. auto. Qed.

Lemma cc_co {A} (m : M A) F : cc m F -> co m F.
Proof. intros H. eapply leads_weaken; eauto using clean_owing. Qed.

Lemma cc_raise {A} e (Q : World -> Prop) (F : A -> Prop) :
  leads (clean r) Q (stops r) (raise e) F.
Proof. intros w Hw. simpl. now apply clean_stops. Qed.

Lemma cc_get_self : cc get_self (fun a => data a = l).
Proof. intros w Hw. simpl. split; [exact Hw |]. now destruct Hw as [[(D & _) _] _]. Qed.

Lemma oo_get_self : oo get_self (fun a => data a = l).
Proof. intros w Hw. simpl. split; [exact Hw |]. now destruct Hw as [(D & _) _]. Qed.

Lemma cc_set_length v : cc (modify_self (set_minimum_length v)) (fun _ => True).
Proof. intros [a out] Hw. simpl. split; [exact Hw | exact Logic.I]. Qed.

Lemma cc_set_typo v : cc (modify_self (set_mimumum_length v)) (fun _ => True).
Proof. intros [a out] Hw. simpl. split; [exact Hw | exact Logic.I]. Qed.

Lemma cc_orelse {A} (o : option A) e : cc (orelse o e) (fun a => o = Some a).
Proof.
  destruct o as [a |]; simpl.
  - eapply leads_weaken; [apply leads_ret | auto | intros ? ->; reflexivity].
  - apply cc_raise.
Qed.

Lemma cc_lift {A} (o : outcome A) : cc (lift o) (fun _ => True).
Proof.
  destruct o as [a | e]; simpl.
  - eapply leads_weaken; [apply leads_ret | auto | auto].
  - apply cc_raise.
Qed.

Lemma cc_data_at i : cc (data_at i) (fun d => Py.index l i = Some d).
Proof.
  unfold data_at. eapply leads_bind; [apply cc_get_self |].
  intros a ->. apply cc_orelse.
Qed.

Lemma oo_data_at i :
  - len l <= i <= len l - 1 -> oo (data_at i) (fun d => Py.index l i = Some d).
Proof.
  intros Hi. unfold data_at. eapply leads_bind; [apply oo_get_self |].
  intros a ->. destruct (index_in_range l i Hi) as (d & E & _). rewrite E. simpl.
  eapply leads_weaken; [apply leads_ret | auto | intros ? ->; reflexivity].
Qed.

Lemma byte_of i d : Py.index l i = Some d -> byte l i = d_data d.
Proof. unfold byte. now intros ->. Qed.

Lemma cc_half_word s : cc (half_word s) (fun v => v = word l s).
Proof.
  unfold half_word. eapply leads_bind; [apply cc_get_self |]. intros a ->.
  destruct (s + 1 >? len l - 1); [apply cc_raise |].
  eapply leads_bind; [apply cc_data_at |]. intros hi Hhi.
  eapply leads_bind; [apply cc_data_at |]. intros lo Hlo.
  eapply leads_weaken; [apply leads_ret | auto |]. intros v ->.
  unfold word. now rewrite (byte_of _ _ Hhi), (byte_of _ _ Hlo).
Qed.

Lemma cc_calc_crc b : cc (calc_crc b) (fun _ => True).
Proof.
  unfold calc_crc. destruct (b <? 3); [apply cc_raise |].
  eapply leads_bind; [apply cc_get_self |]. intros a _.
  eapply leads_weaken; [apply leads_ret | auto | auto].
Qed.

(** The three ways of [put_if_needed] within the round. *)
Lemma put_in_round b name msg a out :
  in_round l hw (r_prefix r) (mkWorld a out) -> In name field_names ->
  (b > len l - 1
   /\ put_if_needed b name msg (mkWorld a out) = (Raise No_more_data, mkWorld a out))
  \/ (hw < b <= len l - 1
      /\ exists ann,
           list_index annotations (r_prefix r ++ name) 0 = Some (a_class ann)
           /\ put_if_needed b name msg (mkWorld a out)
              = (Raise No_more_data,
                 mkWorld (set_last_byte_put b (flag name a)) (out ++ [ann])))
  \/ (b <= hw
      /\ put_if_needed b name msg (mkWorld a out) = (Ret tt, mkWorld (flag name a) out)).
Proof.
  intros (D & L & P) Hn. simpl in D, L, P. rewrite put_if_needed_eq, D, L, P.
  destruct (b >? len l - 1) eqn:E1.
  { left. split; [lia | reflexivity]. }
  destruct (b >? hw) eqn:E2.
  - right. left. split; [lia |].
    destruct (index_in_range l (hw + 1)) as (d1 & I1 & _); [lia |].
    destruct (index_in_range l b) as (d2 & I2 & _); [lia |].
    destruct (class_of_field _ name Hpre Hn) as (c & Hc).
    rewrite I1, I2, Hc. eexists. split; [| reflexivity]. reflexivity.
  - right. right. split; [lia | reflexivity].
Qed.

Lemma in_round_flag name a out :
  in_round l hw (r_prefix r) (mkWorld a out) ->
  in_round l hw (r_prefix r) (mkWorld (flag name a) out).
Proof.
  unfold in_round. simpl. rewrite flag_mark.
  unfold flag. destruct (String.eqb name "error"); simpl; auto.
Qed.

Lemma wrote_by name b a out ann :
  in_round l hw (r_prefix r) (mkWorld a out) -> out = r_out r ->
  In name field_names -> hw < b ->
  list_index annotations (r_prefix r ++ name) 0 = Some (a_class ann) ->
  covers r b name ->
  (hasError a = true -> name = "error" \/ justified r) ->
  wrote r name (mkWorld (set_last_byte_put b (flag name a)) (out ++ [ann])).
Proof.
  intros Hr -> Hn Hb Hc Hcov Hj. exists ann. simpl.
  repeat split; auto.
  - intros ->. reflexivity.
  - intros H. destruct (flag_is_error _ _ H); auto.
Qed.

Lemma cc_put b name msg :
  In name field_names ->
  (name = "error" -> b <= hw -> justified r) ->
  (hw < b -> b <= len l - 1 -> covers r b name) ->
  cc (put_if_needed b name msg) (fun _ => b <= hw).
Proof.
  intros Hn Hj Hcov [a out] [[Hr O] J]. simpl in O, J.
  destruct (put_in_round b name msg a out Hr Hn)
    as [[Hb E] | [[Hb (ann & Hc & E)] | [Hb E]]]; rewrite E.
  - apply clean_stops. split; [split; [exact Hr | exact O] | exact J].
  - right. exists name. apply wrote_by; auto; try lia.
    apply Hcov; lia.
  - split; [| exact Hb]. split; [split; [now apply in_round_flag | exact O] |].
    simpl. intros H. destruct (flag_is_error _ _ H); auto.
Qed.

Lemma co_put_error b msg : co (put_if_needed b "error" msg) (fun _ => b <= hw).
Proof.
  intros [a out] [[Hr O] J]. simpl in O, J.
  assert (Hn : In "error" field_names) by (simpl; tauto).
  destruct (put_in_round b "error" msg a out Hr Hn)
    as [[Hb E] | [[Hb (ann & Hc & E)] | [Hb E]]]; rewrite E.
  - apply clean_stops. split; [split; [exact Hr | exact O] | exact J].
  - right. exists "error". apply wrote_by; auto; try lia.
    intros b0 _ _. reflexivity.
  - split; [| exact Hb]. split; [now apply in_round_flag | exact O].
Qed.

Lemma oo_put_error b msg :
  b <= len l - 1 -> oo (put_if_needed b "error" msg) (fun _ => b <= hw).
Proof.
  intros Hlen [a out] [Hr O]. simpl in O.
  assert (Hn : In "error" field_names) by (simpl; tauto).
  destruct (put_in_round b "error" msg a out Hr Hn)
    as [[Hb E] | [[Hb (ann & Hc & E)] | [Hb E]]]; rewrite E.
  - lia.
  - right. exists "error". apply wrote_by; auto; try lia.
    intros b0 _ _. reflexivity.
  - split; [| exact Hb]. split; [now apply in_round_flag | exact O].
Qed.

Lemma co_check_CRC b :
  (hw < b -> b <= len l - 1 -> covers r b "crc") ->
  co (check_CRC b) (fun _ => b <= hw).
Proof.
  intros Hcov. unfold check_CRC.
  eapply leads_bind; [apply cc_calc_crc |]. intros [c1 c2] _.
  eapply leads_bind; [apply cc_data_at |]. intros d2 _.
  eapply leads_bind with (Q := clean r) (F := fun _ => True).
  - destruct (d_data d2 =? c1).
    + eapply leads_bind; [apply cc_data_at |]. intros d1 _.
      eapply leads_weaken; [apply leads_ret | auto | auto].
    + eapply leads_weaken; [apply leads_ret | auto | auto].
  - intros [] _.
    + apply cc_co. apply cc_put; [simpl; tauto | discriminate | exact Hcov].
    + apply co_put_error.
Qed.

Lemma cc_put_last_byte name msg mx :
  In name field_names ->
  covers r (len l - 1) name ->
  cc (put_last_byte name msg mx) (fun _ => exists m, mx = Some m /\ m < len l - 1).
Proof.
  intros Hn Hcov. unfold put_last_byte.
  eapply leads_bind; [apply cc_get_self |]. intros a ->. cbv zeta.
  destruct (match mx with Some m => len l - 1 >? m | None => false end) eqn:E.
  { eapply leads_weaken; [apply leads_ret | auto |]. intros _ _.
    destruct mx as [m |]; [| discriminate]. exists m. split; [reflexivity | lia]. }
  eapply leads_bind; [apply cc_data_at |]. intros last _.
  eapply leads_bind; [apply cc_lift |]. intros text _.
  eapply leads_weaken; [apply cc_put | auto |]; auto.
  - intros _ H. lia.
  - intros ? H. simpl in H. lia.
Qed.

Lemma oo_put_last_byte_error msg :
  (forall v, exists t, Py.format msg v = Ret t) ->
  leads (owing r) (fun _ => False) (stops r)
    (put_last_byte "error" msg None) (fun _ => True).
Proof.
  intros Hf [a out] [Hr O]. simpl in O.
  pose proof Hr as (D & L & P). simpl in D, L, P.
  unfold put_last_byte. run_monad. proj_simpl. rewrite D.
  destruct (index_in_range l (-1)) as (last & I1 & _); [lia |].
  rewrite I1. run_monad.
  destruct (Hf (d_data last)) as (t & ->). run_monad.
  assert (Hn : In "error" field_names) by (simpl; tauto).
  destruct (put_in_round (len l - 1) "error" t a out Hr Hn)
    as [[Hb E] | [[Hb (ann & Hc & E)] | [Hb E]]]; rewrite E.
  - lia.
  - right. exists "error". apply wrote_by; auto; try lia.
    intros b0 _ _. reflexivity.
  - lia.
Qed.


Ltac fe_bytes :=
  repeat match goal with
    | H : Py.index _ ?i = Some ?d |- _ => progress rewrite (byte_of i d H)
    end;
  repeat match goal with
    | H : d_data _ = _ |- _ => progress rewrite H
    | H : byte _ _ = _ |- _ => progress rewrite H
    end.

Ltac fe_class :=
  unfold fixed_error;
  first [ match goal with Hc : r_cls _ = _ |- _ => rewrite Hc end
        | destruct (r_cls r) ].

(** An annotation that is not an error takes in no fixed error. *)
Ltac fe_cov :=
  unfold covers;
  let b0 := fresh "b0" in let Hb := fresh "Hb" in let He := fresh "He" in
  intros b0 Hb He;
  first [ reflexivity
        | exfalso; revert He; fe_class; fe_bytes; fe_eval; intros He;
          bool_facts; first [lia | congruence] ].

Ltac fe_cov2 := intros ? ?; fe_cov.

(** An error that is passed over is a fixed error. *)
Ltac fe_just :=
  let Hx := fresh "Hx" in let Hb := fresh "Hb" in
  intros Hx;
  first [ discriminate Hx
        | intros Hb; right; eexists; split; [exact Hb |];
          fe_class; fe_bytes; fe_eval;
          repeat match goal with
            | H : ?x = false |- context [?x] => rewrite H
            | H : ?x = true |- context [?x] => rewrite H
            end;
          cbn [andb orb negb]; reflexivity ].

Ltac fl_clean :=
  cbv beta in *;
  repeat match goal with
  | H : exists _, _ |- _ => destruct H
  | H : _ /\ _ |- _ => destruct H
  | H1 : Py.index ?l ?i = Some ?a, H2 : Py.index ?l ?i = Some ?b |- _ =>
      rewrite H1 in H2; injection H2 as <-
  | H : Some _ = Some _ |- _ => injection H as H
  | H : ?x = _ |- _ => is_var x; subst x
  | H : _ = ?x |- _ => is_var x; subst x
  end.

Ltac fl_leaf :=
  first
  [ apply cc_set_length | apply cc_set_typo | apply cc_get_self
  | apply cc_data_at | apply cc_half_word | apply cc_orelse | apply cc_raise
  | apply leads_ret
  | apply cc_put; [solve [simpl; tauto] | solve [fe_just] | solve [fe_cov2]]
  | apply co_check_CRC; solve [fe_cov2]
  | apply cc_put_last_byte; [solve [simpl; tauto] | solve [fe_cov]] ].

Ltac fl_first :=
  lazymatch goal with
  | |- leads _ _ _ (if ?c then _ else _) _ => destruct c eqn:?; fl_first
  | |- leads _ _ _ (bind _ _) _ =>
      eapply leads_bind; [fl_first | intros ? ?; fl_clean; fl_first]
  | |- _ => fl_leaf
  end.

Ltac fl_step :=
  lazymatch goal with
  | |- leads _ _ _ (bind _ _) _ =>
      eapply leads_bind; [fl_first | intros ? ?; fl_clean]
  | |- leads _ _ _ (if ?c then _ else _) _ => destruct c eqn:?
  | |- leads _ _ _ _ _ =>
      eapply leads_weaken;
        [fl_leaf | first [exact (fun w H => H) | apply clean_owing]
        | intros; fl_clean; first [assumption | lia | discriminate | exact Logic.I]]
  end.

Ltac fl_all := cbv zeta; repeat (fl_step; cbv beta iota zeta).

(** The function code is read again by the field decoders. *)
Ltac fl_function Hf :=
  eapply leads_bind; [apply cc_data_at |];
  let d := fresh "d" in let E := fresh "E" in
  intros d E; cbv beta in E; rewrite (byte_of _ _ E) in Hf;
  cbv zeta; repeat (destruct Hf as [Hf | Hf]); rewrite Hf;
  cbn [dict_item Z.eqb Pos.eqb CS.read_data_names CS.single_byte_names
       not_implemented_names];
  fl_all.

Lemma co_parse_write_single_coil :
  0 <= hw -> byte l 1 = 5 -> co parse_write_single_coil (fun _ => 1 <= hw).
Proof. intros H0 Hf. unfold parse_write_single_coil. fl_all. Qed.

Lemma co_parse_write_single_register :
  0 <= hw -> byte l 1 = 6 -> co parse_write_single_register (fun _ => 1 <= hw).
Proof. intros H0 Hf. unfold parse_write_single_register. fl_all. Qed.

Lemma co_parse_diagnostics :
  0 <= hw -> byte l 1 = 8 -> co parse_diagnostics (fun _ => 1 <= hw).
Proof. intros H0 Hf. unfold parse_diagnostics. fl_all. Qed.

Lemma co_parse_mask_write_register :
  0 <= hw -> byte l 1 = 22 -> co parse_mask_write_register (fun _ => 1 <= hw).
Proof. intros H0 Hf. unfold parse_mask_write_register. fl_all. Qed.

Lemma co_parse_not_implemented :
  0 <= hw -> byte l 1 = 21 \/ byte l 1 = 24 \/ byte l 1 = 43 ->
  co parse_not_implemented (fun _ => 1 <= hw).
Proof. intros H0 Hf. unfold parse_not_implemented. fl_function Hf. Qed.

Lemma co_SC_parse_read_bits :
  r_cls r = Sc -> 0 <= hw -> byte l 1 = 1 \/ byte l 1 = 2 ->
  co SC.parse_read_bits (fun _ => 1 <= hw).
Proof.
  intros Hc H0 Hf. unfold SC.parse_read_bits.
  eapply leads_bind; [apply cc_set_typo |]. intros _ _. fl_function Hf.
Qed.

Lemma co_SC_parse_read_registers :
  r_cls r = Sc -> 0 <= hw -> byte l 1 = 3 \/ byte l 1 = 4 \/ byte l 1 = 23 ->
  co SC.parse_read_registers (fun _ => 1 <= hw).
Proof.
  intros Hc H0 Hf. unfold SC.parse_read_registers.
  eapply leads_bind; [apply cc_set_typo |]. intros _ _. fl_function Hf.
Qed.

Lemma co_SC_parse_read_exception_status :
  r_cls r = Sc -> 0 <= hw -> byte l 1 = 7 ->
  co SC.parse_read_exception_status (fun _ => 1 <= hw).
Proof. intros Hc H0 Hf. unfold SC.parse_read_exception_status. fl_all. Qed.

Lemma co_SC_parse_get_comm_event_counter :
  r_cls r = Sc -> 0 <= hw -> byte l 1 = 11 ->
  co SC.parse_get_comm_event_counter (fun _ => 1 <= hw).
Proof. intros Hc H0 Hf. unfold SC.parse_get_comm_event_counter. fl_all. Qed.

Lemma co_SC_parse_get_comm_event_log :
  r_cls r = Sc -> 0 <= hw -> byte l 1 = 12 ->
  co SC.parse_get_comm_event_log (fun _ => 1 <= hw).
Proof. intros Hc H0 Hf. unfold SC.parse_get_comm_event_log. fl_all. Qed.

Lemma co_SC_parse_write_multiple :
  r_cls r = Sc -> 0 <= hw -> byte l 1 = 15 \/ byte l 1 = 16 ->
  co SC.parse_write_multiple (fun _ => 1 <= hw).
Proof.
  intros Hc H0 Hf. unfold SC.parse_write_multiple.
  eapply leads_bind; [apply cc_set_typo |]. intros _ _. fl_function Hf.
Qed.

Lemma co_SC_parse_report_server_id :
  r_cls r = Sc -> 0 <= hw -> byte l 1 = 17 ->
  co SC.parse_report_server_id (fun _ => 1 <= hw).
Proof. intros Hc H0 Hf. unfold SC.parse_report_server_id. fl_all. Qed.

Lemma co_CS_parse_read_data_command :
  r_cls r = Cs -> 0 <= hw ->
  byte l 1 = 1 \/ byte l 1 = 2 \/ byte l 1 = 3 \/ byte l 1 = 4 ->
  co CS.parse_read_data_command (fun _ => 1 <= hw).
Proof.
  intros Hc H0 Hf. unfold CS.parse_read_data_command.
  eapply leads_bind; [apply cc_set_length |]. intros _ _. fl_function Hf.
Qed.

Lemma co_CS_parse_single_byte_request :
  r_cls r = Cs -> 0 <= hw ->
  byte l 1 = 7 \/ byte l 1 = 11 \/ byte l 1 = 12 \/ byte l 1 = 17 ->
  co CS.parse_single_byte_request (fun _ => 1 <= hw).
Proof. intros Hc H0 Hf. unfold CS.parse_single_byte_request. fl_function Hf. Qed.

Lemma co_CS_parse_write_multiple :
  r_cls r = Cs -> 0 <= hw -> byte l 1 = 15 \/ byte l 1 = 16 ->
  co CS.parse_write_multiple (fun _ => 1 <= hw).
Proof.
  intros Hc H0 Hf. unfold CS.parse_write_multiple.
  eapply leads_bind; [apply cc_set_typo |]. intros _ _. fl_function Hf.
Qed.

Lemma co_CS_parse_read_write_registers :
  r_cls r = Cs -> 0 <= hw -> byte l 1 = 23 ->
  co CS.parse_read_write_registers (fun _ => 1 <= hw).
Proof. intros Hc H0 Hf. unfold CS.parse_read_write_registers. fl_all. Qed.

Lemma SC_known_error f : 128 < f -> SC_known f = true.
Proof.
  intros H. unfold SC_known.
  replace (f >? 128) with true by (symmetry; rewrite Z.gtb_ltb; apply Z.ltb_lt; lia).
  apply orb_true_r.
Qed.

Lemma co_SC_parse_error :
  r_cls r = Sc -> 0 <= hw -> 128 < byte l 1 -> co SC.parse_error (fun _ => 1 <= hw).
Proof.
  intros Hc H0 Hf. unfold SC.parse_error.
  eapply leads_bind; [apply cc_set_typo |]. intros _ _.
  eapply leads_bind; [apply cc_data_at |]. intros d E. cbv beta in E.
  rewrite (byte_of _ _ E) in Hf. pose proof (SC_known_error _ Hf) as K.
  fl_all.
Qed.

(** The tests of a dispatcher on a known function code. *)
Ltac dispatch_eval :=
  repeat match goal with
    | |- context [Z.eqb ?a ?b] => eval_bool (Z.eqb a b)
    | |- context [Z.gtb ?a ?b] => eval_bool (Z.gtb a b)
    | |- context [Z.geb ?a ?b] => eval_bool (Z.geb a b)
    | |- context [Z.leb ?a ?b] => eval_bool (Z.leb a b)
    | |- context [set_in ?a ?s] => eval_bool (set_in a s)
    end;
  cbn [andb orb negb]; cbv iota.

Ltac skip_ret := eapply leads_bind; [solve [apply leads_ret] | intros ? _].

Lemma message_plain msg : no_brace msg = true -> forall v : Z, exists t, Py.format msg v = Ret t.
Proof. intros H v. exists msg. now apply format_plain. Qed.

Lemma cc_unknown_function d1 :
  (r_cls r = Sc -> SC_known (d_data d1) = false) ->
  (r_cls r = Cs -> CS_known (d_data d1) = false) ->
  0 <= hw -> Py.index l 1 = Some d1 ->
  co (d <- data_at 1 ;;
      put_if_needed 1 "error" ("Unknown function: " ++ fmt_d (d_data d)) ;;
      put_last_byte "error" "Unknown function" None)
     (fun _ => True).
Proof.
  intros KS KC H0 Hd.
  eapply leads_bind; [apply cc_data_at |]. intros d E. cbv beta in E.
  rewrite Hd in E. injection E as <-.
  destruct (r_cls r) eqn:Hc; [pose proof (KS eq_refl) as K | pose proof (KC eq_refl) as K];
    fl_all.
Qed.

Lemma oo_unknown_function :
  1 <= hw ->
  oo (d <- data_at 1 ;;
      put_if_needed 1 "error" ("Unknown function: " ++ fmt_d (d_data d)) ;;
      put_last_byte "error" "Unknown function" None)
     (fun _ => True).
Proof.
  intros H1.
  eapply leads_bind; [apply oo_data_at; lia |]. intros d _.
  eapply leads_bind; [apply oo_put_error; lia |]. intros _ _.
  eapply leads_weaken;
    [apply oo_put_last_byte_error; apply message_plain; reflexivity | intros ? [] | auto].
Qed.

Ltac known_parser :=
  first [ apply co_parse_write_single_coil | apply co_parse_write_single_register
        | apply co_parse_diagnostics | apply co_parse_mask_write_register
        | apply co_parse_not_implemented
        | apply co_SC_parse_read_bits | apply co_SC_parse_read_registers
        | apply co_SC_parse_read_exception_status
        | apply co_SC_parse_get_comm_event_counter
        | apply co_SC_parse_get_comm_event_log
        | apply co_SC_parse_write_multiple | apply co_SC_parse_report_server_id
        | apply co_CS_parse_read_data_command | apply co_CS_parse_single_byte_request
        | apply co_CS_parse_write_multiple | apply co_CS_parse_read_write_registers ];
  first [assumption | lia].

Ltac known_parser_last :=
  eapply leads_weaken; [known_parser | exact (fun w H => H) | intros; exact Logic.I].

Lemma co_SC_dispatch d1 :
  r_cls r = Sc -> 0 <= hw -> Py.index l 1 = Some d1 ->
  co (SC.dispatch (d_data d1)) (fun _ => True).
Proof.
  intros Hc H0 Hd. pose proof (byte_of _ _ Hd) as Hb.
  destruct (SC_known (d_data d1)) eqn:K.
  - pose proof K as K0. unfold SC_known in K. bool_facts;
      try (rewrite SC_dispatch_error by lia;
           eapply leads_weaken;
             [apply co_SC_parse_error; first [assumption | lia]
             | exact (fun w H => H) | intros; exact Logic.I]; fail);
      match goal with H : d_data d1 = _ |- _ => rewrite H; rewrite H in Hb end;
      unfold SC.dispatch; dispatch_eval;
      known_parser_last.
  - pose proof K as K0. unfold SC_known in K.
    repeat (apply orb_false_iff in K; destruct K as [K ?]).
    unfold SC.dispatch.
    repeat match goal with H : ?x = false |- context [?x] => rewrite H end.
    cbn [andb orb]. cbv iota.
    apply (cc_unknown_function d1); auto; intros Hc'; congruence.
Qed.

Lemma SC_body_flags :
  r_cls r = Sc ->
  leads (clean r) (fun _ => False) (stops r)
    (d0 <- data_at 0 ;;
     put_if_needed 0 "server-id" (SC.server_id_message (d_data d0)) ;;
     d1 <- data_at 1 ;;
     SC.dispatch (d_data d1) ;;
     put_last_byte "error" "Message too long" None)
    (fun _ => True).
Proof.
  intros Hc. fl_step. fl_step. fl_step.
  eapply leads_bind; [apply co_SC_dispatch; auto |]. intros _ _.
  apply oo_put_last_byte_error. apply message_plain. reflexivity.
Qed.

Lemma co_CS_dispatch d1 :
  r_cls r = Cs -> 0 <= hw -> Py.index l 1 = Some d1 ->
  co (CS.dispatch (d_data d1)) (fun _ => True).
Proof.
  intros Hc H0 Hd. pose proof (byte_of _ _ Hd) as Hb.
  destruct (CS_known (d_data d1)) eqn:K.
  - pose proof K as K0. unfold CS_known in K. bool_facts;
      try match goal with
          | H1 : 1 <= d_data d1, H2 : d_data d1 <= 4 |- _ =>
              assert (H3 : d_data d1 = 1 \/ d_data d1 = 2 \/ d_data d1 = 3 \/ d_data d1 = 4)
                by lia;
              clear H1 H2; destruct H3 as [H3 | [H3 | [H3 | H3]]]
          end;
      match goal with H : d_data d1 = _ |- _ => rewrite H; rewrite H in Hb end;
      unfold CS.dispatch; dispatch_eval; repeat skip_ret;
      first [ known_parser_last
            | eapply leads_bind; [known_parser |]; intros ? ?; cbv beta in *;
              repeat skip_ret; apply oo_unknown_function; assumption ].
  - pose proof K as K0. unfold CS_known in K.
    repeat (apply orb_false_iff in K; destruct K as [K ?]).
    unfold CS.dispatch.
    repeat match goal with H : ?x = false |- context [?x] => rewrite H end.
    cbn [andb orb]. cbv iota. repeat skip_ret.
    apply (cc_unknown_function d1); auto; intros Hc'; congruence.
Qed.

Lemma CS_body_flags :
  r_cls r = Cs ->
  leads (clean r) (fun _ => False) (stops r)
    (d0 <- data_at 0 ;;
     put_if_needed 0 "server-id" (CS.server_id_message (d_data d0)) ;;
     d1 <- data_at 1 ;;
     CS.dispatch (d_data d1) ;;
     put_last_byte "error" "Message too long" None)
    (fun _ => True).
Proof.
  intros Hc. fl_step. fl_step. fl_step.
  eapply leads_bind; [apply co_CS_dispatch; auto |]. intros _ _.
  apply oo_put_last_byte_error. apply message_plain. reflexivity.
Qed.


End Flags.

Lemma parse_is_CS_parse w : cls (self w) = Cs -> parse w = CS.parse w.
Proof. intros H. unfold parse, bind, get_self. now rewrite H. Qed.

Lemma parse_is_SC_parse w : cls (self w) = Sc -> parse w = SC.parse w.
Proof. intros H. unfold parse, bind, get_self. now rewrite H. Qed.

Lemma prefix_valid c : prefix_of c = "Sc-" \/ prefix_of c = "Cs-".
Proof. destruct c; auto. Qed.

(** One round of [parse] on an ADU whose newest byte is not annotated. *)
Lemma parse_round (w : World) :
  -1 <= last_byte_put (self w) <= len (data (self w)) - 2 ->
  annotation_prefix (self w) = prefix_of (cls (self w)) ->
  stops (mkRound (cls (self w)) (data (self w)) (last_byte_put (self w))
                 (annotation_prefix (self w)) (output w) (hasError (self w)))
        No_more_data (snd (parse w)).
Proof.
  intros [Hlo Hhi] Hp.
  set (r := mkRound _ _ _ _ _ _).
  assert (Hpre : r_prefix r = "Sc-" \/ r_prefix r = "Cs-").
  { unfold r. simpl. rewrite Hp. apply prefix_valid. }
  assert (Hw : clean r w).
  { split; [split; [now repeat split | reflexivity] |]. intros H. left. exact H. }
  destruct (cls (self w)) eqn:Hc.
  - rewrite parse_is_SC_parse by exact Hc.
    pose proof (SC_body_flags r Hlo Hhi Hpre eq_refl w Hw) as H.
    unfold SC.parse, try_except_No_more_data.
    match type of H with match ?b w with _ => _ end =>
      destruct (b w) as [[[] | e] w1] end; [destruct H as [[] _] |].
    destruct e; exact H.
  - rewrite parse_is_CS_parse by exact Hc.
    pose proof (CS_body_flags r Hlo Hhi Hpre eq_refl w Hw) as H.
    unfold CS.parse, try_except_No_more_data.
    match type of H with match ?b w with _ => _ end =>
      destruct (b w) as [[[] | e] w1] end; [destruct H as [[] _] |].
    destruct e; exact H.
Qed.

Lemma byte_app l ext i : 0 <= i <= len l - 1 -> byte (l ++ ext) i = byte l i.
Proof.
  intros Hi. unfold byte.
  destruct (index_in_range l i) as (d & E & _); [lia |].
  rewrite (index_app_l l ext i d); [now rewrite E | lia | exact E].
Qed.

(** A fixed error is fixed: bytes that come later do not undo it. *)
Lemma fixed_error_app c l ext b :
  b <= len l - 1 ->
  fixed_error c (l ++ ext) b = fixed_error c l b.
Proof.
  intros Hb.
  assert (C : b = 1 \/ b = 2 \/ b = 3 \/ b = 4 \/ b = 5 \/ b = 6 \/ b = 10
              \/ (b <> 1 /\ b <> 2 /\ b <> 3 /\ b <> 4 /\ b <> 5 /\ b <> 6 /\ b <> 10))
    by lia.
  unfold fixed_error, word.
  destruct C as [-> | [-> | [-> | [-> | [-> | [-> | [-> | C]]]]]]].
  1-7: destruct c; fe_eval; rewrite ?byte_app by lia; reflexivity.
  destruct C as (C1 & C2 & C3 & C4 & C5 & C6 & C10).
  apply Z.eqb_neq in C1, C2, C3, C4, C5, C6, C10.
  destruct c; rewrite ?C1, ?C2, ?C3, ?C4, ?C5, ?C6, ?C10; reflexivity.
Qed.

Lemma class_is_error c name ann :
  In name field_names ->
  list_index annotations (prefix_of c ++ name) 0 = Some (a_class ann) ->
  is_error c ann <-> name = "error".
Proof.
  unfold is_error. intros Hn Hc.
  destruct c; simpl in Hn;
    repeat (destruct Hn as [<- | Hn];
            [match type of Hc with ?x = _ =>
               let v := eval vm_compute in x in change x with v in Hc end;
             injection Hc as Hc; split; intros H;
               first [reflexivity | discriminate H | symmetry; exact Hc
                     | rewrite <- Hc in H; discriminate H] |]);
    destruct Hn.
Qed.

Lemma add_data_DATA s e pkt a out :
  String.eqb (ptype pkt) "DATA" = true ->
  add_data s e pkt (mkWorld a out)
  = parse (mkWorld (set_data (data a ++ [mkData s e (pdata0 pkt)])
                             (set_last_read e a)) out).
Proof. intros H. unfold add_data. run_monad. proj_simpl. now rewrite H. Qed.

Lemma add_data_other s e pkt a out :
  String.eqb (ptype pkt) "DATA" = false ->
  add_data s e pkt (mkWorld a out) = (Ret tt, mkWorld (set_last_read e a) out).
Proof. intros H. unfold add_data. run_monad. proj_simpl. now rewrite H. Qed.

Lemma close_eq sc ov a out :
  close sc ov (mkWorld a out) =
  if len (data a) <? minimum_length a then
    if len (data a) =? 0 then (Ret tt, mkWorld a out)
    else
      match Py.index (data a) (last_byte_put a) with
      | Some d =>
          match list_index annotations (annotation_prefix a ++ "error") 0 with
          | Some c =>
              close_tail sc
                (mkWorld (set_hasError true a)
                   (out ++ [mkAnn (d_end d) ov c "Message too short or not finished"]))
          | None => (Raise ValueError, mkWorld a out)
          end
      | None => (Raise IndexError, mkWorld a out)
      end
  else close_tail sc (mkWorld a out).
Proof.
  unfold close. run_monad. proj_simpl.
  destruct (len (data a) <? minimum_length a); [| reflexivity].
  destruct (len (data a) =? 0); [reflexivity |].
  destruct (Py.index (data a) (last_byte_put a)); [| reflexivity]. run_monad.
  destruct (list_index annotations _ 0); reflexivity.
Qed.

(** [close] raises the flag only with its "too short" error. *)
Lemma close_flag sc ov a out :
  annotation_prefix a = prefix_of (cls a) ->
  let w' := snd (close sc ov (mkWorld a out)) in
  exists more,
    output w' = (out ++ more)%list
    /\ ((self w' = a /\ ~ Exists (is_error (cls a)) more)
        \/ (self w' = set_hasError true a /\ Exists (is_error (cls a)) more)).
Proof.
  intros Hp. cbv zeta.
  assert (Hv : annotation_prefix a = "Sc-" \/ annotation_prefix a = "Cs-")
    by (rewrite Hp; apply prefix_valid).
  assert (N14 : forall first last,
            ~ is_error (cls a) (mkAnn (d_start first) (d_end last) 14 "Frame contains error")).
  { intros first last. unfold is_error. destruct (cls a); simpl; lia. }
  assert (Q : forall w0 : World, self w0 = a -> output w0 = out ->
            exists more, output w0 = (out ++ more)%list
              /\ ((self w0 = a /\ ~ Exists (is_error (cls a)) more)
                  \/ (self w0 = set_hasError true a /\ Exists (is_error (cls a)) more))).
  { intros w0 S O. exists []. rewrite app_nil_r. split; [exact O |]. left.
    split; [exact S |]. intros H. inversion H. }
  rewrite close_eq.
  destruct (len (data a) <? minimum_length a).
  - destruct (len (data a) =? 0); [apply Q; reflexivity |].
    destruct (Py.index (data a) (last_byte_put a)) as [d |]; [| apply Q; reflexivity].
    destruct (list_index annotations (annotation_prefix a ++ "error") 0) as [c |] eqn:Hc;
      [| apply Q; reflexivity].
    set (ann := mkAnn (d_end d) ov c "Message too short or not finished").
    assert (He : is_error (cls a) ann).
    { apply (class_is_error (cls a) "error" ann); [simpl; tauto | | reflexivity].
      rewrite <- Hp. exact Hc. }
    destruct (close_tail_effect sc (set_hasError true a) (out ++ [ann])%list Hv)
      as [S [O | (first & last & _ & _ & O)]]; cbv zeta in S, O; rewrite S, O.
    + exists [ann]. split; [reflexivity |]. right. split; [reflexivity |].
      now constructor.
    + eexists [ann; _]. split; [now rewrite <- app_assoc |]. right.
      split; [reflexivity |]. now constructor.
  - destruct (close_tail_effect sc a out Hv)
      as [S [O | (first & last & _ & _ & O)]]; cbv zeta in S, O; rewrite S, O.
    + exists []. rewrite app_nil_r. split; [reflexivity |]. left.
      split; [reflexivity |]. intros H. inversion H.
    + eexists [_]. split; [reflexivity |]. left. split; [reflexivity |].
      intros H. inversion H as [? ? H1 | ? ? H1]; [now apply N14 in H1 | inversion H1].
Qed.

Lemma Exists_snoc {A} (P : A -> Prop) (xs : list A) (x : A) :
  Exists P (xs ++ [x]) <-> Exists P xs \/ P x.
Proof.
  rewrite Exists_app. split; intros [H | H]; auto.
  - right. inversion H as [? ? H1 | ? ? H1]; [exact H1 | inversion H1].
Qed.

(** A round of [parse] on the ADU with its newest byte keeps what holds
    between the operations, and raises the flag only with an error
    annotation. *)
Lemma parse_keeps_flag_inv out0 a out x :
  flag_inv out0 (mkWorld a out) ->
  let w1 := mkWorld (set_data (data a ++ [x]) a) out in
  let w' := snd (parse w1) in
  cls (self w') = cls a
  /\ flag_inv out0 w'
  /\ exists more,
       output w' = (out ++ more)%list
       /\ ((hasError (self w') = hasError a /\ ~ Exists (is_error (cls a)) more)
           \/ (hasError (self w') = true /\ Exists (is_error (cls a)) more)).
Proof.
  intros (Hm & Hp & (anns & Ho & Hiff) & Hfix) w1 w'. simpl in Hm, Hp, Ho, Hiff, Hfix.
  unfold mark_in_buffer in Hm.
  assert (L1 : len (data (self w1)) = len (data a) + 1).
  { unfold w1. simpl. now rewrite len_app. }
  assert (St := parse_round w1). fold w' in St.
  assert (M1 : -1 <= last_byte_put (self w1) <= len (data (self w1)) - 2).
  { rewrite L1. unfold w1. simpl. lia. }
  specialize (St M1 Hp).
  destruct (parse_tame w1) as (F & I & _). fold w' in F, I.
  destruct F as (Fc & Fd & _ & _ & _ & Fp & _).
  change (cls (self w1)) with (cls a) in *.
  change (data (self w1)) with (data a ++ [x])%list in *.
  change (annotation_prefix (self w1)) with (annotation_prefix a) in *.
  change (last_byte_put (self w1)) with (last_byte_put a) in *.
  change (hasError (self w1)) with (hasError a) in *.
  change (output w1) with out in *.
  assert (Mono : hasError a = true -> hasError (self w') = true).
  { apply (st_error _ _ (stable_run_op Op_parse w1)). }
  assert (Mk : mark_in_buffer (self w')).
  { apply I. unfold mark_in_buffer, w1. simpl. rewrite len_app.
    change (len [x]) with 1. lia. }
  set (r := mkRound (cls a) (data a ++ [x]) (last_byte_put a) (annotation_prefix a) out
                    (hasError a)) in *.
  assert (Just : justified r -> hasError a = true).
  { intros [J | (b & Hb & J)]; [exact J |]. simpl in Hb, J.
    apply (Hfix b Hb). rewrite <- (fixed_error_app _ _ [x]); [exact J | lia]. }
  assert (Old : forall b, b <= last_byte_put a ->
            fixed_error (cls a) (data a ++ [x]) b = true -> hasError (self w') = true).
  { intros b Hb J. apply Mono, (Hfix b Hb).
    rewrite <- (fixed_error_app _ _ [x]); [exact J | lia]. }
  split; [exact Fc |].
  destruct St as [(O & L & J) | (name & ann & O & Hcl & Hn & Lt & Cov & E1 & E2)];
    simpl in O, L, J || simpl in O, Hcl, Lt, Cov, E1, E2.
  - (* nothing written *)
    assert (E : hasError (self w') = hasError a).
    { destruct (hasError (self w')) eqn:E'.
      - symmetry. apply Just, J. reflexivity.
      - destruct (hasError a); [discriminate (Mono eq_refl) | reflexivity]. }
    split.
    + split; [exact Mk |]. split; [now rewrite Fp, Fc |]. split.
      * exists anns. rewrite O, Fc, E. auto.
      * intros b Hb Hx. rewrite L in Hb. rewrite Fc, Fd in Hx. eauto.
    + exists []. rewrite app_nil_r. split; [exact O |]. left. split; [exact E |].
      intros H. inversion H.
  - (* one annotation written *)
    assert (Cl : is_error (cls a) ann <-> name = "error").
    { apply class_is_error; [exact Hn |]. rewrite <- Hp. exact Hcl. }
    assert (New : forall b, b <= last_byte_put (self w') ->
              fixed_error (cls a) (data a ++ [x]) b = true -> hasError (self w') = true).
    { intros b Hb Hx. destruct (Z_le_gt_dec b (last_byte_put a)) as [Hle | Hgt];
        [eauto |].
      apply E1. unfold covers in Cov. simpl in Cov. apply (Cov b); [lia | exact Hx]. }
    destruct (string_dec name "error") as [Hname | Hname].
    + specialize (E1 Hname).
      split.
      * split; [exact Mk |]. split; [now rewrite Fp, Fc |]. split.
        -- exists (anns ++ [ann])%list. rewrite O, Ho, Fc, <- app_assoc.
           split; [reflexivity |]. rewrite Exists_snoc. split; [| auto].
           intros _. right. now apply Cl.
        -- intros b Hb Hx. rewrite Fc, Fd in Hx. eauto.
      * exists [ann]. split; [exact O |]. right. split; [exact E1 |].
        constructor. now apply Cl.
    + assert (E : hasError (self w') = hasError a).
      { destruct (hasError (self w')) eqn:E'.
        - symmetry. destruct (E2 eq_refl) as [H | H]; [contradiction | now apply Just].
        - destruct (hasError a); [discriminate (Mono eq_refl) | reflexivity]. }
      assert (Ne : ~ is_error (cls a) ann) by (intros H; now apply Cl in H).
      split.
      * split; [exact Mk |]. split; [now rewrite Fp, Fc |]. split.
        -- exists (anns ++ [ann])%list. rewrite O, Ho, Fc, <- app_assoc.
           split; [reflexivity |]. rewrite Exists_snoc, E. tauto.
        -- intros b Hb Hx. rewrite Fc, Fd in Hx. rewrite <- E in *. eauto.
      * exists [ann]. split; [exact O |]. left. split; [exact E |].
        intros H. inversion H as [? ? H1 | ? ? H1]; [contradiction | inversion H1].
Qed.

(** One operation of the decoder on an ADU. *)
Lemma public_step op w out0 :
  is_public op = true -> flag_inv out0 w ->
  let w' := snd (run_op op w) in
  cls (self w') = cls (self w)
  /\ flag_inv out0 w'
  /\ exists more,
       output w' = (output w ++ more)%list
       /\ ((hasError (self w') = hasError (self w)
            /\ ~ Exists (is_error (cls (self w))) more)
           \/ (hasError (self w') = true /\ Exists (is_error (cls (self w))) more)).
Proof.
  destruct w as [a out].
  destruct op as [s0 e0 pkt | byte_to_put annotation message
                 | annotation message maximum
                 | ScChannel message_overflow | byte_to_put |];
    simpl; intros Hop Inv; try discriminate.
  - (* add_data *)
    destruct (String.eqb (ptype pkt) "DATA") eqn:E.
    + rewrite add_data_DATA by exact E.
      assert (Inv' : flag_inv out0 (mkWorld (set_last_read e0 a) out)) by exact Inv.
      exact (parse_keeps_flag_inv out0 (set_last_read e0 a) out
               (mkData s0 e0 (pdata0 pkt)) Inv').
    + rewrite add_data_other by exact E. simpl.
      split; [reflexivity |]. split; [exact Inv |].
      exists []. rewrite app_nil_r. split; [reflexivity |]. left.
      split; [reflexivity |]. intros H. inversion H.
  - (* close *)
    destruct Inv as (Hm & Hp & (anns & Ho & Hiff) & Hfix). simpl in Hm, Hp, Ho, Hiff, Hfix.
    destruct (close_flag ScChannel message_overflow a out Hp)
      as (more & O & [[S Ne] | [S Ex]]); cbv zeta in O, S;
      destruct (snd (close ScChannel message_overflow (mkWorld a out))) as [a' out'];
      simpl in O, S; subst a' out'.
    + split; [reflexivity |]. split.
      * split; [exact Hm |]. split; [exact Hp |]. split; [| exact Hfix].
        exists (anns ++ more)%list. simpl. rewrite Ho, <- app_assoc.
        split; [reflexivity |]. rewrite Exists_app. tauto.
      * exists more. split; [reflexivity |]. left. auto.
    + split; [reflexivity |]. split.
      * split; [exact Hm |]. split; [exact Hp |]. split; [| auto].
        exists (anns ++ more)%list. simpl. rewrite Ho, <- app_assoc.
        split; [reflexivity |]. rewrite Exists_app. tauto.
      * exists more. split; [reflexivity |]. right. auto.
Qed.

Lemma public_run (ops : list Op) : forall w out0,
  forallb is_public ops = true -> flag_inv out0 w ->
  cls (self (run_ops ops w)) = cls (self w) /\ flag_inv out0 (run_ops ops w).
Proof.
  induction ops as [| op ops IH]; intros w out0 Hops Inv; simpl; [auto |].
  simpl in Hops. apply andb_true_iff in Hops. destruct Hops as [Hop Hops].
  destruct (public_step op w out0 Hop Inv) as (C & Inv' & _).
  destruct (IH _ out0 Hops Inv') as [C' Inv''].
  split; [congruence | exact Inv''].
Qed.

Lemma fixed_error_before c l b : b <= 0 -> fixed_error c l b = false.
Proof.
  intros Hb.
  assert (C : forall k, 1 <= k -> (b =? k) = false) by (intros k Hk; apply Z.eqb_neq; lia).
  unfold fixed_error. destruct c; rewrite ?C by lia; reflexivity.
Qed.

Lemma new_ADU_flag_inv c ss out : flag_inv out (mkWorld (new_ADU c ss) out).
Proof.
  split; [| split; [| split]].
  - unfold mark_in_buffer. destruct c; simpl; lia.
  - destruct c; reflexivity.
  - exists []. rewrite app_nil_r. split; [reflexivity |].
    split; intros H; [destruct c; discriminate H | inversion H].
  - intros b Hb H. exfalso.
    assert (Hb' : b <= 0) by (destruct c; simpl in Hb; lia).
    rewrite fixed_error_before in H by exact Hb'. discriminate H.
Qed.

(** C9. The error flag of an ADU is up exactly when an error annotation
    was written for it.  An ADU of either direction is made, and the
    decoder applies to it any sequence of its operations, [add_data] with
    packets of any kind and [close].  Then [hasError] is set if and only
    if, among the annotations written since, there is one of the error
    class of the direction; and every further operation leaves the flag
    as it is if it writes no error annotation,
    in particular if it writes nothing, and leaves it set if it writes
    one. *)
Theorem error_flag_rule (c : Direction) (ss : Z) (out : list Ann) (ops : list Op) :
  forallb is_public ops = true ->
  let w := run_ops ops (mkWorld (new_ADU c ss) out) in
  (exists anns,
     output w = (out ++ anns)%list
     /\ (hasError (self w) = true <-> Exists (is_error c) anns))
  /\ forall op, is_public op = true ->
       let w' := snd (run_op op w) in
       exists more,
         output w' = (output w ++ more)%list
         /\ ((hasError (self w') = hasError (self w) /\ ~ Exists (is_error c) more)
             \/ (hasError (self w') = true /\ Exists (is_error c) more)).
Proof.
  intros Hops w.
  destruct (public_run ops (mkWorld (new_ADU c ss) out) out Hops (new_ADU_flag_inv c ss out))
    as [C Inv]. fold w in C, Inv.
  assert (Cc : cls (self w) = c) by (rewrite C; destruct c; reflexivity).
  split.
  - destruct Inv as (_ & _ & (anns & O & Hiff) & _). exists anns. rewrite <- Cc. auto.
  - intros op Hop. destruct (public_step op w out Hop Inv) as (_ & _ & H).
    rewrite Cc in H. exact H.
Qed.

Lemma error_flag_rule_witness :
  let ops := [Op_add_data 1 9 (mkPacket "DATA" TX 0x11);
              Op_add_data 11 19 (mkPacket "DATA" TX 99);
              Op_close "RX" 22] in
  let w := run_ops ops (mkWorld (new_ADU Cs 0) []) in
  forallb is_public ops = true
  /\ (exists anns,
        output w = ([] ++ anns)%list
        /\ (hasError (self w) = true <-> Exists (is_error Cs) anns)).
Proof.
  intros ops w. split; [reflexivity |].
  exact (proj1 (error_flag_rule Cs 0 [] ops eq_refl)).
Defined.

(** * What the decoder can raise

    A round of [parse] on a buffer of bytes is followed through every field
    decoder: each index is within the buffer or answered by [No_more_data],
    each class name is in the annotation list, each template formats. *)

Section Round.

Variables (l : list Data) (hw : Z) (pre : string) (X : exn -> Prop).
Hypothesis Hbytes : Forall is_byte l.
Hypothesis Hmlo : -1 <= hw.
Hypothesis Hmhi : hw <= len l - 2.
Hypothesis Hpre : pre = "Sc-" \/ pre = "Cs-".

Local Abbreviation ok := (round_ok l hw pre X).

Lemma ok_bind {A B} (m : M A) (k : A -> M B) F G :
  ok m F -> (forall a, F a -> ok (k a) G) -> ok (bind m k) G.
Proof.
  intros Hm Hk w Hw. unfold bind. specialize (Hm w Hw).
  destruct (m w) as [[a | e] w1]; [| exact Hm].
  destruct Hm as [Hw1 Fa]. exact (Hk a Fa w1 Hw1).
Qed.

Lemma ok_weaken {A} (m : M A) (F G : A -> Prop) :
  ok m F -> (forall a, F a -> G a) -> ok m G.
Proof.
  intros Hm HG w Hw. specialize (Hm w Hw).
  destruct (m w) as [[a | e] w1]; [| exact Hm].
  destruct Hm. auto.
Qed.

Lemma ok_ret {A} (a : A) : ok (ret a) (fun x => x = a).
Proof. intros w Hw. simpl. auto. Qed.

Lemma ok_stop {A} (F : A -> Prop) : ok (raise No_more_data) F.
Proof. intros w Hw. simpl. auto. Qed.

Lemma ok_get_self :
  ok get_self (fun a => data a = l /\ last_byte_put a = hw /\ annotation_prefix a = pre).
Proof. intros w Hw. simpl. auto. Qed.

Lemma ok_set_length v : ok (modify_self (set_minimum_length v)) (fun _ => True).
Proof. intros [a out] Hw. simpl. auto. Qed.

Lemma ok_set_typo v : ok (modify_self (set_mimumum_length v)) (fun _ => True).
Proof. intros [a out] Hw. simpl. auto. Qed.

Lemma ok_data_at i :
  - len l <= i <= len l - 1 ->
  ok (data_at i) (fun d => Py.index l i = Some d /\ is_byte d).
Proof.
  intros Hi [a out] (D & L & P). unfold data_at. run_monad. simpl in D. rewrite D.
  destruct (index_in_range l i Hi) as (d & E & I). rewrite E.
  split; [now repeat split |]. split; [reflexivity |].
  eapply Forall_forall; eauto.
Qed.

Lemma ok_put b ann msg :
  In ann field_names -> ok (put_if_needed b ann msg) (fun _ => b <= hw).
Proof.
  intros Hann [a out] (D & L & P). simpl in D, L, P.
  rewrite put_if_needed_eq, D, L, P.
  destruct (b >? len l - 1) eqn:E1; [now left |].
  destruct (b >? hw) eqn:E2.
  - destruct (index_in_range l (hw + 1)) as (d1 & I1 & _); [lia |].
    destruct (index_in_range l b) as (d2 & I2 & _); [lia |].
    rewrite I1, I2.
    pose proof (field_name_valid pre ann Hpre Hann) as V.
    destruct (list_index annotations (pre ++ ann) 0); [now left | congruence].
  - split; [| lia]. unfold in_round. simpl. rewrite flag_mark.
    unfold flag. destruct (String.eqb ann "error"); simpl; auto.
Qed.

Lemma ok_half_word s :
  - len l <= s ->
  ok (half_word s) (fun v => s + 1 <= len l - 1 /\ 0 <= v < 65536).
Proof.
  intros Hs. unfold half_word. eapply ok_bind; [apply ok_get_self |].
  intros a (D & _). rewrite D.
  destruct (s + 1 >? len l - 1) eqn:E; [apply ok_stop |].
  eapply ok_bind; [apply ok_data_at; lia |]. intros hi (_ & Hhi).
  eapply ok_bind; [apply ok_data_at; lia |]. intros lo (_ & Hlo).
  eapply ok_weaken; [apply ok_ret |]. intros v ->.
  unfold is_byte in *. lia.
Qed.

Lemma ok_calc_crc b : 3 <= b -> ok (calc_crc b) (fun _ => True).
Proof.
  intros Hb. unfold calc_crc.
  replace (b <? 3) with false by (symmetry; apply Z.ltb_ge; lia).
  eapply ok_bind; [apply ok_get_self |]. intros a _.
  eapply ok_weaken; [apply ok_ret | auto].
Qed.

Lemma ok_check_CRC b : 3 <= b -> 2 <= len l -> ok (check_CRC b) (fun _ => b <= hw).
Proof.
  intros Hb Hl. unfold check_CRC.
  eapply ok_bind; [apply ok_calc_crc; exact Hb |]. intros [c1 c2] _.
  eapply ok_bind; [apply ok_data_at; lia |]. intros d2 _.
  eapply ok_bind with (F := fun _ => True).
  - destruct (d_data d2 =? c1).
    + eapply ok_bind; [apply ok_data_at; lia |]. intros d1 _.
      eapply ok_weaken; [apply ok_ret | auto].
    + eapply ok_weaken; [apply ok_ret | auto].
  - intros [] _; apply ok_put; simpl; tauto.
Qed.

Lemma ok_put_last_byte ann msg mx :
  In ann field_names ->
  (forall last, Py.index l (-1) = Some last -> is_byte last ->
     match mx with Some m => len l - 1 <= m | None => True end ->
     match Py.format msg (d_data last) with
     | Ret _ => True
     | Raise e => e = No_more_data \/ X e
     end) ->
  ok (put_last_byte ann msg mx) (fun _ => exists m, mx = Some m /\ m < len l - 1).
Proof.
  intros Hann Hfmt. unfold put_last_byte.
  eapply ok_bind; [apply ok_get_self |]. intros a (D & _). rewrite D. cbv zeta.
  destruct (match mx with Some m => len l - 1 >? m | None => false end) eqn:E.
  { eapply ok_weaken; [apply ok_ret |]. intros _ _.
    destruct mx as [m |]; [| discriminate]. exists m. split; [reflexivity | lia]. }
  eapply ok_bind; [apply ok_data_at; lia |]. intros last (Il & B).
  assert (Hmx : match mx with Some m => len l - 1 <= m | None => True end)
    by (destruct mx; [lia | exact I]).
  specialize (Hfmt last Il B Hmx).
  destruct (Py.format msg (d_data last)) as [text | e]; simpl.
  - eapply ok_bind; [apply ok_ret |]. intros ? ->.
    eapply ok_weaken; [apply ok_put; exact Hann |]. intros ? H. simpl in H. lia.
  - intros w Hw. simpl. exact Hfmt.
Qed.

Lemma ok_orelse_some {A} (a : A) e : ok (orelse (Some a) e) (fun x => x = a).
Proof. apply ok_ret. Qed.

Ltac ok_clean :=
  cbv beta in *;
  repeat match goal with
  | H : _ /\ _ |- _ => destruct H
  | H : exists _, _ |- _ => destruct H
  | H1 : Py.index ?l ?i = Some ?a, H2 : Py.index ?l ?i = Some ?b |- _ =>
      rewrite H1 in H2; injection H2 as <-
  | H : ?x = _ |- _ => is_var x; subst x
  end.

Ltac ok_arith :=
  bool_facts; unfold is_byte in *;
  match goal with |- context [len ?l] => pose proof (len_nonneg l) | _ => idtac end;
  lia.

Ltac plain_format :=
  rewrite format_plain; [exact Logic.I |];
  unfold fmt_d, fmt_X, fmt_02X, fmt_04X, fmt_08b;
  rewrite ?no_brace_app, ?no_brace_fmt_int by lia;
  reflexivity.

Ltac ok_leaf :=
  first
  [ apply ok_set_length | apply ok_set_typo | apply ok_get_self
  | apply ok_put; solve [simpl; tauto]
  | apply ok_data_at; solve [ok_arith]
  | apply ok_half_word; solve [ok_arith]
  | apply ok_check_CRC; solve [ok_arith]
  | apply ok_stop
  | apply ok_ret
  | apply ok_orelse_some
  | apply ok_put_last_byte;
      [solve [simpl; tauto] | solve [intros; first [plain_format | lazy; exact Logic.I]]]
  | solve [exfalso; ok_arith] ].

Ltac ok_first :=
  lazymatch goal with
  | |- round_ok _ _ _ _ (if ?c then _ else _) _ => destruct c eqn:?; ok_first
  | |- round_ok _ _ _ _ (bind _ _) _ =>
      eapply ok_bind; [ok_first | intros ? ?; ok_clean; ok_first]
  | |- _ => ok_leaf
  end.

Ltac ok_step :=
  lazymatch goal with
  | |- round_ok _ _ _ _ (bind _ _) _ =>
      eapply ok_bind; [ok_first | intros ? ?; ok_clean]
  | |- round_ok _ _ _ _ (if ?c then _ else _) _ => destruct c eqn:?
  | |- round_ok _ _ _ _ (match ?x with (_, _) => _ end) _ => destruct x
  | |- round_ok _ _ _ _ _ _ => eapply ok_weaken; [ok_leaf | intros; exact Logic.I]
  end.

Ltac ok_all := cbv zeta; repeat (ok_step; cbv beta iota zeta).

(** The function code is read again by the field decoders. *)
Ltac ok_function Hd Hf :=
  eapply ok_bind; [apply ok_data_at; ok_arith |];
  let d := fresh "d" in let E := fresh "E" in let B := fresh "B" in
  intros d (E & B); rewrite Hd in E; injection E as <-;
  cbv zeta; repeat (destruct Hf as [Hf | Hf]); rewrite Hf;
  cbn [dict_item Z.eqb Pos.eqb CS.read_data_names CS.single_byte_names not_implemented_names];
  ok_all.

Lemma ok_parse_write_single_coil : 0 <= hw -> ok parse_write_single_coil (fun _ => True).
Proof. intros H0. unfold parse_write_single_coil. ok_all. Qed.

Lemma ok_parse_write_single_register :
  0 <= hw -> ok parse_write_single_register (fun _ => True).
Proof. intros H0. unfold parse_write_single_register. ok_all. Qed.

Lemma ok_parse_diagnostics : 0 <= hw -> ok parse_diagnostics (fun _ => True).
Proof. intros H0. unfold parse_diagnostics. ok_all. Qed.

Lemma ok_parse_mask_write_register :
  0 <= hw -> ok parse_mask_write_register (fun _ => True).
Proof. intros H0. unfold parse_mask_write_register. ok_all. Qed.

Lemma ok_parse_not_implemented d1 :
  0 <= hw -> Py.index l 1 = Some d1 ->
  d_data d1 = 21 \/ d_data d1 = 24 \/ d_data d1 = 43 ->
  ok parse_not_implemented (fun _ => True).
Proof. intros H0 Hd Hf. unfold parse_not_implemented. ok_function Hd Hf. Qed.

Lemma ok_CS_parse_read_data_command d1 :
  0 <= hw -> Py.index l 1 = Some d1 ->
  d_data d1 = 1 \/ d_data d1 = 2 \/ d_data d1 = 3 \/ d_data d1 = 4 ->
  ok CS.parse_read_data_command (fun _ => True).
Proof.
  intros H0 Hd Hf. unfold CS.parse_read_data_command.
  eapply ok_bind; [apply ok_set_length |]. intros _ _. ok_function Hd Hf.
Qed.

Lemma ok_CS_parse_single_byte_request d1 :
  0 <= hw -> Py.index l 1 = Some d1 ->
  d_data d1 = 7 \/ d_data d1 = 11 \/ d_data d1 = 12 \/ d_data d1 = 17 ->
  ok CS.parse_single_byte_request (fun _ => True).
Proof. intros H0 Hd Hf. unfold CS.parse_single_byte_request. ok_function Hd Hf. Qed.

Lemma ok_CS_parse_write_multiple d1 :
  0 <= hw -> Py.index l 1 = Some d1 ->
  d_data d1 = 15 \/ d_data d1 = 16 ->
  ok CS.parse_write_multiple (fun _ => True).
Proof.
  intros H0 Hd Hf. unfold CS.parse_write_multiple.
  eapply ok_bind; [apply ok_set_typo |]. intros _ _. ok_function Hd Hf.
Qed.

Lemma ok_CS_parse_read_write_registers :
  0 <= hw -> ok CS.parse_read_write_registers (fun _ => True).
Proof. intros H0. unfold CS.parse_read_write_registers. ok_all. Qed.

Lemma ok_skip : ok (ret tt) (fun _ => True).
Proof. eapply ok_weaken; [apply ok_ret | auto]. Qed.

Ltac if_cases :=
  repeat lazymatch goal with
    | |- round_ok _ _ _ _ (if ?c then _ else _) _ => destruct c eqn:?
    end.

Lemma ok_CS_dispatch d1 :
  0 <= hw -> Py.index l 1 = Some d1 -> is_byte d1 ->
  ok (CS.dispatch (d_data d1)) (fun _ => True).
Proof.
  intros H0 Hd Bd. unfold CS.dispatch.
  eapply ok_bind with (F := fun _ => True).
  { if_cases; [| apply ok_skip].
    apply (ok_CS_parse_read_data_command d1); auto. ok_arith. }
  intros _ _. eapply ok_bind with (F := fun _ => True).
  { if_cases; [now apply ok_parse_write_single_coil | apply ok_skip]. }
  intros _ _. eapply ok_bind with (F := fun _ => True).
  { if_cases; [now apply ok_parse_write_single_register | apply ok_skip]. }
  intros _ _. eapply ok_bind with (F := fun _ => True).
  { if_cases; [| now apply ok_parse_diagnostics | apply ok_skip].
    apply (ok_CS_parse_single_byte_request d1); auto. ok_arith. }
  intros _ _. if_cases.
  - apply (ok_CS_parse_write_multiple d1); auto. ok_arith.
  - now apply ok_parse_mask_write_register.
  - now apply ok_CS_parse_read_write_registers.
  - apply (ok_parse_not_implemented d1); auto. ok_arith.
  - ok_all.
Qed.

Lemma ok_CS_body :
  ok (d0 <- data_at 0 ;;
      put_if_needed 0 "server-id" (CS.server_id_message (d_data d0)) ;;
      d1 <- data_at 1 ;;
      CS.dispatch (d_data d1) ;;
      put_last_byte "error" "Message too long" None)
     (fun _ => True).
Proof.
  ok_step. ok_step. ok_step.
  eapply ok_bind; [apply ok_CS_dispatch; auto |]. intros _ _. ok_all.
Qed.


Lemma ok_SC_parse_read_bits : 0 <= hw -> ok SC.parse_read_bits (fun _ => True).
Proof. intros H0. unfold SC.parse_read_bits. ok_all. Qed.

Lemma ok_SC_parse_read_registers d1 :
  0 <= hw -> Py.index l 1 = Some d1 ->
  d_data d1 = 3 \/ d_data d1 = 4 \/ d_data d1 = 23 ->
  ok SC.parse_read_registers (fun _ => True).
Proof.
  intros H0 Hd Hf. unfold SC.parse_read_registers.
  eapply ok_bind; [apply ok_set_typo |]. intros _ _. ok_function Hd Hf.
Qed.

Lemma ok_SC_parse_read_exception_status :
  0 <= hw -> ok SC.parse_read_exception_status (fun _ => True).
Proof. intros H0. unfold SC.parse_read_exception_status. ok_all. Qed.

Lemma ok_SC_parse_get_comm_event_counter :
  0 <= hw -> ok SC.parse_get_comm_event_counter (fun _ => True).
Proof. intros H0. unfold SC.parse_get_comm_event_counter. ok_all. Qed.

Lemma ok_SC_parse_get_comm_event_log :
  0 <= hw -> ok SC.parse_get_comm_event_log (fun _ => True).
Proof. intros H0. unfold SC.parse_get_comm_event_log. ok_all. Qed.

Lemma ok_SC_parse_write_multiple d1 :
  0 <= hw -> Py.index l 1 = Some d1 ->
  d_data d1 = 15 \/ d_data d1 = 16 ->
  ok SC.parse_write_multiple (fun _ => True).
Proof.
  intros H0 Hd Hf. unfold SC.parse_write_multiple.
  eapply ok_bind; [apply ok_set_typo |]. intros _ _. ok_function Hd Hf.
Qed.

Lemma ok_SC_parse_error : 0 <= hw -> ok SC.parse_error (fun _ => True).
Proof. intros H0. unfold SC.parse_error. ok_all. Qed.

Lemma ok_SC_parse_report_server_id :
  (forall last, Py.index l (-1) = Some last ->
     d_data last = 123 \/ d_data last = 125 -> 4 <= hw -> X ValueError) ->
  0 <= hw -> ok SC.parse_report_server_id (fun _ => True).
Proof.
  intros HX H0. unfold SC.parse_report_server_id. ok_all.
  match goal with B : is_byte ?d |- context [Py.chr (d_data ?d)] =>
    destruct (chr_byte (d_data d) B) as (c & Ec & Hc); rewrite Ec
  end.
  ok_step. cbv beta.
  eapply ok_bind.
  - apply ok_put_last_byte; [simpl; tauto |].
    intros last Il Bl Hmx. ok_clean.
    destruct Hc as [Hn | Hv].
    + rewrite format_plain; [exact Logic.I |].
      unfold fmt_d. rewrite ?no_brace_app, ?no_brace_fmt_int, Hn by lia. reflexivity.
    + assert (V : X ValueError).
      { match goal with H : Py.index l (-1) = Some ?d |- _ => apply (HX d) end;
          auto; ok_arith. }
      destruct Hv as [Hv | Hv]; rewrite Hv in *;
        vm_compute in Ec; injection Ec as <-; vm_compute; auto.
  - intros ? ?. ok_clean. ok_all.
Qed.

Lemma ok_SC_dispatch d1 :
  (forall last, Py.index l (-1) = Some last ->
     d_data last = 123 \/ d_data last = 125 -> 4 <= hw -> d_data d1 = 17 ->
     X ValueError) ->
  0 <= hw -> Py.index l 1 = Some d1 -> is_byte d1 ->
  ok (SC.dispatch (d_data d1)) (fun _ => True).
Proof.
  intros HX H0 Hd Bd. unfold SC.dispatch. if_cases.
  - now apply ok_SC_parse_read_bits.
  - apply (ok_SC_parse_read_registers d1); auto. ok_arith.
  - now apply ok_parse_write_single_coil.
  - now apply ok_parse_write_single_register.
  - now apply ok_SC_parse_read_exception_status.
  - now apply ok_parse_diagnostics.
  - now apply ok_SC_parse_get_comm_event_counter.
  - now apply ok_SC_parse_get_comm_event_log.
  - apply (ok_SC_parse_write_multiple d1); auto. ok_arith.
  - apply ok_SC_parse_report_server_id; auto.
    intros last Il Hv H4. apply (HX last); auto. ok_arith.
  - now apply ok_parse_mask_write_register.
  - apply (ok_parse_not_implemented d1); auto. ok_arith.
  - now apply ok_SC_parse_error.
  - ok_all.
Qed.

Lemma ok_SC_body :
  (forall d1 last, Py.index l 1 = Some d1 -> Py.index l (-1) = Some last ->
     d_data last = 123 \/ d_data last = 125 -> 4 <= hw -> d_data d1 = 17 ->
     X ValueError) ->
  ok (d0 <- data_at 0 ;;
      put_if_needed 0 "server-id" (SC.server_id_message (d_data d0)) ;;
      d1 <- data_at 1 ;;
      SC.dispatch (d_data d1) ;;
      put_last_byte "error" "Message too long" None)
     (fun _ => True).
Proof.
  intros HX. ok_step. ok_step. ok_step.
  eapply ok_bind; [apply ok_SC_dispatch; eauto |]. intros _ _. ok_all.
Qed.

End Round.

Lemma CS_parse_returns (w : World) :
  Forall is_byte (data (self w)) ->
  -1 <= last_byte_put (self w) <= len (data (self w)) - 2 ->
  annotation_prefix (self w) = "Sc-" \/ annotation_prefix (self w) = "Cs-" ->
  fst (CS.parse w) = Ret tt.
Proof.
  intros Hb Hm Hp.
  pose proof (ok_CS_body (data (self w)) (last_byte_put (self w))
                (annotation_prefix (self w)) (fun _ => False) Hb (proj1 Hm) (proj2 Hm) Hp w) as H.
  unfold CS.parse, try_except_No_more_data. cbv zeta.
  match type of H with _ -> match ?b w with _ => _ end => destruct (b w) as [[[] | e] w1] end;
    [reflexivity |].
  destruct H as [-> | []]; [now repeat split | reflexivity].
Qed.

Lemma add_data_byte s e v w :
  add_data s e (mkPacket "DATA" TX v) w
  = parse (mkWorld (set_data (data (self w) ++ [mkData s e v])
                             (set_last_read e (self w))) (output w)).
Proof. destruct w as [a out]. reflexivity. Qed.

Lemma CS_feed_returns (bytes : list Data) : forall w,
  Forall is_byte bytes ->
  Forall is_byte (data (self w)) -> mark_in_buffer (self w) ->
  annotation_prefix (self w) = "Cs-" -> cls (self w) = Cs ->
  fst (feed bytes w) = Ret tt
  /\ data (self (snd (feed bytes w))) = (data (self w) ++ bytes)%list.
Proof.
  induction bytes as [| b rest IH]; intros w Hb Hd Hm Hp Hc; simpl.
  { now rewrite app_nil_r. }
  inversion Hb as [| ? ? Hb1 Hb2]; subst.
  unfold bind. rewrite add_data_byte.
  set (w1 := mkWorld _ _).
  assert (D1 : data (self w1) = (data (self w) ++ [b])%list)
    by (destruct b; reflexivity).
  assert (B1 : Forall is_byte (data (self w1))).
  { rewrite D1. apply Forall_app. split; [exact Hd | now constructor]. }
  assert (M1 : -1 <= last_byte_put (self w1) <= len (data (self w1)) - 2).
  { rewrite D1, len_app. change (len [b]) with 1. unfold mark_in_buffer in Hm.
    unfold w1. simpl. lia. }
  pose proof (parse_tame w1) as (F & I & _). cbv zeta in F, I.
  assert (R : fst (parse w1) = Ret tt).
  { rewrite parse_is_CS_parse by exact Hc. apply CS_parse_returns; auto;
      try (right; exact Hp). }
  destruct (parse w1) as [[[] | e] w2]; simpl in *; [| discriminate].
  destruct F as (Fc & Fd & _ & _ & _ & Fp & _).
  assert (Hd2 : Forall is_byte (data (self w2))) by (rewrite Fd; exact B1).
  assert (Hm2 : mark_in_buffer (self w2))
    by (apply I; unfold mark_in_buffer in *; proj_simpl; lia).
  assert (Hp2 : annotation_prefix (self w2) = "Cs-") by (rewrite Fp; exact Hp).
  assert (Hc2 : cls (self w2) = Cs) by (rewrite Fc; exact Hc).
  destruct (IH w2 Hb2 Hd2 Hm2 Hp2 Hc2) as [R2 D2].
  split; [exact R2 |]. rewrite D2, Fd. proj_simpl. rewrite D1, <- app_assoc. reflexivity.
Qed.



Lemma SC_parse_outcome (w : World) :
  Forall is_byte (data (self w)) ->
  -1 <= last_byte_put (self w) <= len (data (self w)) - 2 ->
  annotation_prefix (self w) = "Sc-" \/ annotation_prefix (self w) = "Cs-" ->
  fst (SC.parse w) = Ret tt
  \/ (fst (SC.parse w) = Raise ValueError /\ server_id_brace (data (self w))).
Proof.
  intros Hb Hm Hp.
  pose proof (ok_SC_body (data (self w)) (last_byte_put (self w))
                (annotation_prefix (self w))
                (fun e => e = ValueError /\ server_id_brace (data (self w)))
                Hb (proj1 Hm) (proj2 Hm) Hp) as H.
  assert (HX : forall d1 last : Data,
            Py.index (data (self w)) 1 = Some d1 ->
            Py.index (data (self w)) (-1) = Some last ->
            d_data last = 123 \/ d_data last = 125 ->
            4 <= last_byte_put (self w) -> d_data d1 = 17 ->
            ValueError = ValueError /\ server_id_brace (data (self w))).
  { intros d1 last H1 H2 H3 H4 H5. split; [reflexivity |].
    exists d1, last. repeat split; auto. lia. }
  specialize (H HX w).
  unfold SC.parse, try_except_No_more_data. cbv zeta.
  match type of H with _ -> match ?b w with _ => _ end => destruct (b w) as [[[] | e] w1] end;
    [left; reflexivity |].
  destruct H as [-> | [-> B]]; [now repeat split | left; reflexivity | right; auto].
Qed.

Lemma SC_feed_outcome (bytes : list Data) : forall w,
  Forall is_byte bytes ->
  Forall is_byte (data (self w)) -> mark_in_buffer (self w) ->
  annotation_prefix (self w) = "Sc-" -> cls (self w) = Sc ->
  (fst (feed bytes w) = Ret tt
   /\ data (self (snd (feed bytes w))) = (data (self w) ++ bytes)%list)
  \/ (fst (feed bytes w) = Raise ValueError
      /\ server_id_brace (data (self (snd (feed bytes w))))).
Proof.
  induction bytes as [| b rest IH]; intros w Hb Hd Hm Hp Hc; simpl.
  { left. now rewrite app_nil_r. }
  inversion Hb as [| ? ? Hb1 Hb2]; subst.
  unfold bind. rewrite add_data_byte.
  set (w1 := mkWorld _ _).
  assert (D1 : data (self w1) = (data (self w) ++ [b])%list)
    by (destruct b; reflexivity).
  assert (B1 : Forall is_byte (data (self w1))).
  { rewrite D1. apply Forall_app. split; [exact Hd | now constructor]. }
  assert (M1 : -1 <= last_byte_put (self w1) <= len (data (self w1)) - 2).
  { rewrite D1, len_app. change (len [b]) with 1. unfold mark_in_buffer in Hm.
    unfold w1. simpl. lia. }
  pose proof (parse_tame w1) as (F & I & _). cbv zeta in F, I.
  assert (R : fst (parse w1) = Ret tt
              \/ (fst (parse w1) = Raise ValueError /\ server_id_brace (data (self w1)))).
  { rewrite parse_is_SC_parse by exact Hc. apply SC_parse_outcome; auto. }
  destruct F as (Fc & Fd & _ & _ & _ & Fp & _).
  destruct (parse w1) as [[[] | e] w2]; simpl in *.
  - assert (Hd2 : Forall is_byte (data (self w2))) by (rewrite Fd; exact B1).
    assert (Hm2 : mark_in_buffer (self w2))
      by (apply I; unfold mark_in_buffer in *; proj_simpl; lia).
    assert (Hp2 : annotation_prefix (self w2) = "Sc-") by (rewrite Fp; exact Hp).
    assert (Hc2 : cls (self w2) = Sc) by (rewrite Fc; exact Hc).
    destruct (IH w2 Hb2 Hd2 Hm2 Hp2 Hc2) as [[R2 D2] | [R2 D2]].
    + left. split; [exact R2 |]. rewrite D2, Fd. proj_simpl. rewrite D1, <- app_assoc. reflexivity.
    + right. split; [exact R2 | exact D2].
  - destruct R as [R | [R B]]; [discriminate |].
    right. split; [exact R |]. rewrite Fd. exact B.
Qed.



(** ** The brace that stops the decoder *)

Section Forced.

Variables (l : list Data) (hw : Z) (pre : string).
Hypothesis Hhw : hw <= len l - 1.

Lemma passes_bind {A B} (m : M A) (k : A -> M B) F G :
  passes l hw pre m F -> (forall a, F a -> passes l hw pre (k a) G) ->
  passes l hw pre (bind m k) G.
Proof.
  intros Hm Hk w Hw. unfold bind.
  destruct (Hm w Hw) as (a & w1 & E & Hw1 & Fa). rewrite E.
  exact (Hk a Fa w1 Hw1).
Qed.

Lemma crashes_bind {A B} (m : M A) (k : A -> M B) F e :
  passes l hw pre m F -> (forall a, F a -> crashes l hw pre (k a) e) ->
  crashes l hw pre (bind m k) e.
Proof.
  intros Hm Hk w Hw. unfold bind.
  destruct (Hm w Hw) as (a & w1 & E & Hw1 & Fa). rewrite E.
  exact (Hk a Fa w1 Hw1).
Qed.

Lemma crashes_first {A B} (m : M A) (k : A -> M B) e :
  crashes l hw pre m e -> crashes l hw pre (bind m k) e.
Proof.
  intros Hm w Hw. unfold bind. specialize (Hm w Hw).
  destruct (m w) as [[a | e'] w1]; simpl in *; [discriminate | now injection Hm as ->].
Qed.

Lemma passes_ret {A} (a : A) : passes l hw pre (ret a) (fun x => x = a).
Proof. intros w Hw. exists a, w. split; [reflexivity | split; [exact Hw | reflexivity]]. Qed.

Lemma passes_get_self : passes l hw pre get_self (fun a => data a = l).
Proof.
  intros [a out] Hw. exists a, (mkWorld a out).
  split; [reflexivity | split; [exact Hw | exact (proj1 Hw)]].
Qed.

Lemma passes_set_typo v :
  passes l hw pre (modify_self (set_mimumum_length v)) (fun _ => True).
Proof.
  intros [a out] Hw. exists tt, (mkWorld (set_mimumum_length v a) out).
  split; [reflexivity | split; [exact Hw | exact Logic.I]].
Qed.

Lemma passes_data_at i d :
  Py.index l i = Some d -> passes l hw pre (data_at i) (fun x => x = d).
Proof.
  intros Hi [a out] (D & L & P). simpl in D. unfold data_at. run_monad.
  rewrite D, Hi. exists d. eexists. split; [reflexivity |]. now repeat split.
Qed.

Lemma passes_put b ann msg :
  b <= hw -> passes l hw pre (put_if_needed b ann msg) (fun _ => True).
Proof.
  intros Hb [a out] (D & L & P). simpl in D, L, P.
  rewrite put_if_needed_eq, D, L.
  replace (b >? len l - 1) with false by (symmetry; rewrite Z.gtb_ltb; apply Z.ltb_ge; lia).
  replace (b >? hw) with false by (symmetry; rewrite Z.gtb_ltb; apply Z.ltb_ge; lia).
  exists tt. eexists. split; [reflexivity |]. split; [| exact Logic.I].
  unfold in_round. simpl. rewrite flag_mark.
  unfold flag. destruct (String.eqb ann "error"); simpl; auto.
Qed.

Lemma crashes_put_last_byte ann msg m last e :
  Py.index l (-1) = Some last -> len l - 1 <= m ->
  Py.format msg (d_data last) = Raise e ->
  crashes l hw pre (put_last_byte ann msg (Some m)) e.
Proof.
  intros Hi Hm Hf. unfold put_last_byte.
  eapply crashes_bind; [apply passes_get_self |]. intros a D. rewrite D. cbv zeta.
  replace (len l - 1 >? m) with false by (symmetry; rewrite Z.gtb_ltb; apply Z.ltb_ge; lia).
  eapply crashes_bind; [apply passes_data_at; exact Hi |]. intros ? ->.
  rewrite Hf. intros w Hw. reflexivity.
Qed.

Lemma crashes_report_server_id d2 d3 d4 last :
  4 <= hw ->
  Py.index l 2 = Some d2 -> Py.index l 3 = Some d3 -> Py.index l 4 = Some d4 ->
  Py.index l (-1) = Some last ->
  len l - 1 <= 2 + d_data d2 ->
  d_data last = 123 \/ d_data last = 125 ->
  crashes l hw pre SC.parse_report_server_id ValueError.
Proof.
  intros H4 I2 I3 I4 Il Hlen Hv. unfold SC.parse_report_server_id.
  eapply crashes_bind; [apply passes_set_typo |]. intros _ _.
  eapply crashes_bind; [apply passes_put; lia |]. intros _ _.
  eapply crashes_bind; [apply passes_data_at; exact I2 |]. intros ? ->. cbv zeta.
  eapply crashes_bind; [apply passes_put; lia |]. intros _ _.
  eapply crashes_bind; [apply passes_data_at; exact I3 |]. intros ? ->.
  eapply crashes_bind; [apply passes_put; lia |]. intros _ _.
  eapply crashes_bind; [apply passes_data_at; exact I4 |]. intros ? ->.
  eapply crashes_bind with (F := fun _ => True).
  { destruct (d_data d4 =? 0); [apply passes_put; lia |].
    destruct (d_data d4 =? 255); apply passes_put; lia. }
  intros _ _.
  eapply crashes_bind; [apply passes_data_at; exact Il |]. intros ? ->.
  destruct Hv as [Hv | Hv]; rewrite Hv.
  - eapply crashes_bind; [apply (passes_ret "{"%string) |]. intros ? ->.
    apply crashes_first. eapply crashes_put_last_byte; eauto.
  - eapply crashes_bind; [apply (passes_ret "}"%string) |]. intros ? ->.
    apply crashes_first. eapply crashes_put_last_byte; eauto.
Qed.

Lemma crashes_SC_body d0 d1 d2 d3 d4 last :
  4 <= hw ->
  Py.index l 0 = Some d0 -> Py.index l 1 = Some d1 -> Py.index l 2 = Some d2 ->
  Py.index l 3 = Some d3 -> Py.index l 4 = Some d4 -> Py.index l (-1) = Some last ->
  d_data d1 = 17 -> len l - 1 <= 2 + d_data d2 ->
  d_data last = 123 \/ d_data last = 125 ->
  crashes l hw pre
    (d0 <- data_at 0 ;;
     put_if_needed 0 "server-id" (SC.server_id_message (d_data d0)) ;;
     d1 <- data_at 1 ;;
     SC.dispatch (d_data d1) ;;
     put_last_byte "error" "Message too long" None)
    ValueError.
Proof.
  intros H4 I0 I1 I2 I3 I4 Il F17 Hlen Hv.
  eapply crashes_bind; [apply passes_data_at; exact I0 |]. intros ? ->.
  eapply crashes_bind; [apply passes_put; lia |]. intros _ _.
  eapply crashes_bind; [apply passes_data_at; exact I1 |]. intros ? ->.
  rewrite F17. change (SC.dispatch 17) with SC.parse_report_server_id.
  apply crashes_first. eapply crashes_report_server_id; eauto.
Qed.

End Forced.

(** X10. A brace in the device-specific data of a Report Server ID
    response stops the decoder.  An ADU of the server-to-client direction
    holds at least the first five bytes of a response with function code
    17, all of them annotated, and its byte count still has room for one
    more byte: when a byte of value 123 or 125 arrives, [add_data] raises
    [ValueError], because the character is pasted into the template that
    [put_last_byte] formats. *)
Theorem server_id_brace_raises (s e v : Z) (a : ADU) (out : list Ann)
    (d1 d2 : Data) :
  cls a = Sc ->
  Py.index (data a) 1 = Some d1 -> d_data d1 = 17 ->
  Py.index (data a) 2 = Some d2 -> len (data a) <= 2 + d_data d2 ->
  4 <= last_byte_put a <= len (data a) - 1 ->
  v = 123 \/ v = 125 ->
  fst (add_data s e (mkPacket "DATA" TX v) (mkWorld a out)) = Raise ValueError.
Proof.
  intros Hc I1 F17 I2 Hlen Hm Hv.
  rewrite add_data_byte. set (w1 := mkWorld _ _).
  rewrite parse_is_SC_parse by exact Hc.
  set (l := (data a ++ [mkData s e v])%list).
  assert (L : len l = len (data a) + 1) by (unfold l; now rewrite len_app).
  assert (P : forall i, 0 <= i <= 4 -> exists d, Py.index l i = Some d
                /\ Py.index (data a) i = Some d).
  { intros i Hi. destruct (index_in_range (data a) i) as (d & E & _); [lia |].
    exists d. split; [apply index_app_l; [lia | exact E] | exact E]. }
  destruct (P 0) as (d0 & J0 & _); [lia |].
  destruct (P 1) as (d1' & J1 & K1); [lia |].
  destruct (P 2) as (d2' & J2 & K2); [lia |].
  destruct (P 3) as (d3 & J3 & _); [lia |].
  destruct (P 4) as (d4 & J4 & _); [lia |].
  rewrite I1 in K1. injection K1 as <-. rewrite I2 in K2. injection K2 as <-.
  assert (Jl : Py.index l (-1) = Some (mkData s e v)).
  { unfold l, Py.index. rewrite len_app. change (len [_]) with 1.
    change (-1 <? 0) with true. cbv iota.
    pose proof (len_nonneg (data a)).
    replace (-1 + (len (data a) + 1) <? 0) with false by (symmetry; apply Z.ltb_ge; lia).
    replace (Z.to_nat (-1 + (len (data a) + 1))) with (List.length (data a))
      by (unfold len; lia).
    rewrite nth_error_app2 by lia. now rewrite Nat.sub_diag. }
  assert (H1 : last_byte_put a <= len l - 1) by lia.
  assert (H2 : 4 <= last_byte_put a) by lia.
  assert (H3 : len l - 1 <= 2 + d_data d2) by lia.
  pose proof (crashes_SC_body l (last_byte_put a) (annotation_prefix a)
                H1 d0 d1 d2 d3 d4 (mkData s e v)
                H2 J0 J1 J2 J3 J4 Jl F17 H3 Hv w1) as C.
  unfold SC.parse, try_except_No_more_data.
  match type of C with _ -> fst (?b w1) = _ =>
    assert (C' : fst (b w1) = Raise ValueError)
      by (apply C; unfold in_round, w1; simpl; auto);
    destruct (b w1) as [[[] | x] w2]
  end; simpl in *; try discriminate.
  injection C' as ->. reflexivity.
Qed.

Lemma server_id_brace_raises_witness :
  let a := self (snd (feed [mkData 0 8 1; mkData 10 18 17; mkData 20 28 3;
                            mkData 30 38 9; mkData 40 48 255]
                           (mkWorld (new_ADU Sc 0) []))) in
  fst (add_data 50 58 (mkPacket "DATA" TX 123) (mkWorld a [])) = Raise ValueError.
Proof.
  apply (server_id_brace_raises 50 58 123 _ [] (mkData 10 18 17) (mkData 20 28 3)).
  - vm_compute. reflexivity.
  - vm_compute. reflexivity.
  - reflexivity.
  - vm_compute. reflexivity.
  - vm_compute. discriminate.
  - vm_compute. split; discriminate.
  - left. reflexivity.
Defined.
